(** * Dispersion Strategy Dashboard: the analytics of [Final/app_v3.py]

    A shallow embedding of the analytics pipeline of the dashboard script
    (signed exposures, daily mark-to-market PnL, equity curve, hedge flags,
    window statistics, daily change report) together with the properties
    its specification states about it.

    Modelling conventions.
    - A pandas frame is a list of records, a date-indexed Series a list of
      (date, value) pairs in index order.
    - Dates are day numbers ([Z]); tickers, underlyings and position types
      are strings, ordered and compared as Python does.
    - Numbers read from the log are exact rationals ([Q]): rounding of
      binary floating point is not modelled.  A cell that pandas may leave
      missing is an [option] ([None] is the missing marker NaN); where the
      script divides, values live in [fnum], which adds the two infinities
      and NaN to the rationals.  The two signed zeros are not told apart.
    - A column of the log whose values are all whole numbers, written as
      such, is read by [read_csv] as signed 64-bit integers, any other
      column as floats.  The products of two integer columns, and the sums
      of such products, wrap around at 64 bits as numpy computes them.
      Whole numbers beyond the signed 64-bit range, in the file (where
      [read_csv] reads them as unsigned integers or as text) or as the sum
      of the quantities of one date and ticker, are outside the model.
    - [sort_values] on several columns is stable; on one column it leaves
      the order of rows with equal keys to the implementation, and takes
      that order as a parameter here.
    - The functions below take the log in whatever row order it has; the
      script reads it already ordered by [load_data]. *)

From Stdlib Require Import ZArith QArith Qround List String Ascii Bool Lia Lqa.
From Stdlib Require Import Sorting.Sorted Permutation FinFun.
From Stdlib Require OrderedTypeEx.
Import ListNotations.

Set Implicit Arguments.

(** * Part I: the program *)

(** ** Ordered keys

    [groupby], [sort_values], [sort_index] and [sorted] all order their
    keys; the keys of the script are dates, tickers and pairs of them. *)

Class KeyCmp (K : Type) := kcmp : K -> K -> comparison.

#[export] Instance Z_KeyCmp : KeyCmp Z := Z.compare.
#[export] Instance string_KeyCmp : KeyCmp string := String.compare.

(** Lexicographic order on pairs, as pandas orders a two-column key. *)
Definition pair_cmp {A B} `{KeyCmp A} `{KeyCmp B} (x y : A * B) : comparison :=
  match kcmp (fst x) (fst y) with
  | Eq => kcmp (snd x) (snd y)
  | c => c
  end.

#[export] Instance pair_KeyCmp {A B} `{KeyCmp A} `{KeyCmp B} : KeyCmp (A * B) :=
  pair_cmp.

Definition keqb {K} `{KeyCmp K} (a b : K) : bool :=
  match kcmp a b with Eq => true | _ => false end.

(** The distinct keys of a column in increasing order: the group keys of
    [groupby], and [sorted(unique())]. *)
Fixpoint insert_key {K} `{KeyCmp K} (k : K) (l : list K) : list K :=
  match l with
  | [] => [k]
  | x :: xs =>
      match kcmp k x with
      | Lt => k :: l
      | Eq => l
      | Gt => x :: insert_key k xs
      end
  end.

Definition unique_sorted {K} `{KeyCmp K} (l : list K) : list K :=
  fold_right insert_key [] l.

(** [sort_values] on several columns: a stable sort of the rows of a frame
    on a key. *)
Fixpoint insert_row {R K} `{KeyCmp K} (key : R -> K) (r : R) (l : list R) : list R :=
  match l with
  | [] => [r]
  | x :: xs =>
      match kcmp (key r) (key x) with
      | Gt => x :: insert_row key r xs
      | _ => r :: l
      end
  end.

Definition sort_values {R K} `{KeyCmp K} (key : R -> K) (l : list R) : list R :=
  fold_right (insert_row key) [] l.

(** [sort_values] on one column: numpy's quicksort, which orders the rows
    on the key and gives no promise on the order of rows with equal keys.
    [tie] is the implementation's choice among them: the rows are put in
    the order of [tie] first and then ordered on the key, so that every
    order of the equal rows is the result for some [tie]. *)
Definition sort_values_quicksort {R K} `{KeyCmp K} (tie : R -> Z) (key : R -> K)
    (l : list R) : list R :=
  sort_values key (sort_values tie l).

(** ** Grouping and Series *)

(** [groupby(key)]: the groups in key order, each with its rows in frame
    order. *)
Definition groupby {R K} `{KeyCmp K} (key : R -> K) (rows : list R)
  : list (K * list R) :=
  map (fun k => (k, filter (fun r => keqb (key r) k) rows))
      (unique_sorted (map key rows)).

Definition Qsum (l : list Q) : Q := fold_right Qplus 0 l.

(** [.sum()] of a column that cannot be missing. *)
Definition agg_sum {R} (val : R -> Q) (g : list R) : Q := Qsum (map val g).

(** [.first()] and [.last()]: the first, the last row's value; missing on a
    group without rows. *)
Definition agg_first {R V} (val : R -> V) (g : list R) : option V :=
  option_map val (hd_error g).

Definition agg_last {R V} (val : R -> V) (g : list R) : option V :=
  option_map val (hd_error (rev g)).

(** A Series: index labels with their values, in index order. *)
Definition Series (K V : Type) := list (K * V).

Definition index {K V} (s : Series K V) : list K := map fst s.

(** The value at a label, if the label is in the index. *)
Fixpoint series_get {K V} `{KeyCmp K} (k : K) (s : Series K V) : option V :=
  match s with
  | [] => None
  | (k', v) :: rest => if keqb k' k then Some v else series_get k rest
  end.

(** [reindex(idx, fill_value)]. *)
Definition reindex {K V} `{KeyCmp K} (idx : list K) (fill : V) (s : Series K V)
  : Series K V :=
  map (fun k => (k, match series_get k s with Some v => v | None => fill end)) idx.

(** [.shift()]: every value moves one position down; the first is missing. *)
Fixpoint shift_from {K V} (prev : option V) (s : Series K V) : Series K (option V) :=
  match s with
  | [] => []
  | (k, v) :: rest => (k, prev) :: shift_from (Some v) rest
  end.

Definition shift {K V} (s : Series K V) : Series K (option V) := shift_from None s.

(** A binary operation on two Series that carry the same index. *)
Fixpoint zip_with {K A B C} (f : A -> B -> C) (a : Series K A) (b : Series K B)
  : Series K C :=
  match a, b with
  | (k, x) :: a', (_, y) :: b' => (k, f x y) :: zip_with f a' b'
  | _, _ => []
  end.

Definition map_values {K A B} (f : A -> B) (s : Series K A) : Series K B :=
  map (fun kv => (fst kv, f (snd kv))) s.

(** [.fillna(v)]. *)
Definition fillna {V} (v : V) (c : option V) : V :=
  match c with Some x => x | None => v end.

Definition isna {V} (c : option V) : bool :=
  match c with Some _ => false | None => true end.

(** Arithmetic on cells: a missing operand gives a missing result. *)
Definition cell_sub (a b : option Q) : option Q :=
  match a, b with Some x, Some y => Some (x - y)%Q | _, _ => None end.

Definition cell_add (a b : option Q) : option Q :=
  match a, b with Some x, Some y => Some (x + y)%Q | _, _ => None end.

Definition cell_mul (a b : option Q) : option Q :=
  match a, b with Some x, Some y => Some (x * y)%Q | _, _ => None end.

Definition cell_opp (a : option Q) : option Q := option_map Qopp a.

(** Comparisons on cells give a Boolean, never a missing value: with a
    missing operand [!=] is true and [>] is false. *)
Definition cell_ne (a b : option Q) : option bool :=
  match a, b with
  | Some x, Some y => Some (negb (Qeq_bool x y))
  | _, _ => Some true
  end.

Definition cell_gt (a : option Q) (b : Q) : option bool :=
  match a with
  | Some x => Some (negb (Qle_bool x b))
  | None => Some false
  end.

(** [.sum()] over cells skips the missing ones. *)
Definition sum_skipna (l : list (option Q)) : Q :=
  Qsum (flat_map (fun c => match c with Some x => [x] | None => [] end) l).

(** [.cumsum()]. *)
Fixpoint cumsum_from {K} (acc : Q) (s : Series K Q) : Series K Q :=
  match s with
  | [] => []
  | (k, v) :: rest => (k, (acc + v)%Q) :: cumsum_from (acc + v)%Q rest
  end.

Definition cumsum {K} (s : Series K Q) : Series K Q :=
  match s with
  | [] => []
  | (k, v) :: rest => (k, v) :: cumsum_from v rest
  end.

(** ** Numbers with infinities and NaN

    The values of the window statistics, where the script divides. *)

Inductive fnum :=
| Num (q : Q)
| Inf (negative : bool)
| NaN.

Definition Qneg (q : Q) : bool := negb (Qle_bool 0 q).
Definition Qzero (q : Q) : bool := Qeq_bool q 0.

Definition fadd (a b : fnum) : fnum :=
  match a, b with
  | NaN, _ | _, NaN => NaN
  | Num x, Num y => Num (x + y)
  | Inf s, Num _ | Num _, Inf s => Inf s
  | Inf s, Inf s' => if Bool.eqb s s' then Inf s else NaN
  end.

Definition fopp (a : fnum) : fnum :=
  match a with
  | Num x => Num (- x)
  | Inf s => Inf (negb s)
  | NaN => NaN
  end.

Definition fsub (a b : fnum) : fnum := fadd a (fopp b).

Definition fmul (a b : fnum) : fnum :=
  match a, b with
  | NaN, _ | _, NaN => NaN
  | Num x, Num y => Num (x * y)
  | Inf s, Num y | Num y, Inf s => if Qzero y then NaN else Inf (xorb s (Qneg y))
  | Inf s, Inf s' => Inf (xorb s s')
  end.

(** Division: a nonzero number over zero is an infinity, zero over zero and
    infinity over infinity are NaN. *)
Definition fdiv (a b : fnum) : fnum :=
  match a, b with
  | NaN, _ | _, NaN => NaN
  | Num x, Num y =>
      if Qzero y then (if Qzero x then NaN else Inf (Qneg x)) else Num (x / y)
  | Num _, Inf _ => Num 0
  | Inf s, Num y => Inf (xorb s (Qneg y))
  | Inf _, Inf _ => NaN
  end.

Definition fisnan (a : fnum) : bool :=
  match a with NaN => true | _ => false end.

(** [a < b]; false when either side is NaN. *)
Definition fltb (a b : fnum) : bool :=
  match a, b with
  | NaN, _ | _, NaN => false
  | Num x, Num y => negb (Qle_bool y x)
  | Inf s, Num _ => s
  | Num _, Inf s => negb s
  | Inf s, Inf s' => s && negb s'
  end.

(** [a != b]; true when either side is NaN. *)
Definition fneb (a b : fnum) : bool :=
  match a, b with
  | NaN, _ | _, NaN => true
  | Num x, Num y => negb (Qeq_bool x y)
  | Inf s, Inf s' => negb (Bool.eqb s s')
  | _, _ => true
  end.

Definition fsum (l : list fnum) : fnum := fold_right fadd (Num 0) l.

Definition dropna (l : list fnum) : list fnum := filter (fun x => negb (fisnan x)) l.

(** ** The position log *)

Definition Date := Z.
Bind Scope Z_scope with Date.

Record Position := mkPosition {
  date : Date;
  ticker : string;
  underlying : string;
  type : string;
  quantity : Q;
  price_today : Q;
  delta : Q;
  vega : Q
}.

(** *** Column types

    [read_csv] gives a column the type int64 when every value of it is a
    whole number of the 64-bit range, and float64 otherwise. *)
Definition is_whole (q : Q) : bool := Qeq_bool (inject_Z (Qfloor q)) q.

Definition in_int64 (q : Q) : bool :=
  is_whole q
  && Qle_bool (-9223372036854775808) q
  && negb (Qle_bool 9223372036854775808 q).

Definition int64_column (col : Position -> Q) (pos : list Position) : bool :=
  forallb (fun r => in_int64 (col r)) pos.

(** The value an int64 result wraps around to: the number of the 64-bit
    range that differs from [q] by a multiple of 2^64. *)
Definition wrap_int64 (q : Q) : Q :=
  q - 18446744073709551616
      * inject_Z (Qfloor ((q + 9223372036854775808) / 18446744073709551616)).

(** [a * b], [.sum()] and [a + b] where the operands are int64 ([int64] is
    true) and where one of them is a float.  On integers numpy wraps every
    step of a sum, which leaves the sum wrapped once. *)
Definition col_mul (int64 : bool) (a b : Q) : Q :=
  if int64 then wrap_int64 (a * b) else a * b.

Definition col_sum (int64 : bool) (l : list Q) : Q :=
  if int64 then wrap_int64 (Qsum l) else Qsum l.

Definition scalar_add (int64 : bool) (a b : Q) : Q :=
  if int64 then wrap_int64 (a + b) else a + b.

(** [load_data]: the log ordered by date, then ticker; [mv] is the unsigned
    notional of a row of the log [pos], the product of two columns of the
    file (line 15). *)
Definition mv (pos : list Position) (r : Position) : Q :=
  col_mul (int64_column price_today pos && int64_column quantity pos)
        (price_today r) (quantity r).

Definition load_data (rows : list Position) : list Position :=
  sort_values (fun r => (date r, ticker r)) rows.

(** [.unique()]: the distinct values in order of first appearance. *)
Fixpoint unique (l : list Date) : list Date :=
  match l with
  | [] => []
  | x :: rest => x :: filter (fun y => negb (y =? x)%Z) (unique rest)
  end.

(** Lines 23-25: the dates of the loaded log and the two ends of the
    slider; there is no end on an empty log, where the script fails. *)
Definition all_dates (pos : list Position) : list Date := unique (map date pos).

Definition min_date (pos : list Position) : option Date := hd_error (all_dates pos).

Definition max_date (pos : list Position) : option Date :=
  hd_error (rev (all_dates pos)).

(** ** Signed exposures *)

(** [np.where(type == "short", -1.0, 1.0)]. *)
Definition sign (r : Position) : Q :=
  if String.eqb (type r) "short" then - (1) else 1.

Definition qty_signed (r : Position) : Q := quantity r * sign r.

(** Exposures of [pos_greeks] (lines 126-127). *)
Definition delta_exposure (r : Position) : Q := delta r * qty_signed r.
Definition vega_exposure (r : Position) : Q := vega r * qty_signed r.

(** Signed columns of the change report and of the positions table
    (lines 334-336 and 469-470). *)
Definition delta_signed (r : Position) : Q := delta r * sign r.
Definition vega_signed (r : Position) : Q := vega r * sign r.
Definition mv_signed (r : Position) : Q := price_today r * qty_signed r.

(** ** Daily mark-to-market PnL (lines 58-119) *)

Definition date_ticker (r : Position) : Date * string := (date r, ticker r).

Definition is_long (r : Position) : bool := String.eqb (type r) "long".
Definition is_short (r : Position) : bool := String.eqb (type r) "short".

(** Price per date and ticker: the first of the group. *)
Definition price (pos : list Position) : Series (Date * string) (option Q) :=
  map (fun kg => (fst kg, agg_first price_today (snd kg))) (groupby date_ticker pos).

(** Long and short quantities per date and ticker. *)
Definition long_qty (pos : list Position) : Series (Date * string) Q :=
  map (fun kg => (fst kg, agg_sum quantity (snd kg)))
      (groupby date_ticker (filter is_long pos)).

Definition short_qty (pos : list Position) : Series (Date * string) Q :=
  map (fun kg => (fst kg, agg_sum quantity (snd kg)))
      (groupby date_ticker (filter is_short pos)).

(** A row of [daily_positions] before the shifted columns are added. *)
Record DailyBase := mkDailyBase {
  b_date : Date;
  b_ticker : string;
  b_price_today : Q;
  b_long_qty : Q;
  b_short_qty : Q
}.

(** [pd.concat([price, long_qty, short_qty], axis=1).fillna(0.0)]: the outer
    join of the three Series on their index, a label absent from a Series
    giving a missing cell, and every missing cell then set to 0.  The order
    of the joined index is immaterial, the frame is sorted next. *)
Definition concat_fillna (p : Series (Date * string) (option Q))
    (l s : Series (Date * string) Q) : list DailyBase :=
  map (fun k =>
         mkDailyBase (fst k) (snd k)
           (fillna 0 (match series_get k p with Some c => c | None => None end))
           (fillna 0 (series_get k l))
           (fillna 0 (series_get k s)))
      (unique_sorted (index p ++ index l ++ index s)).

Definition ticker_date (b : DailyBase) : string * Date := (b_ticker b, b_date b).

(** [daily_positions] after [sort_values(["ticker", "date"])] (line 82). *)
Definition daily_base (pos : list Position) : list DailyBase :=
  sort_values ticker_date (concat_fillna (price pos) (long_qty pos) (short_qty pos)).

(** [groupby("ticker")[...].shift(1)]: each row is paired with the closest
    row above it that has the same ticker; [seen] holds the rows above,
    nearest first. *)
Fixpoint shift_by_ticker (seen rows : list DailyBase)
  : list (DailyBase * option DailyBase) :=
  match rows with
  | [] => []
  | r :: rest =>
      (r, find (fun p => keqb (b_ticker p) (b_ticker r)) seen)
        :: shift_by_ticker (r :: seen) rest
  end.

Record DailyRow := mkDailyRow {
  dp_date : Date;
  dp_ticker : string;
  dp_price_today : Q;
  dp_long_qty : Q;
  dp_short_qty : Q;
  prev_long_qty : option Q;
  prev_short_qty : option Q;
  prev_price : option Q;
  dP : option Q;
  long_pnl : option Q;
  short_pnl : option Q;
  total_pnl : option Q
}.

(** [mask_first] (line 99). *)
Definition mask_first (prev_price : option Q) : bool := isna prev_price.

(** Lines 85-103 for one row and the row its shifted columns come from. *)
Definition daily_row (rp : DailyBase * option DailyBase) : DailyRow :=
  let r := fst rp in
  let prev_long_qty := option_map b_long_qty (snd rp) in
  let prev_short_qty := option_map b_short_qty (snd rp) in
  let prev_price := option_map b_price_today (snd rp) in
  let dP := cell_sub (Some (b_price_today r)) prev_price in
  let long_pnl := cell_mul prev_long_qty dP in
  let short_pnl := cell_mul (cell_opp prev_short_qty) dP in
  let long_pnl := if mask_first prev_price then Some 0 else long_pnl in
  let short_pnl := if mask_first prev_price then Some 0 else short_pnl in
  mkDailyRow (b_date r) (b_ticker r) (b_price_today r) (b_long_qty r) (b_short_qty r)
    prev_long_qty prev_short_qty prev_price dP long_pnl short_pnl
    (cell_add long_pnl short_pnl).

Definition daily_positions (pos : list Position) : list DailyRow :=
  map daily_row (shift_by_ticker [] (daily_base pos)).

(** Portfolio level: [groupby("date")[col].sum().sort_index()]. *)
Definition sum_by_date (col : DailyRow -> option Q) (rows : list DailyRow)
  : Series Date Q :=
  map (fun kg => (fst kg, sum_skipna (map col (snd kg)))) (groupby dp_date rows).

Definition daily_long_pnl_all (pos : list Position) : Series Date Q :=
  sum_by_date long_pnl (daily_positions pos).
Definition daily_short_pnl_all (pos : list Position) : Series Date Q :=
  sum_by_date short_pnl (daily_positions pos).
Definition daily_total_pnl_all (pos : list Position) : Series Date Q :=
  sum_by_date total_pnl (daily_positions pos).

(** [daily_total_pnl_all.index[0]]; there is none for an empty log, where
    the script fails. *)
Definition first_date_all (pos : list Position) : option Date :=
  hd_error (index (daily_total_pnl_all pos)).

Definition first_day_all (pos : list Position) (d : Date) : list DailyRow :=
  filter (fun r => keqb (dp_date r) d) (daily_positions pos).

(** The types of the columns of [daily_positions]: [price_today] has the
    type of the column of the file; [long_qty] and [short_qty] are integer
    columns when [quantity] is one and the join (line 77) left no cell of
    theirs missing, that is when every date and ticker of the log has a
    record of that type.  A missing cell makes the column a float column,
    and [fillna(0.0)] then keeps it one. *)
Definition price_int64 (pos : list Position) : bool :=
  int64_column price_today pos.

Definition joined_int64 (pos : list Position) (qty : Series (Date * string) Q) : bool :=
  int64_column quantity pos
  && forallb (fun k => match series_get k qty with Some _ => true | None => false end)
             (index (price pos)).

Definition long_qty_int64 (pos : list Position) : bool := joined_int64 pos (long_qty pos).
Definition short_qty_int64 (pos : list Position) : bool := joined_int64 pos (short_qty pos).

(** Lines 114-116. *)
Definition long_initial_cap_all (pos : list Position) (d : Date) : Q :=
  let int64 := long_qty_int64 pos && price_int64 pos in
  col_sum int64 (map (fun r => col_mul int64 (dp_long_qty r) (dp_price_today r))
                   (first_day_all pos d)).
Definition short_initial_cap_all (pos : list Position) (d : Date) : Q :=
  let int64 := short_qty_int64 pos && price_int64 pos in
  col_sum int64 (map (fun r => col_mul int64 (dp_short_qty r) (dp_price_today r))
                   (first_day_all pos d)).

Definition capital_base_all (pos : list Position) : option Q :=
  match first_date_all pos with
  | Some d =>
      Some (scalar_add (long_qty_int64 pos && short_qty_int64 pos && price_int64 pos)
                 (long_initial_cap_all pos d) (short_initial_cap_all pos d))
  | None => None
  end.

(** The equity curve over the whole log (line 119). *)
Definition equity_all (pos : list Position) : option (Series Date Q) :=
  match capital_base_all pos with
  | Some cb => Some (map_values (fun c => cb + c) (cumsum (daily_total_pnl_all pos)))
  | None => None
  end.

(** ** Net exposures and hedge flags (lines 121-154) *)

Record NetGreeks := mkNetGreeks {
  net_delta : Q;
  net_vega : Q
}.

Definition net_greeks (pos : list Position) : Series Date NetGreeks :=
  map (fun kg => (fst kg, mkNetGreeks (agg_sum delta_exposure (snd kg))
                                      (agg_sum vega_exposure (snd kg))))
      (groupby date pos).

Definition HEDGE_TICKER : string := "SPY_HEDGE_STOCK".
Definition HEDGE_UNDERLYING : string := "SPY".

(** Signed quantity of the hedge stock per date. *)
Definition spy_hedge (pos : list Position) : Series Date Q :=
  map (fun kg => (fst kg, agg_sum qty_signed (snd kg)))
      (groupby date (filter (fun r => String.eqb (ticker r) HEDGE_TICKER) pos)).

(** [spy_hedge.ne(spy_hedge.shift()).fillna(False)] (line 141). *)
Definition delta_hedge_flags (pos : list Position) : Series Date bool :=
  map_values (fillna false)
    (zip_with (fun x p => cell_ne (Some x) p) (spy_hedge pos) (shift (spy_hedge pos))).

Definition spy_opts (pos : list Position) : list Position :=
  filter (fun r => String.eqb (underlying r) HEDGE_UNDERLYING
                   && negb (String.eqb (ticker r) HEDGE_TICKER)) pos.

Definition total_spy_qty (pos : list Position) : Series Date Q :=
  map (fun kg => (fst kg, agg_sum qty_signed (snd kg))) (groupby date (spy_opts pos)).

(** [.diff()]: each value minus the one before it. *)
Definition diff {K} (s : Series K Q) : Series K (option Q) :=
  zip_with (fun x p => cell_sub (Some x) p) s (shift s).

Definition spy_qty_diff (pos : list Position) : Series Date (option Q) :=
  diff (total_spy_qty pos).

(** The literal [1e-8], taken as the rational it denotes. *)
Definition VEGA_TOLERANCE : Q := 1 # 100000000.

(** Lines 145-150. *)
Definition vega_hedge_flags (pos : list Position) : Series Date bool :=
  match spy_opts pos with
  | _ :: _ =>
      map_values (fun c => fillna false (cell_gt c VEGA_TOLERANCE)) (spy_qty_diff pos)
  | [] => map (fun d => (d, false)) (index (net_greeks pos))
  end.

Record NetGreeksRow := mkNetGreeksRow {
  ng_net_delta : Q;
  ng_net_vega : Q;
  delta_hedge : bool;
  vega_hedge : bool
}.

(** [net_greeks_df]: the flags reindexed on the dates of [net_greeks], with
    false where a flag Series has no such date. *)
Definition net_greeks_df (pos : list Position) : Series Date NetGreeksRow :=
  let dh := reindex (index (net_greeks pos)) false (delta_hedge_flags pos) in
  let vh := reindex (index (net_greeks pos)) false (vega_hedge_flags pos) in
  map (fun dg =>
         (fst dg,
          mkNetGreeksRow (net_delta (snd dg)) (net_vega (snd dg))
            (fillna false (series_get (fst dg) dh))
            (fillna false (series_get (fst dg) vh))))
      (net_greeks pos).

(** ** Window statistics (lines 156-204) *)

(** [mask_window]: the dates of the closed range picked on the slider. *)
Definition mask_window (date_range : Date * Date) (d : Date) : bool :=
  (fst date_range <=? d)%Z && (d <=? snd date_range)%Z.

Definition loc {V} (date_range : Date * Date) (s : Series Date V) : Series Date V :=
  filter (fun dv => mask_window date_range (fst dv)) s.

Definition equity_window (pos : list Position) (date_range : Date * Date)
  : option (Series Date Q) :=
  option_map (loc date_range) (equity_all pos).

Definition daily_total_pnl (pos : list Position) (date_range : Date * Date) : Series Date Q :=
  loc date_range (daily_total_pnl_all pos).
Definition daily_long_pnl (pos : list Position) (date_range : Date * Date) : Series Date Q :=
  loc date_range (daily_long_pnl_all pos).
Definition daily_short_pnl (pos : list Position) (date_range : Date * Date) : Series Date Q :=
  loc date_range (daily_short_pnl_all pos).

Definition net_greeks_window (pos : list Position) (date_range : Date * Date)
  : Series Date NetGreeksRow :=
  loc date_range (net_greeks_df pos).

(** [equity_window / equity_window.iloc[0]] on the values of the window; the
    script stops before this line when the window is empty. *)
Definition equity_rebased (w : list Q) : list fnum :=
  match w with
  | [] => []
  | e0 :: _ => map (fun e => fdiv (Num e) (Num e0)) w
  end.

(** [.cummax()]: the running maximum; a NaN entry stays NaN and does not
    enter the maximum. *)
Definition fmax_skipna (m x : fnum) : fnum :=
  if fisnan m then x else if fltb m x then x else m.

Fixpoint cummax_from (m : fnum) (l : list fnum) : list fnum :=
  match l with
  | [] => []
  | x :: rest =>
      if fisnan x then NaN :: cummax_from m rest
      else fmax_skipna m x :: cummax_from (fmax_skipna m x) rest
  end.

Definition cummax (l : list fnum) : list fnum := cummax_from NaN l.

(** [.min()]: the least entry that is not NaN, NaN if there is none. *)
Definition fmin_skipna (m x : fnum) : fnum :=
  if fisnan x then m else if fisnan m then x else if fltb x m then x else m.

Definition fmin (l : list fnum) : fnum := fold_left fmin_skipna l NaN.

Definition rolling_max (w : list Q) : list fnum := cummax (equity_rebased w).

(** [dd = equity_rebased / rolling_max - 1.0]. *)
Definition dd (w : list Q) : list fnum :=
  map (fun rm => fsub (fdiv (fst rm) (snd rm)) (Num 1))
      (combine (equity_rebased w) (rolling_max w)).

(** [max_dd = dd.min() if not dd.empty else np.nan]. *)
Definition max_dd (w : list Q) : fnum :=
  match dd w with
  | [] => NaN
  | _ :: _ => fmin (dd w)
  end.

(** [total_return_pct] (line 187); the window is not empty there. *)
Definition total_return_pct (w : list Q) : fnum :=
  fmul (fsub (last (equity_rebased w) NaN) (Num 1)) (Num 100).

(** [.pct_change()]: missing entries are first filled forward, then each
    entry is divided by the one before it, minus one. *)
Fixpoint ffill_from (seen : fnum) (l : list fnum) : list fnum :=
  match l with
  | [] => []
  | x :: rest =>
      if fisnan x then seen :: ffill_from seen rest else x :: ffill_from x rest
  end.

Fixpoint pct_change_from (prev : fnum) (l : list fnum) : list fnum :=
  match l with
  | [] => []
  | x :: rest => fsub (fdiv x prev) (Num 1) :: pct_change_from x rest
  end.

Definition pct_change (l : list fnum) : list fnum :=
  pct_change_from NaN (ffill_from NaN l).

(** [daily_ret = equity_rebased.pct_change().dropna()]. *)
Definition daily_ret (w : list Q) : list fnum := dropna (pct_change (equity_rebased w)).

Definition flen (l : list fnum) : fnum := Num (inject_Z (Z.of_nat (List.length l))).

(** [.mean()]: the sum over the count of the entries that are not NaN. *)
Definition mean (l : list fnum) : fnum := fdiv (fsum (dropna l)) (flen (dropna l)).

(** The sample variance behind [.std()] (one degree of freedom removed):
    NaN with fewer than two entries. *)
Definition var (l : list fnum) : fnum :=
  let v := dropna l in
  if (List.length v <=? 1)%nat then NaN
  else fdiv (fsum (map (fun x => fmul (fsub x (mean l)) (fsub x (mean l))) v))
            (fsub (flen v) (Num 1)).

Section Sharpe.
(** The square root on the non-negative rationals, which the script takes
    from numpy. *)
Variable sqrtQ : Q -> Q.

Definition fsqrt (a : fnum) : fnum :=
  match a with
  | Num x => if Qneg x then NaN else Num (sqrtQ x)
  | Inf false => Inf false
  | Inf true => NaN
  | NaN => NaN
  end.

Definition std (l : list fnum) : fnum := fsqrt (var l).

(** Lines 181-184. *)
Definition sharpe_3m (daily_ret : list fnum) : fnum :=
  if (1 <? List.length daily_ret)%nat && fneb (std daily_ret) (Num 0)
  then fmul (fdiv (mean daily_ret) (std daily_ret)) (fsqrt (Num 252))
  else NaN.
End Sharpe.

(** What a metric tile shows: ["N/A"] for NaN, the formatted value
    otherwise (lines 212-219). *)
Inductive shown :=
| NA
| Value (v : fnum).

Definition metric_text (v : fnum) : shown := if fisnan v then NA else Value v.

(** Lines 194-204: the equity the window starts from, the running PnL of
    the window in total and by leg, and the same as a percentage of that
    starting equity. *)
Definition equity0_window (pos : list Position) (date_range : Date * Date)
  : option Q :=
  match equity_window pos date_range with
  | Some ((_, e0) :: _) => Some e0
  | _ => None
  end.

Definition cum_total_pnl (pos : list Position) (date_range : Date * Date) : Series Date Q :=
  cumsum (daily_total_pnl pos date_range).
Definition cum_long_pnl (pos : list Position) (date_range : Date * Date) : Series Date Q :=
  cumsum (daily_long_pnl pos date_range).
Definition cum_short_pnl (pos : list Position) (date_range : Date * Date) : Series Date Q :=
  cumsum (daily_short_pnl pos date_range).

Definition pct_of (e0 : Q) (s : Series Date Q) : Series Date fnum :=
  map_values (fun c => fmul (fdiv (Num c) (Num e0)) (Num 100)) s.

Definition cum_total_pnl_pct_leg (pos : list Position) (date_range : Date * Date)
  : option (Series Date fnum) :=
  option_map (fun e0 => pct_of e0 (cum_total_pnl pos date_range))
             (equity0_window pos date_range).
Definition cum_long_pnl_pct_leg (pos : list Position) (date_range : Date * Date)
  : option (Series Date fnum) :=
  option_map (fun e0 => pct_of e0 (cum_long_pnl pos date_range))
             (equity0_window pos date_range).
Definition cum_short_pnl_pct_leg (pos : list Position) (date_range : Date * Date)
  : option (Series Date fnum) :=
  option_map (fun e0 => pct_of e0 (cum_short_pnl pos date_range))
             (equity0_window pos date_range).

(** ** Daily change report (lines 316-386) *)

(** [sorted(pos["date"].dt.date.unique())]. *)
Definition pos_dates (pos : list Position) : list Date := unique_sorted (map date pos).

(** [list.index]; [None] when the value is not in the list. *)
Fixpoint list_index (d : Date) (l : list Date) : option nat :=
  match l with
  | [] => None
  | x :: rest => if (x =? d)%Z then Some O else option_map S (list_index d rest)
  end.

(** Lines 321-325: the date before [inspect_date] in [pos_dates]; [None] on
    the branch that reports that no changes can be computed. *)
Definition prev_date (pos : list Position) (inspect_date : Date) : option Date :=
  match list_index inspect_date (pos_dates pos) with
  | None => None
  | Some O => None
  | Some (S i) => nth_error (pos_dates pos) i
  end.

Definition on_date (pos : list Position) (d : Date) : list Position :=
  filter (fun r => (date r =? d)%Z) pos.

Record TodayAgg := mkTodayAgg {
  a_underlying_tdy : option string;
  a_qty_tdy : Q;
  a_price_today_tdy : option Q;
  a_delta_tdy : Q;
  a_vega_tdy : Q;
  a_value_today : Q
}.

Record PrevAgg := mkPrevAgg {
  a_qty_prv : Q;
  a_price_today_prv : option Q;
  a_delta_prv : Q;
  a_vega_prv : Q;
  a_value_prev : Q
}.

Definition today_agg (today : list Position) : Series string TodayAgg :=
  map (fun kg =>
         (fst kg,
          mkTodayAgg (agg_last underlying (snd kg)) (agg_sum qty_signed (snd kg))
            (agg_last price_today (snd kg)) (agg_sum delta_signed (snd kg))
            (agg_sum vega_signed (snd kg)) (agg_sum mv_signed (snd kg))))
      (groupby ticker today).

Definition prev_agg (prev : list Position) : Series string PrevAgg :=
  map (fun kg =>
         (fst kg,
          mkPrevAgg (agg_sum qty_signed (snd kg)) (agg_last price_today (snd kg))
            (agg_sum delta_signed (snd kg)) (agg_sum vega_signed (snd kg))
            (agg_sum mv_signed (snd kg))))
      (groupby ticker prev).

(** [classify_net_type]. *)
Definition classify_net_type (q : Q) : string :=
  if negb (Qle_bool q 0) then "net_long"
  else if negb (Qle_bool 0 q) then "net_short"
  else "flat".

Record MergedRow := mkMergedRow {
  Ticker : string;
  underlying_tdy : option string;
  qty_tdy : Q;
  price_today_tdy : option Q;
  delta_tdy : Q;
  vega_tdy : Q;
  value_today : Q;
  qty_prv : Q;
  price_today_prv : option Q;
  delta_prv : Q;
  vega_prv : Q;
  value_prev : Q;
  price_change : option Q;
  quantity_change : Q;
  delta_change : Q;
  vega_change : Q;
  value_change : option Q;
  net_type_tdy : string
}.

(** Lines 356-381 for one ticker of today: [p] is the row of [prev_agg] the
    left join finds for it, if any. *)
Definition merged_row (t : string) (a : TodayAgg) (p : option PrevAgg) : MergedRow :=
  let qty_prv := fillna 0 (option_map a_qty_prv p) in
  let price_today_prv :=
    match (match p with Some x => a_price_today_prv x | None => None end) with
    | Some x => Some x
    | None => a_price_today_tdy a
    end in
  let delta_prv := fillna 0 (option_map a_delta_prv p) in
  let vega_prv := fillna 0 (option_map a_vega_prv p) in
  let value_prev := fillna 0 (option_map a_value_prev p) in
  let price_change := cell_sub (a_price_today_tdy a) price_today_prv in
  mkMergedRow t (a_underlying_tdy a) (a_qty_tdy a) (a_price_today_tdy a)
    (a_delta_tdy a) (a_vega_tdy a) (a_value_today a)
    qty_prv price_today_prv delta_prv vega_prv value_prev
    price_change
    (a_qty_tdy a - qty_prv) (a_delta_tdy a - delta_prv) (a_vega_tdy a - vega_prv)
    (cell_mul (Some qty_prv) price_change)
    (classify_net_type (a_qty_tdy a)).

(** [merged = today_agg.join(prev_agg, how="left")] with the columns derived
    from it. *)
Definition merged (pos : list Position) (inspect_date prev_date : Date) : list MergedRow :=
  let prev := prev_agg (on_date pos prev_date) in
  map (fun ta => merged_row (fst ta) (snd ta) (series_get (fst ta) prev))
      (today_agg (on_date pos inspect_date)).

(** Descending order on [value_change], missing values last. *)
Definition value_change_desc : KeyCmp (option Q) :=
  fun a b =>
    match a, b with
    | Some x, Some y => Qcompare y x
    | Some _, None => Lt
    | None, Some _ => Gt
    | None, None => Eq
    end.

(** [merged.sort_values("value_change", ascending=False)] (line 386); [tie]
    is the order the sort leaves rows of equal [value_change] in. *)
Definition merged_sorted (tie : MergedRow -> Z) (pos : list Position)
    (inspect_date prev_date : Date) : list MergedRow :=
  @sort_values_quicksort _ _ value_change_desc tie value_change
    (merged pos inspect_date prev_date).

(** ** Positions table (lines 457-490) *)

Record DisplayRow := mkDisplayRow {
  d_ticker : string;
  d_underlying : string;
  d_type : string;
  d_quantity : Q;
  d_price_today : Q;
  d_delta : Q;
  d_vega : Q;
  d_mv : Q
}.

(** The rows of the table, [sort_values("underlying")] (line 487); [tie] is
    the order the sort leaves rows of one underlying in. *)
Definition pos_today (tie : DisplayRow -> Z) (pos : list Position)
    (inspect_date : Date) : list DisplayRow :=
  sort_values_quicksort tie d_underlying
    (map (fun r => mkDisplayRow (ticker r) (underlying r) (type r) (quantity r)
                     (price_today r) (delta_signed r) (vega_signed r) (mv pos r))
         (on_date pos inspect_date)).

(** ** The page

    What one run of the script puts on the page, in order.  The line
    charts of daily and cumulative PnL and the tile that prints the period
    only show Series and dates defined above and are left out. *)

Inductive element :=
| st_error (msg : string)
| st_info (msg : string)
| st_metric (label : string) (value : shown)
| st_changes (rows : list MergedRow)
| st_positions (rows : list DisplayRow)
| st_exposures (rows : Series Date NetGreeksRow).

(** [min(available_dates, key=...)]: the first date closest to the click. *)
Fixpoint nearest_date (clicked best : Date) (l : list Date) : Date :=
  match l with
  | [] => best
  | d :: rest =>
      if (Z.abs (d - clicked) <? Z.abs (best - clicked))%Z
      then nearest_date clicked d rest
      else nearest_date clicked best rest
  end.

(** Lines 298-307: the last date of the window, or the date of the window
    nearest to the clicked one; [d0] is the first date of the window. *)
Definition inspect_date (d0 : Date) (rest : list Date) (clicked : option Date) : Date :=
  match clicked with
  | None => last rest d0
  | Some c => nearest_date c d0 rest
  end.

(** Lines 320-453. *)
Definition daily_changes (tie : MergedRow -> Z) (pos : list Position)
    (inspect : Date) : element :=
  match prev_date pos inspect with
  | None => st_info "Cannot compute daily changes for this date (no previous day)."
  | Some p => st_changes (merged_sorted tie pos inspect p)
  end.

(** Lines 461-490. *)
Definition positions_table (tie : DisplayRow -> Z) (pos : list Position)
    (inspect : Date) : element :=
  match pos_today tie pos inspect with
  | [] => st_info "No positions to show for this date."
  | rows => st_positions rows
  end.

Section Page.
Variable sqrtQ : Q -> Q.
Variable tie_changes : MergedRow -> Z.
Variable tie_positions : DisplayRow -> Z.

(** One run on a log, a date range and an optional click; [None] when the
    script raises on an empty log.  [st.stop()] ends the page after the
    error of an empty window.  [tie_changes] and [tie_positions] are the
    orders the two single-column sorts leave equal rows in. *)
Definition page (pos : list Position) (date_range : Date * Date)
    (clicked : option Date) : option (list element) :=
  match equity_window pos date_range with
  | None => None
  | Some [] =>
      Some [st_error "No equity data in selected date range (check positions_log)."]
  | Some ((d0, e0) :: rest) =>
      let w := e0 :: map snd rest in
      let inspect := inspect_date d0 (index rest) clicked in
      Some ([ st_metric "Total Return (MTM)" (Value (total_return_pct w));
              st_metric "Sharpe (3-month normalized)"
                        (metric_text (sharpe_3m sqrtQ (daily_ret w)));
              st_metric "Max Drawdown (MTM)"
                        (if fisnan (max_dd w) then NA
                         else Value (fmul (max_dd w) (Num 100)));
              daily_changes tie_changes pos inspect;
              positions_table tie_positions pos inspect ]
            ++ match net_greeks_window pos date_range with
               | [] => []
               | rows => [st_exposures rows]
               end)
  end.
End Page.

(** * Part II: properties *)

Unset Implicit Arguments.

(** ** Laws of the key orders *)

Class KeyOrder (K : Type) {cmp : KeyCmp K} := {
  kcmp_eq : forall a b : K, kcmp a b = Eq -> a = b;
  kcmp_refl : forall a : K, kcmp a a = Eq;
  kcmp_antisym : forall a b : K, kcmp a b = CompOpp (kcmp b a);
  kcmp_lt_trans : forall a b c : K, kcmp a b = Lt -> kcmp b c = Lt -> kcmp a c = Lt
}.
Arguments KeyOrder K {cmp}.

Definition klt {K} `{KeyCmp K} (a b : K) : Prop := kcmp a b = Lt.
Definition kle {K} `{KeyCmp K} (a b : K) : Prop := kcmp a b <> Gt.

Lemma Z_cmp_lt_trans (a b c : Z) :
  Z.compare a b = Lt -> Z.compare b c = Lt -> Z.compare a c = Lt.
Proof. rewrite !Z.compare_lt_iff. lia. Qed.

#[export] Instance Z_KeyOrder : KeyOrder Z :=
  {| kcmp_eq := Z.compare_eq;
     kcmp_refl := Z.compare_refl;
     kcmp_antisym := fun a b => Z.compare_antisym b a;
     kcmp_lt_trans := Z_cmp_lt_trans |}.

Lemma string_compare_refl (s : string) : String.compare s s = Eq.
Proof.
  induction s as [|c s IH]; simpl; [reflexivity|].
  replace (Ascii.compare c c) with Eq; [exact IH|].
  symmetry. unfold Ascii.compare. apply N.compare_refl.
Qed.

Lemma string_compare_lt_trans (a b c : string) :
  String.compare a b = Lt -> String.compare b c = Lt -> String.compare a c = Lt.
Proof.
  intros Hab Hbc.
  apply OrderedTypeEx.String_as_OT.cmp_lt.
  apply OrderedTypeEx.String_as_OT.lt_trans with b;
    now apply OrderedTypeEx.String_as_OT.cmp_lt.
Qed.

#[export] Instance string_KeyOrder : KeyOrder string :=
  {| kcmp_eq := String.compare_eq_iff;
     kcmp_refl := string_compare_refl;
     kcmp_antisym := String.compare_antisym;
     kcmp_lt_trans := string_compare_lt_trans |}.

Lemma kcmp_gt_lt {K} `{KeyOrder K} (a b : K) : kcmp a b = Gt <-> kcmp b a = Lt.
Proof.
  rewrite (kcmp_antisym a b). destruct (kcmp b a); simpl; split; congruence.
Qed.

Section PairOrder.
Context {A B : Type} `{KeyOrder A} `{KeyOrder B}.

Lemma pair_cmp_eq (x y : A * B) : pair_cmp x y = Eq -> x = y.
Proof.
  destruct x as [a b], y as [a' b']. unfold pair_cmp; simpl.
  destruct (kcmp a a') eqn:E; try discriminate.
  intros E'. apply kcmp_eq in E. apply kcmp_eq in E'. congruence.
Qed.

Lemma pair_cmp_refl (x : A * B) : pair_cmp x x = Eq.
Proof. unfold pair_cmp. now rewrite !kcmp_refl. Qed.

Lemma pair_cmp_antisym (x y : A * B) : pair_cmp x y = CompOpp (pair_cmp y x).
Proof.
  unfold pair_cmp.
  rewrite (kcmp_antisym (fst x) (fst y)).
  destruct (kcmp (fst y) (fst x)); simpl; try reflexivity.
  apply kcmp_antisym.
Qed.

Lemma pair_cmp_lt_trans (x y z : A * B) :
  pair_cmp x y = Lt -> pair_cmp y z = Lt -> pair_cmp x z = Lt.
Proof.
  destruct x as [a b], y as [a' b'], z as [a'' b'']. unfold pair_cmp; simpl.
  destruct (kcmp a a') eqn:E1; try discriminate;
  destruct (kcmp a' a'') eqn:E2; try discriminate; intros H1' H2'.
  - apply kcmp_eq in E1, E2. subst. rewrite kcmp_refl.
    eapply kcmp_lt_trans; eassumption.
  - apply kcmp_eq in E1. subst. now rewrite E2.
  - apply kcmp_eq in E2. subst. now rewrite E1.
  - now rewrite (kcmp_lt_trans _ _ _ E1 E2).
Qed.

#[export] Instance pair_KeyOrder : KeyOrder (A * B) :=
  {| kcmp_eq := pair_cmp_eq;
     kcmp_refl := pair_cmp_refl;
     kcmp_antisym := pair_cmp_antisym;
     kcmp_lt_trans := pair_cmp_lt_trans |}.
End PairOrder.

Section SortedKeys.
Context {K : Type} `{KeyOrder K}.

Lemma keqb_eq (a b : K) : keqb a b = true <-> a = b.
Proof.
  unfold keqb. split.
  - destruct (kcmp a b) eqn:E; try discriminate. intros _. now apply kcmp_eq.
  - intros ->. now rewrite kcmp_refl.
Qed.

Lemma keqb_refl (a : K) : keqb a a = true.
Proof. now apply keqb_eq. Qed.

Lemma keqb_neq (a b : K) : keqb a b = false <-> a <> b.
Proof.
  rewrite <- keqb_eq. destruct (keqb a b); split; congruence.
Qed.

Lemma klt_irrefl (a : K) : ~ klt a a.
Proof. unfold klt. rewrite kcmp_refl. discriminate. Qed.

Lemma klt_trans (a b c : K) : klt a b -> klt b c -> klt a c.
Proof. apply kcmp_lt_trans. Qed.

Lemma klt_asym (a b : K) : klt a b -> ~ klt b a.
Proof. intros H1 H2. exact (klt_irrefl a (klt_trans a b a H1 H2)). Qed.

Lemma kle_cases (a b : K) : kle a b <-> klt a b \/ a = b.
Proof.
  unfold kle, klt. split.
  - destruct (kcmp a b) eqn:E; intros Hn.
    + right. now apply kcmp_eq.
    + now left.
    + congruence.
  - intros [-> | ->]; [discriminate|]. rewrite kcmp_refl. discriminate.
Qed.

Lemma kle_trans (a b c : K) : kle a b -> kle b c -> kle a c.
Proof.
  rewrite !kle_cases. intros [Hab | ->] [Hbc | ->]; auto.
  left. eapply klt_trans; eassumption.
Qed.

Lemma In_insert_key (k y : K) (l : list K) :
  In y (insert_key k l) <-> y = k \/ In y l.
Proof.
  induction l as [|x xs IH]; simpl.
  - intuition.
  - destruct (kcmp k x) eqn:E; simpl.
    + apply kcmp_eq in E. subst. intuition.
    + intuition.
    + rewrite IH. intuition.
Qed.

Lemma In_unique_sorted (y : K) (l : list K) :
  In y (unique_sorted l) <-> In y l.
Proof.
  induction l as [|x xs IH]; simpl; [tauto|].
  rewrite In_insert_key, IH. intuition.
Qed.

Lemma insert_key_sorted (k : K) (l : list K) :
  StronglySorted klt l -> StronglySorted klt (insert_key k l).
Proof.
  induction 1 as [|x xs Hs IH Hall]; simpl.
  - constructor; constructor.
  - destruct (kcmp k x) eqn:E.
    + now constructor.
    + constructor; [now constructor|].
      constructor; [exact E|].
      rewrite Forall_forall in *. intros y Hy.
      eapply klt_trans; [exact E|]. now apply Hall.
    + constructor; [exact IH|].
      rewrite Forall_forall in *. intros y Hy.
      apply In_insert_key in Hy. destruct Hy as [-> | Hy].
      * now apply kcmp_gt_lt.
      * now apply Hall.
Qed.

Lemma unique_sorted_sorted (l : list K) : StronglySorted klt (unique_sorted l).
Proof.
  induction l; simpl; [constructor|]. now apply insert_key_sorted.
Qed.

Lemma sorted_NoDup (l : list K) : StronglySorted klt l -> NoDup l.
Proof.
  induction 1 as [|x xs Hs IH Hall]; constructor; [|exact IH].
  intros Hin. rewrite Forall_forall in Hall.
  exact (klt_irrefl x (Hall _ Hin)).
Qed.

Lemma unique_sorted_NoDup (l : list K) : NoDup (unique_sorted l).
Proof. apply sorted_NoDup, unique_sorted_sorted. Qed.

Lemma unique_sorted_nil (l : list K) : unique_sorted l = [] -> l = [].
Proof.
  destruct l as [|x xs]; [reflexivity|]. intros E.
  assert (Hin : In x (unique_sorted (x :: xs))) by (apply In_unique_sorted; now left).
  rewrite E in Hin. destruct Hin.
Qed.
End SortedKeys.

Section SortValues.
Context {R K : Type} `{KeyOrder K} (key : R -> K).

Lemma insert_row_perm (r : R) (l : list R) : Permutation (r :: l) (insert_row key r l).
Proof.
  induction l as [|x xs IH]; simpl; [reflexivity|].
  destruct (kcmp (key r) (key x)); try reflexivity.
  rewrite perm_swap. now constructor.
Qed.

Lemma sort_values_perm (l : list R) : Permutation l (sort_values key l).
Proof.
  induction l as [|x xs IH]; simpl; [constructor|].
  rewrite <- insert_row_perm. now constructor.
Qed.

Lemma In_sort_values (r : R) (l : list R) : In r (sort_values key l) <-> In r l.
Proof.
  split; apply Permutation_in; [symmetry|]; apply sort_values_perm.
Qed.

Definition row_le (a b : R) : Prop := kle (key a) (key b).

Lemma insert_row_sorted (r : R) (l : list R) :
  StronglySorted row_le l -> StronglySorted row_le (insert_row key r l).
Proof.
  induction 1 as [|x xs Hs IH Hall]; simpl.
  - constructor; constructor.
  - destruct (kcmp (key r) (key x)) eqn:E.
    + constructor; [now constructor|].
      assert (Hrx : row_le r x) by (unfold row_le, kle; congruence).
      constructor; [exact Hrx|].
      rewrite Forall_forall in *. intros y Hy.
      apply kle_trans with (key x); [exact Hrx|]. now apply Hall.
    + constructor; [now constructor|].
      assert (Hrx : row_le r x) by (unfold row_le, kle; congruence).
      constructor; [exact Hrx|].
      rewrite Forall_forall in *. intros y Hy.
      apply kle_trans with (key x); [exact Hrx|]. now apply Hall.
    + constructor; [exact IH|].
      rewrite Forall_forall in *. intros y Hy.
      apply (Permutation_in y (Permutation_sym (insert_row_perm r xs))) in Hy.
      destruct Hy as [<- | Hy].
      * apply kle_cases. left. now apply kcmp_gt_lt.
      * now apply Hall.
Qed.

Lemma sort_values_sorted (l : list R) : StronglySorted row_le (sort_values key l).
Proof.
  induction l; simpl; [constructor|]. now apply insert_row_sorted.
Qed.
End SortValues.

(** The single-column sort keeps the rows, whatever order it leaves equal
    rows in. *)
Lemma sort_values_quicksort_perm {R K : Type} (cmp : KeyCmp K) (tie : R -> Z)
    (key : R -> K) (l : list R) :
  Permutation l (@sort_values_quicksort R K cmp tie key l).
Proof.
  unfold sort_values_quicksort.
  transitivity (sort_values tie l);
    [apply (@sort_values_perm R Z Z_KeyCmp tie)|apply (@sort_values_perm R K cmp key)].
Qed.

Lemma In_sort_values_quicksort {R K : Type} (cmp : KeyCmp K) (tie : R -> Z)
    (key : R -> K) (r : R) (l : list R) :
  In r (@sort_values_quicksort R K cmp tie key l) <-> In r l.
Proof.
  split; apply Permutation_in; [symmetry|]; apply sort_values_quicksort_perm.
Qed.

(** ** Grouping and lookup *)

Lemma filter_map_comm {A B} (f : A -> B) (p : B -> bool) (l : list A) :
  filter p (map f l) = map f (filter (fun x => p (f x)) l).
Proof.
  induction l as [|x xs IH]; simpl; [reflexivity|].
  destruct (p (f x)); simpl; now rewrite IH.
Qed.

Lemma agg_sum_ext {R} (f g : R -> Q) (l : list R) :
  (forall r, In r l -> f r = g r) -> agg_sum f l = agg_sum g l.
Proof.
  intros E. unfold agg_sum. f_equal. now apply map_ext_in.
Qed.

Lemma agg_sum_map {A R} (f : A -> R) (v : R -> Q) (l : list A) :
  agg_sum v (map f l) = agg_sum (fun x => v (f x)) l.
Proof. unfold agg_sum. now rewrite map_map. Qed.

Lemma agg_last_map {A R V} (f : A -> R) (v : R -> V) (l : list A) :
  agg_last v (map f l) = agg_last (fun x => v (f x)) l.
Proof.
  unfold agg_last. rewrite <- map_rev.
  destruct (rev l); reflexivity.
Qed.

Lemma agg_last_ext {R V} (f g : R -> V) (l : list R) :
  (forall r, f r = g r) -> agg_last f l = agg_last g l.
Proof.
  intros E. unfold agg_last. destruct (rev l); simpl; [reflexivity|]. now rewrite E.
Qed.

Section Groups.
Context {R K : Type} `{KeyOrder K} (key : R -> K).

Lemma groupby_index (rows : list R) :
  index (groupby key rows) = unique_sorted (map key rows).
Proof.
  unfold index, groupby. rewrite map_map. simpl. apply map_id.
Qed.

Lemma In_groupby (k : K) (g : list R) (rows : list R) :
  In (k, g) (groupby key rows) <->
  In k (map key rows) /\ g = filter (fun r => keqb (key r) k) rows.
Proof.
  unfold groupby. rewrite in_map_iff. split.
  - intros (k' & E & Hin). inversion E; subst.
    split; [now apply In_unique_sorted|reflexivity].
  - intros (Hin & ->). exists k. split; [reflexivity|now apply In_unique_sorted].
Qed.

Lemma groupby_group_rows (k : K) (g : list R) (rows : list R) (r : R) :
  In (k, g) (groupby key rows) -> (In r g <-> In r rows /\ key r = k).
Proof.
  intros Hin. apply In_groupby in Hin. destruct Hin as (_ & ->).
  rewrite filter_In, keqb_eq. tauto.
Qed.

Lemma groupby_group_nonempty (k : K) (g : list R) (rows : list R) :
  In (k, g) (groupby key rows) -> g <> [].
Proof.
  intros Hin. pose proof (fun r => groupby_group_rows k g rows r Hin) as Hg.
  apply In_groupby in Hin. destruct Hin as (Hk & _).
  apply in_map_iff in Hk. destruct Hk as (r & Hr & Hin).
  intros ->. destruct (proj2 (Hg r) (conj Hin Hr)).
Qed.

Lemma groupby_relabel (f : R -> R) (rows : list R) :
  (forall r, key (f r) = key r) ->
  groupby key (map f rows) =
  map (fun kg => (fst kg, map f (snd kg))) (groupby key rows).
Proof.
  intros Hk. unfold groupby.
  assert (E : map key (map f rows) = map key rows)
    by (rewrite map_map; apply map_ext; intros; now rewrite Hk).
  rewrite E, (map_map _ (fun kg => (fst kg, map f (snd kg)))).
  apply map_ext. intros k. simpl. f_equal.
  rewrite filter_map_comm. f_equal. apply filter_ext. intros r. now rewrite Hk.
Qed.
End Groups.

Section Lookup.
Context {K V : Type} `{KeyOrder K}.

Lemma series_get_In (k : K) (v : V) (s : Series K V) :
  series_get k s = Some v -> In (k, v) s.
Proof.
  induction s as [|[k' v'] s IH]; simpl; [discriminate|].
  destruct (keqb k' k) eqn:E.
  - apply keqb_eq in E. subst. intros [= ->]. now left.
  - intros Hs. right. now apply IH.
Qed.

Lemma series_get_None (k : K) (s : Series K V) :
  series_get k s = None <-> ~ In k (index s).
Proof.
  induction s as [|[k' v'] s IH]; simpl; [tauto|].
  destruct (keqb k' k) eqn:E.
  - apply keqb_eq in E. subst. split; [discriminate|]. intros Hn. exfalso. auto.
  - apply keqb_neq in E. rewrite IH. tauto.
Qed.

Lemma series_get_NoDup (k : K) (v : V) (s : Series K V) :
  NoDup (index s) -> In (k, v) s -> series_get k s = Some v.
Proof.
  induction s as [|[k' v'] s IH]; simpl; [tauto|].
  intros Hnd Hin. inversion Hnd as [|? ? Hni Hnd']; subst.
  destruct (keqb k' k) eqn:E.
  - apply keqb_eq in E. subst. destruct Hin as [[= ->] | Hin]; [reflexivity|].
    exfalso. apply Hni. apply in_map_iff. now exists (k, v).
  - apply keqb_neq in E. destruct Hin as [[= -> _] | Hin]; [congruence|].
    now apply IH.
Qed.
End Lookup.

(** ** Signed exposures: a type other than ["short"] counts as long *)

(** The same row with its type set to ["long"]. *)
Definition as_long (r : Position) : Position :=
  mkPosition (date r) (ticker r) (underlying r) "long" (quantity r)
             (price_today r) (delta r) (vega r).

(** The log with every row that is not short relabelled as long. *)
Definition relabel (r : Position) : Position :=
  if String.eqb (type r) "short" then r else as_long r.

Lemma sign_relabel (r : Position) : sign (relabel r) = sign r.
Proof.
  unfold relabel, sign. destruct (String.eqb (type r) "short") eqn:E.
  - now rewrite E.
  - reflexivity.
Qed.

Lemma relabel_fields (r : Position) :
  date (relabel r) = date r /\ ticker (relabel r) = ticker r /\
  underlying (relabel r) = underlying r /\ quantity (relabel r) = quantity r /\
  price_today (relabel r) = price_today r /\ delta (relabel r) = delta r /\
  vega (relabel r) = vega r.
Proof.
  unfold relabel. destruct (String.eqb (type r) "short"); simpl; repeat split.
Qed.

Lemma signed_relabel (r : Position) :
  qty_signed (relabel r) = qty_signed r /\
  delta_exposure (relabel r) = delta_exposure r /\
  vega_exposure (relabel r) = vega_exposure r /\
  delta_signed (relabel r) = delta_signed r /\
  vega_signed (relabel r) = vega_signed r /\
  mv_signed (relabel r) = mv_signed r.
Proof.
  pose proof (sign_relabel r) as Hs.
  destruct (relabel_fields r) as (_ & _ & _ & Hq & Hp & Hd & Hv).
  unfold delta_exposure, vega_exposure, mv_signed, delta_signed, vega_signed, qty_signed.
  now rewrite Hs, Hq, Hp, Hd, Hv.
Qed.

Lemma on_date_relabel (pos : list Position) (d : Date) :
  on_date (map relabel pos) d = map relabel (on_date pos d).
Proof.
  unfold on_date. rewrite filter_map_comm. f_equal.
  apply filter_ext. intros r. now destruct (relabel_fields r) as (-> & _).
Qed.

Lemma net_greeks_relabel (pos : list Position) :
  net_greeks (map relabel pos) = net_greeks pos.
Proof.
  unfold net_greeks.
  rewrite (groupby_relabel date relabel pos)
    by (intros r; apply relabel_fields).
  rewrite map_map. apply map_ext. intros [k g]. simpl.
  rewrite !agg_sum_map. f_equal. f_equal; apply agg_sum_ext; intros r _; apply signed_relabel.
Qed.

Lemma today_agg_relabel (l : list Position) :
  today_agg (map relabel l) = today_agg l.
Proof.
  unfold today_agg.
  rewrite (groupby_relabel ticker relabel l)
    by (intros r; apply relabel_fields).
  rewrite map_map. apply map_ext. intros [k g]. simpl.
  rewrite !agg_sum_map, !agg_last_map. f_equal.
  f_equal;
    first [ apply agg_sum_ext; intros r _; apply signed_relabel
          | apply agg_last_ext; intros r; apply relabel_fields ].
Qed.

Lemma prev_agg_relabel (l : list Position) :
  prev_agg (map relabel l) = prev_agg l.
Proof.
  unfold prev_agg.
  rewrite (groupby_relabel ticker relabel l)
    by (intros r; apply relabel_fields).
  rewrite map_map. apply map_ext. intros [k g]. simpl.
  rewrite !agg_sum_map, !agg_last_map. f_equal.
  f_equal;
    first [ apply agg_sum_ext; intros r _; apply signed_relabel
          | apply agg_last_ext; intros r; apply relabel_fields ].
Qed.

Lemma merged_relabel (pos : list Position) (d p : Date) :
  merged (map relabel pos) d p = merged pos d p.
Proof.
  unfold merged. now rewrite !on_date_relabel, today_agg_relabel, prev_agg_relabel.
Qed.

Lemma sign_cases (r : Position) : sign r = 1 \/ sign r = - (1).
Proof. unfold sign. destruct (String.eqb (type r) "short"); auto. Qed.

(** C10.  A record whose type is not exactly ["short"], whatever else it
    is, gets sign +1: its signed quantity, delta, vega and market value are
    those of the same record typed ["long"], and relabelling every such
    record as long changes neither the daily net exposures nor the change
    report.  Every record gets one of the two signs. *)
Theorem type_other_than_short_is_long (pos : list Position) (r : Position) :
  In r pos -> type r <> "short"%string ->
  sign r = 1
  /\ (qty_signed r == quantity r /\ delta_signed r == delta r
      /\ vega_signed r == vega r /\ mv_signed r == price_today r * quantity r)
  /\ (qty_signed r = qty_signed (as_long r)
      /\ delta_exposure r = delta_exposure (as_long r)
      /\ vega_exposure r = vega_exposure (as_long r)
      /\ delta_signed r = delta_signed (as_long r)
      /\ vega_signed r = vega_signed (as_long r)
      /\ mv_signed r = mv_signed (as_long r))
  /\ net_greeks (map relabel pos) = net_greeks pos
  /\ (forall d p, merged (map relabel pos) d p = merged pos d p)
  /\ (forall r', In r' pos -> sign r' = 1 \/ sign r' = - (1)).
Proof.
  intros _ Ht.
  assert (E : String.eqb (type r) "short" = false) by now apply String.eqb_neq.
  assert (Hs : sign r = 1) by (unfold sign; now rewrite E).
  assert (Hr : relabel r = as_long r) by (unfold relabel; now rewrite E).
  split; [exact Hs|]. split.
  - unfold mv_signed, delta_signed, vega_signed, qty_signed. rewrite Hs.
    repeat split; ring.
  - split.
    + rewrite <- Hr. destruct (signed_relabel r) as (-> & -> & -> & -> & -> & ->).
      repeat split.
    + split; [apply net_greeks_relabel|].
      split; [intros; apply merged_relabel|intros; apply sign_cases].
Qed.

Definition odd_type_row : Position :=
  mkPosition 1 "AAA" "AAA" "Long " 10 100 (1 # 2) 3.

Lemma type_other_than_short_is_long_witness :
  In odd_type_row [odd_type_row] /\ type odd_type_row <> "short"%string
  /\ sign odd_type_row = 1.
Proof.
  split; [now left|]. split; [discriminate|].
  apply (type_other_than_short_is_long [odd_type_row] odd_type_row);
    [now left|discriminate].
Defined.

(** ** Daily change report *)

Lemma prev_agg_index (l : list Position) :
  index (prev_agg l) = unique_sorted (map ticker l).
Proof.
  unfold prev_agg, index. rewrite map_map. simpl.
  apply (groupby_index ticker l).
Qed.

Lemma merged_rows (pos : list Position) (D P : Date) (row : MergedRow) :
  In row (merged pos D P) <->
  exists g, In (Ticker row, g) (groupby ticker (on_date pos D)) /\
    row = merged_row (Ticker row)
            (mkTodayAgg (agg_last underlying g) (agg_sum qty_signed g)
               (agg_last price_today g) (agg_sum delta_signed g)
               (agg_sum vega_signed g) (agg_sum mv_signed g))
            (series_get (Ticker row) (prev_agg (on_date pos P))).
Proof.
  unfold merged, today_agg. rewrite map_map. simpl. rewrite in_map_iff. split.
  - intros ([k g] & <- & Hin). simpl. now exists g.
  - intros (g & Hin & E). exists (Ticker row, g). split; [now rewrite E at 3|exact Hin].
Qed.

Lemma on_date_In (pos : list Position) (d : Date) (r : Position) :
  In r (on_date pos d) <-> In r pos /\ date r = d.
Proof. unfold on_date. now rewrite filter_In, Z.eqb_eq. Qed.

Lemma agg_last_nonempty {R V} (val : R -> V) (g : list R) :
  g <> [] -> exists v, agg_last val g = Some v.
Proof.
  intros Hg. unfold agg_last. destruct (rev g) eqn:E.
  - apply (f_equal (@rev R)) in E. rewrite rev_involutive in E. now destruct Hg.
  - simpl. eauto.
Qed.

(** C8.  A ticker held on the inspection date and absent from the
    predecessor date has a row in the change report, and in that row the
    prior quantity, delta, vega and value are 0, the prior price is today's
    price, and price_change and value_change are 0. *)
Theorem new_ticker_reads_as_no_change (pos : list Position) (D P : Date) (t : string) :
  (exists r, In r pos /\ date r = D /\ ticker r = t) ->
  (forall r, In r pos -> date r = P -> ticker r <> t) ->
  (exists row, In row (merged pos D P) /\ Ticker row = t)
  /\ forall row, In row (merged pos D P) -> Ticker row = t ->
       qty_prv row = 0 /\ delta_prv row = 0 /\ vega_prv row = 0 /\ value_prev row = 0
       /\ (exists p, price_today_tdy row = Some p /\ price_today_prv row = Some p)
       /\ (exists c, price_change row = Some c /\ c == 0)
       /\ (exists v, value_change row = Some v /\ v == 0)
       /\ value_change row = cell_mul (Some (qty_prv row)) (price_change row).
Proof.
  intros (r0 & Hin0 & Hd0 & Ht0) Habs.
  assert (Hnone : series_get t (prev_agg (on_date pos P)) = None).
  { apply series_get_None. rewrite prev_agg_index, In_unique_sorted, in_map_iff.
    intros (r & Hr & Hin). apply on_date_In in Hin. destruct Hin as (Hin & HP).
    exact (Habs r Hin HP Hr). }
  split.
  - assert (Hk : In t (map ticker (on_date pos D))).
    { apply in_map_iff. exists r0. split; [exact Ht0|]. now apply on_date_In. }
    set (g := filter (fun r => keqb (ticker r) t) (on_date pos D)).
    exists (merged_row t
              (mkTodayAgg (agg_last underlying g) (agg_sum qty_signed g)
                 (agg_last price_today g) (agg_sum delta_signed g)
                 (agg_sum vega_signed g) (agg_sum mv_signed g))
              (series_get t (prev_agg (on_date pos P)))).
    split; [|reflexivity].
    apply merged_rows. exists g. simpl. split; [|reflexivity].
    apply In_groupby. now split.
  - intros row Hrow Ht. apply merged_rows in Hrow. destruct Hrow as (g & Hg & E).
    rewrite Ht in *. rewrite Hnone in E.
    destruct (agg_last_nonempty price_today g (groupby_group_nonempty _ _ _ _ Hg))
      as (p & Hp).
    rewrite E. unfold merged_row. simpl. rewrite Hp. simpl.
    repeat split; try reflexivity.
    + now exists p.
    + exists (p - p). split; [reflexivity|ring].
    + exists (0 * (p - p)). split; [reflexivity|ring].
Qed.

Definition new_ticker_log : list Position :=
  [ mkPosition 1 "AAA" "AAA" "long" 10 100 (1 # 2) 0;
    mkPosition 2 "AAA" "AAA" "long" 10 105 (1 # 2) 0;
    mkPosition 2 "BBB" "BBB" "short" 4 50 (1 # 4) 2 ].

Lemma new_ticker_reads_as_no_change_witness :
  (exists r, In r new_ticker_log /\ date r = 2%Z /\ ticker r = "BBB"%string)
  /\ (forall r, In r new_ticker_log -> date r = 1%Z -> ticker r <> "BBB"%string)
  /\ exists row, In row (merged new_ticker_log 2 1) /\ Ticker row = "BBB"%string.
Proof.
  assert (H1 : exists r, In r new_ticker_log /\ date r = 2%Z /\ ticker r = "BBB"%string).
  { exists (mkPosition 2 "BBB" "BBB" "short" 4 50 (1 # 4) 2).
    simpl. repeat split. right. right. now left. }
  assert (H2 : forall r, In r new_ticker_log -> date r = 1%Z -> ticker r <> "BBB"%string).
  { intros r [<- | [<- | [<- | []]]]; simpl; intros; discriminate. }
  split; [exact H1|]. split; [exact H2|].
  exact (proj1 (new_ticker_reads_as_no_change new_ticker_log 2 1 "BBB" H1 H2)).
Defined.

(** ** Dates in increasing order *)

Lemma klt_Z (a b : Z) : klt a b <-> (a < b)%Z.
Proof. unfold klt, kcmp, Z_KeyCmp. apply Z.compare_lt_iff. Qed.

Ltac klt_to_Z :=
  repeat match goal with
         | H : klt _ _ |- _ => apply (proj1 (klt_Z _ _)) in H
         end.

Lemma sorted_dates_head_min (d : Date) (l : list Date) :
  StronglySorted klt (d :: l) -> forall x, In x (d :: l) -> (d <= x)%Z.
Proof.
  intros Hs x [<- | Hin]; [lia|].
  inversion Hs as [|? ? _ Hall]; subst. rewrite Forall_forall in Hall.
  apply Hall in Hin. klt_to_Z. lia.
Qed.

Lemma sorted_dates_adjacent (l : list Date) (i : nat) (a b : Date) :
  StronglySorted klt l ->
  nth_error l i = Some a -> nth_error l (S i) = Some b ->
  (a < b)%Z /\ forall x, In x l -> (x < b)%Z -> (x <= a)%Z.
Proof.
  intros Hs. revert i. induction Hs as [|x0 l' Hs' IH Hall]; intros i Ha Hb.
  - destruct i; discriminate.
  - rewrite Forall_forall in Hall. destruct i as [|i]; simpl in *.
    + injection Ha as <-. destruct l' as [|b' l'']; [discriminate|].
      simpl in Hb. injection Hb as ->.
      split; [apply (proj1 (klt_Z _ _)), Hall; now left|].
      intros x [<- | [<- | Hin]] Hlt; try lia.
      inversion Hs' as [|? ? _ Hall']; subst. rewrite Forall_forall in Hall'.
      apply Hall' in Hin. klt_to_Z. lia.
    + destruct (IH i Ha Hb) as (Hab & Hmax). split; [exact Hab|].
      intros x [<- | Hin] Hlt; [|now apply Hmax].
      apply nth_error_In, Hall in Ha. klt_to_Z. lia.
Qed.

Lemma list_index_nth (d : Date) (l : list Date) (i : nat) :
  list_index d l = Some i -> nth_error l i = Some d.
Proof.
  revert i. induction l as [|x l IH]; intros i; simpl; [discriminate|].
  destruct (x =? d)%Z eqn:E.
  - apply Z.eqb_eq in E. subst. now intros [= <-].
  - destruct (list_index d l) as [j|]; simpl; [|discriminate].
    intros [= <-]. simpl. now apply IH.
Qed.

Lemma list_index_In (d : Date) (l : list Date) :
  In d l -> exists i, list_index d l = Some i.
Proof.
  induction l as [|x l IH]; simpl; [tauto|].
  destruct (x =? d)%Z eqn:E; [eauto|].
  apply Z.eqb_neq in E. intros [-> | Hin]; [congruence|].
  destruct (IH Hin) as (j & ->). simpl. eauto.
Qed.

Lemma pos_dates_In (pos : list Position) (d : Date) :
  In d (pos_dates pos) <-> In d (map date pos).
Proof. apply In_unique_sorted. Qed.

Lemma pos_dates_sorted (pos : list Position) : StronglySorted klt (pos_dates pos).
Proof. apply unique_sorted_sorted. Qed.

(** The date before [D] among the dates of the whole log. *)
Definition global_predecessor (pos : list Position) (D P : Date) : Prop :=
  In P (map date pos) /\ (P < D)%Z /\
  forall d, In d (map date pos) -> (d < D)%Z -> (d <= P)%Z.

Lemma prev_date_Some (pos : list Position) (D P : Date) :
  In D (map date pos) ->
  (prev_date pos D = Some P <-> global_predecessor pos D P).
Proof.
  intros HD. apply pos_dates_In in HD.
  destruct (list_index_In D _ HD) as (i & Hi).
  pose proof (list_index_nth _ _ _ Hi) as Hn.
  pose proof (pos_dates_sorted pos) as Hs.
  unfold prev_date, global_predecessor. rewrite Hi.
  destruct i as [|i].
  - split; [discriminate|]. intros (HP & Hlt & _).
    apply pos_dates_In in HP.
    destruct (pos_dates pos) as [|x l]; [discriminate|].
    simpl in Hn. injection Hn as ->.
    pose proof (sorted_dates_head_min D l Hs P HP). lia.
  - split.
    + intros HP. destruct (sorted_dates_adjacent _ _ _ _ Hs HP Hn) as (Hlt & Hmax).
      split; [apply pos_dates_In; eapply nth_error_In; eassumption|].
      split; [exact Hlt|]. intros d Hd. apply Hmax. now apply pos_dates_In.
    + intros (HP & Hlt & Hmax).
      destruct (nth_error (pos_dates pos) i) as [a|] eqn:Ha.
      * destruct (sorted_dates_adjacent _ _ _ _ Hs Ha Hn) as (Hlt' & Hmax').
        f_equal. apply pos_dates_In in HP.
        pose proof (Hmax' P HP Hlt).
        assert (In a (map date pos)) by (apply pos_dates_In; eapply nth_error_In; eassumption).
        pose proof (Hmax a H0 Hlt'). lia.
      * apply nth_error_None in Ha.
        assert (S i < List.length (pos_dates pos))%nat
          by (apply nth_error_Some; congruence).
        lia.
Qed.

Lemma prev_date_None (pos : list Position) (D : Date) :
  In D (map date pos) ->
  (prev_date pos D = None <-> forall d, In d (map date pos) -> (D <= d)%Z).
Proof.
  intros HD. split.
  - intros Hnone d Hd.
    destruct (Z_le_gt_dec D d) as [|Hgt]; [assumption|exfalso].
    apply pos_dates_In in HD.
    destruct (list_index_In D _ HD) as (i & Hi).
    pose proof (list_index_nth _ _ _ Hi) as Hn.
    unfold prev_date in Hnone. rewrite Hi in Hnone.
    destruct i as [|i].
    + destruct (pos_dates pos) as [|x l] eqn:E; [discriminate|].
      simpl in Hn. injection Hn as ->.
      pose proof (pos_dates_sorted pos) as Hs. rewrite E in Hs.
      apply pos_dates_In in Hd. rewrite E in Hd.
      pose proof (sorted_dates_head_min D l Hs d Hd). lia.
    + apply nth_error_None in Hnone.
      assert (S i < List.length (pos_dates pos))%nat
        by (apply nth_error_Some; congruence).
      lia.
  - intros Hmin. destruct (prev_date pos D) as [P|] eqn:E; [|reflexivity].
    apply (prev_date_Some pos D P HD) in E. destruct E as (HP & Hlt & _).
    pose proof (Hmin P HP). lia.
Qed.

Lemma pos_today_nonempty (tie : DisplayRow -> Z) (pos : list Position) (D : Date) :
  In D (map date pos) -> pos_today tie pos D <> [].
Proof.
  intros HD. apply in_map_iff in HD. destruct HD as (r & Hr & Hin).
  unfold pos_today. intros E.
  set (row := mkDisplayRow (ticker r) (underlying r) (type r) (quantity r)
                (price_today r) (delta_signed r) (vega_signed r) (mv pos r)).
  assert (Hrow : In row (sort_values_quicksort tie d_underlying
            (map (fun r => mkDisplayRow (ticker r) (underlying r) (type r) (quantity r)
                     (price_today r) (delta_signed r) (vega_signed r) (mv pos r))
                 (on_date pos D)))).
  { apply In_sort_values_quicksort. apply in_map_iff. exists r. split; [reflexivity|].
    now apply on_date_In. }
  rewrite E in Hrow. destruct Hrow.
Qed.

Definition NO_PREVIOUS_DAY : string :=
  "Cannot compute daily changes for this date (no previous day).".

(** C7.  For an inspection date of the log, the change report compares
    with the greatest earlier date found anywhere in the log, whatever the
    ticker.  There is no such date exactly when the inspection date is the
    earliest of the log; the report is then replaced by a notice, and the
    rest of the page, the positions table and the metrics, is still there.
    This holds whatever order the two single-column sorts of the page leave
    equal rows in. *)
Theorem change_report_uses_global_predecessor
    (sqrtQ : Q -> Q) (tie_changes : MergedRow -> Z) (tie_positions : DisplayRow -> Z)
    (pos : list Position) (D : Date) :
  In D (map date pos) ->
  (forall P, prev_date pos D = Some P <-> global_predecessor pos D P)
  /\ (prev_date pos D = None <-> (forall d, In d (map date pos) -> (D <= d)%Z))
  /\ ((forall d, In d (map date pos) -> (D <= d)%Z) ->
      daily_changes tie_changes pos D = st_info NO_PREVIOUS_DAY
      /\ (exists rows, rows <> []
                       /\ positions_table tie_positions pos D = st_positions rows)
      /\ forall date_range clicked d0 e0 rest,
           equity_window pos date_range = Some ((d0, e0) :: rest) ->
           inspect_date d0 (index rest) clicked = D ->
           exists els,
             page sqrtQ tie_changes tie_positions pos date_range clicked = Some els
             /\ In (st_info NO_PREVIOUS_DAY) els
             /\ (exists rows, rows <> [] /\ In (st_positions rows) els)
             /\ (exists v, In (st_metric "Total Return (MTM)" v) els)).
Proof.
  intros HD.
  split; [intros P; now apply prev_date_Some|].
  split; [now apply prev_date_None|].
  intros Hmin.
  assert (Hnone : prev_date pos D = None) by now apply prev_date_None.
  assert (Hchg : daily_changes tie_changes pos D = st_info NO_PREVIOUS_DAY)
    by (unfold daily_changes; now rewrite Hnone).
  assert (Htab : exists rows, rows <> []
                   /\ positions_table tie_positions pos D = st_positions rows).
  { pose proof (pos_today_nonempty tie_positions pos D HD) as Hne.
    unfold positions_table.
    destruct (pos_today tie_positions pos D) as [|r rows]; [now destruct Hne|].
    exists (r :: rows). split; [discriminate|reflexivity]. }
  split; [exact Hchg|]. split; [exact Htab|].
  intros date_range clicked d0 e0 rest Hw Hi.
  unfold page. rewrite Hw, Hi, Hchg.
  destruct Htab as (rows & Hne & ->).
  eexists. split; [reflexivity|].
  split; [simpl; tauto|].
  split; [exists rows; split; [exact Hne|simpl; tauto]|].
  eexists. simpl. left. reflexivity.
Qed.

(** Two tickers; on day 2 only BBB trades, on day 3 only AAA. *)
Definition gap_log : list Position :=
  [ mkPosition 1 "AAA" "AAA" "long" 10 100 (1 # 2) 0;
    mkPosition 1 "BBB" "BBB" "short" 5 20 (1 # 2) 0;
    mkPosition 2 "BBB" "BBB" "short" 5 22 (1 # 2) 0;
    mkPosition 3 "AAA" "AAA" "long" 10 105 (1 # 2) 0 ].

Lemma change_report_uses_global_predecessor_witness :
  (In 3%Z (map date gap_log) /\ prev_date gap_log 3 = Some 2%Z
   /\ global_predecessor gap_log 3 2)
  /\ (In 1%Z (map date gap_log)
      /\ (forall d, In d (map date gap_log) -> (1 <= d)%Z)
      /\ exists els,
           page (fun x => x) (fun _ => 0%Z) (fun _ => 0%Z) gap_log (1, 1)%Z None
           = Some els
           /\ In (st_info NO_PREVIOUS_DAY) els
           /\ exists rows, rows <> [] /\ In (st_positions rows) els).
Proof.
  split.
  - assert (H3 : In 3%Z (map date gap_log)) by (simpl; tauto).
    split; [exact H3|]. split; [reflexivity|].
    apply (proj1 (change_report_uses_global_predecessor
                    (fun x => x) (fun _ => 0%Z) (fun _ => 0%Z) gap_log 3 H3) 2%Z).
    reflexivity.
  - assert (H1 : In 1%Z (map date gap_log)) by (simpl; tauto).
    assert (Hmin : forall d, In d (map date gap_log) -> (1 <= d)%Z).
    { simpl. intros d [<- | [<- | [<- | [<- | []]]]]; lia. }
    split; [exact H1|]. split; [exact Hmin|].
    destruct (change_report_uses_global_predecessor
                (fun x => x) (fun _ => 0%Z) (fun _ => 0%Z) gap_log 1 H1)
      as (_ & _ & Hpage).
    destruct (Hpage Hmin) as (_ & _ & Hels).
    destruct (Hels (1, 1)%Z None 1%Z _ [] eq_refl eq_refl)
      as (els & E & Hinfo & Hrows & _).
    exists els. split; [exact E|]. split; [exact Hinfo|exact Hrows].
Defined.

(** ** Daily PnL: what a row of [daily_positions] holds *)

Lemma filter_comm {A} (p q : A -> bool) (l : list A) :
  filter p (filter q l) = filter q (filter p l).
Proof.
  induction l as [|x xs IH]; simpl; [reflexivity|].
  destruct (q x) eqn:Eq, (p x) eqn:Ep; simpl; rewrite ?Eq, ?Ep, IH; reflexivity.
Qed.

Lemma keqb_Z (a b : Z) : keqb a b = (a =? b)%Z.
Proof.
  apply Bool.eq_true_iff_eq. now rewrite keqb_eq, Z.eqb_eq.
Qed.

Lemma keqb_string (a b : string) : keqb a b = String.eqb a b.
Proof.
  apply Bool.eq_true_iff_eq. now rewrite keqb_eq, String.eqb_eq.
Qed.

Lemma keqb_pair {A B} `{KeyOrder A} `{KeyOrder B} (a a' : A) (b b' : B) :
  keqb (a, b) (a', b') = keqb a a' && keqb b b'.
Proof.
  apply Bool.eq_true_iff_eq. rewrite andb_true_iff, !keqb_eq.
  split; [intros [= -> ->]; auto | intros [-> ->]; reflexivity].
Qed.

(** The rows of the log for one ticker on one date, and what the ticker
    holds that day. *)
Definition records_on (pos : list Position) (d : Date) (t : string) : list Position :=
  filter (fun r => (date r =? d)%Z && String.eqb (ticker r) t) pos.

Definition recorded (pos : list Position) (t : string) (d : Date) : Prop :=
  exists r, In r pos /\ ticker r = t /\ date r = d.

Definition price_on (pos : list Position) (d : Date) (t : string) : Q :=
  match records_on pos d t with
  | r :: _ => price_today r
  | [] => 0
  end.

Definition long_held (pos : list Position) (d : Date) (t : string) : Q :=
  Qsum (map quantity (filter is_long (records_on pos d t))).

Definition short_held (pos : list Position) (d : Date) (t : string) : Q :=
  Qsum (map quantity (filter is_short (records_on pos d t))).

Definition base_row (pos : list Position) (d : Date) (t : string) : DailyBase :=
  mkDailyBase d t (price_on pos d t) (long_held pos d t) (short_held pos d t).

Lemma group_is_records_on (pos : list Position) (d : Date) (t : string) :
  filter (fun r => keqb (date_ticker r) (d, t)) pos = records_on pos d t.
Proof.
  apply filter_ext. intros r. unfold date_ticker.
  now rewrite keqb_pair, keqb_Z, keqb_string.
Qed.

Lemma recorded_In (pos : list Position) (d : Date) (t : string) :
  recorded pos t d <-> In (d, t) (map date_ticker pos).
Proof.
  unfold recorded. rewrite in_map_iff. unfold date_ticker. split.
  - intros (r & Hin & <- & <-). now exists r.
  - intros (r & [= <- <-] & Hin). now exists r.
Qed.

Section GroupedSeries.
Context {R K V : Type} `{KeyOrder K} (key : R -> K) (f : list R -> V).

(** A Series computed group by group. *)
Definition grouped (rows : list R) : Series K V :=
  map (fun kg => (fst kg, f (snd kg))) (groupby key rows).

Lemma grouped_index (rows : list R) :
  index (grouped rows) = unique_sorted (map key rows).
Proof.
  unfold grouped, index. rewrite map_map. simpl. apply (groupby_index key rows).
Qed.

Lemma grouped_In (rows : list R) (k : K) (v : V) :
  In (k, v) (grouped rows) <->
  In k (map key rows) /\ v = f (filter (fun r => keqb (key r) k) rows).
Proof.
  unfold grouped. rewrite in_map_iff. split.
  - intros ([k' g] & [= -> <-] & Hin). apply In_groupby in Hin.
    destruct Hin as (Hk & ->). now split.
  - intros (Hk & ->). exists (k, filter (fun r => keqb (key r) k) rows).
    split; [reflexivity|]. now apply In_groupby.
Qed.

Lemma grouped_get_Some (rows : list R) (k : K) :
  In k (map key rows) ->
  series_get k (grouped rows) = Some (f (filter (fun r => keqb (key r) k) rows)).
Proof.
  intros Hk. apply series_get_NoDup.
  - rewrite grouped_index. apply unique_sorted_NoDup.
  - now apply grouped_In.
Qed.

Lemma grouped_get_None (rows : list R) (k : K) :
  ~ In k (map key rows) -> series_get k (grouped rows) = None.
Proof.
  intros Hk. apply series_get_None. now rewrite grouped_index, In_unique_sorted.
Qed.
End GroupedSeries.

Lemma not_In_filter_nil {A} (p : A -> bool) (l : list A) :
  (forall x, In x l -> p x = false) -> filter p l = [].
Proof.
  induction l as [|x xs IH]; simpl; [reflexivity|]. intros Hp.
  rewrite (Hp x (or_introl eq_refl)). apply IH. intros y Hy. apply Hp. now right.
Qed.

Lemma date_ticker_eq_dec (a b : Date * string) : {a = b} + {a <> b}.
Proof. decide equality; [apply string_dec|apply Z.eq_dec]. Qed.

Lemma typed_qty_cell (pos : list Position) (p : Position -> bool) (d : Date) (t : string) :
  fillna 0 (series_get (d, t)
              (grouped date_ticker (agg_sum quantity) (filter p pos)))
  = Qsum (map quantity (filter p (records_on pos d t))).
Proof.
  destruct (in_dec date_ticker_eq_dec (d, t) (map date_ticker (filter p pos)))
    as [Hin | Hni].
  - rewrite (grouped_get_Some _ _ _ _ Hin). simpl.
    rewrite group_is_records_on. unfold records_on.
    now rewrite filter_comm.
  - rewrite (grouped_get_None _ _ _ _ Hni). simpl.
    rewrite (not_In_filter_nil p (records_on pos d t)); [reflexivity|].
    intros r Hr. unfold records_on in Hr. apply filter_In in Hr.
    destruct Hr as (Hr & Hk). destruct (p r) eqn:Ep; [|reflexivity].
    exfalso. apply Hni. apply in_map_iff. exists r. split.
    + apply andb_true_iff in Hk. destruct Hk as (Hd & Ht).
      apply Z.eqb_eq in Hd. apply String.eqb_eq in Ht. unfold date_ticker. congruence.
    + apply filter_In. now split.
Qed.

Lemma price_cell (pos : list Position) (d : Date) (t : string) :
  recorded pos t d ->
  fillna 0 (match series_get (d, t) (price pos) with Some c => c | None => None end)
  = price_on pos d t.
Proof.
  intros Hrec. apply recorded_In in Hrec.
  change (price pos) with (grouped date_ticker (agg_first price_today) pos).
  rewrite (grouped_get_Some _ _ _ _ Hrec), group_is_records_on.
  unfold price_on, agg_first. now destruct (records_on pos d t).
Qed.

Lemma concat_index_In (pos : list Position) (k : Date * string) :
  In k (unique_sorted (index (price pos) ++ index (long_qty pos) ++ index (short_qty pos)))
  <-> In k (map date_ticker pos).
Proof.
  rewrite In_unique_sorted, !in_app_iff.
  change (price pos) with (grouped date_ticker (agg_first price_today) pos).
  change (long_qty pos) with (grouped date_ticker (agg_sum quantity) (filter is_long pos)).
  change (short_qty pos) with (grouped date_ticker (agg_sum quantity) (filter is_short pos)).
  rewrite !grouped_index, !In_unique_sorted, !in_map_iff.
  split.
  - intros [H | [(r & Hr & Hin) | (r & Hr & Hin)]]; [exact H| |];
      apply filter_In in Hin; exists r; tauto.
  - tauto.
Qed.

Lemma concat_row (pos : list Position) (k : Date * string) :
  In k (map date_ticker pos) ->
  mkDailyBase (fst k) (snd k)
    (fillna 0 (match series_get k (price pos) with Some c => c | None => None end))
    (fillna 0 (series_get k (long_qty pos)))
    (fillna 0 (series_get k (short_qty pos)))
  = base_row pos (fst k) (snd k).
Proof.
  destruct k as [d t]. intros Hk. apply recorded_In in Hk. simpl.
  unfold base_row. f_equal.
  - now apply price_cell.
  - apply (typed_qty_cell pos is_long d t).
  - apply (typed_qty_cell pos is_short d t).
Qed.

Lemma concat_fillna_In (pos : list Position) (b : DailyBase) :
  In b (concat_fillna (price pos) (long_qty pos) (short_qty pos)) <->
  exists d t, recorded pos t d /\ b = base_row pos d t.
Proof.
  unfold concat_fillna. rewrite in_map_iff. split.
  - intros (k & <- & Hk). apply concat_index_In in Hk.
    exists (fst k), (snd k). split.
    + apply recorded_In. now destruct k.
    + now apply concat_row.
  - intros (d & t & Hrec & ->). exists (d, t).
    apply recorded_In in Hrec. split.
    + now apply (concat_row pos (d, t)).
    + now apply concat_index_In.
Qed.

Lemma daily_base_In (pos : list Position) (b : DailyBase) :
  In b (daily_base pos) <-> exists d t, recorded pos t d /\ b = base_row pos d t.
Proof.
  unfold daily_base. rewrite In_sort_values. apply concat_fillna_In.
Qed.

Lemma daily_base_sorted (pos : list Position) :
  StronglySorted (row_le ticker_date) (daily_base pos).
Proof. apply sort_values_sorted. Qed.

Lemma daily_base_NoDup (pos : list Position) :
  NoDup (map ticker_date (daily_base pos)).
Proof.
  unfold daily_base.
  eapply Permutation_NoDup;
    [apply Permutation_map, sort_values_perm|].
  unfold concat_fillna. rewrite map_map. simpl.
  apply Injective_map_NoDup.
  - intros [d t] [d' t']. unfold ticker_date. simpl. intros [= -> ->]. reflexivity.
  - apply unique_sorted_NoDup.
Qed.

(** ** The per-ticker shift *)

Lemma kle_ticker_date (t : string) (d d' : Date) :
  kle (t, d) (t, d') <-> (d <= d')%Z.
Proof.
  unfold kle, kcmp, pair_KeyCmp, pair_cmp. simpl.
  rewrite (kcmp_refl t). unfold kcmp, Z_KeyCmp.
  rewrite Z.compare_le_iff. tauto.
Qed.

Lemma find_same_ticker_spec (t : string) (seen : list DailyBase) :
  match find (fun p => keqb (b_ticker p) t) seen with
  | Some p =>
      exists l1 l2, seen = l1 ++ p :: l2 /\ b_ticker p = t
                    /\ forall q, In q l1 -> b_ticker q <> t
  | None => forall q, In q seen -> b_ticker q <> t
  end.
Proof.
  induction seen as [|x xs IH]; simpl; [tauto|].
  destruct (keqb (b_ticker x) t) eqn:E.
  - apply keqb_eq in E. exists [], xs. simpl. tauto.
  - apply keqb_neq in E.
    destruct (find (fun p => keqb (b_ticker p) t) xs) as [p|].
    + destruct IH as (l1 & l2 & -> & Ht & Hl1).
      exists (x :: l1), l2. simpl. split; [reflexivity|]. split; [exact Ht|].
      intros q [<- | Hq]; auto.
    + intros q [<- | Hq]; auto.
Qed.

Lemma shift_by_ticker_In (seen rows : list DailyBase) (r : DailyBase)
    (pr : option DailyBase) :
  In (r, pr) (shift_by_ticker seen rows) ->
  exists above below,
    rows = above ++ r :: below /\
    pr = find (fun p => keqb (b_ticker p) (b_ticker r)) (rev above ++ seen).
Proof.
  revert seen. induction rows as [|x xs IH]; intros seen; simpl; [tauto|].
  intros [[= -> <-] | Hin].
  - exists [], xs. simpl. now split.
  - destruct (IH _ Hin) as (above & below & -> & ->).
    exists (x :: above), below. simpl. split; [reflexivity|].
    now rewrite <- app_assoc.
Qed.

Lemma shift_by_ticker_fst (seen rows : list DailyBase) :
  map fst (shift_by_ticker seen rows) = rows.
Proof.
  revert seen. induction rows as [|x xs IH]; intros seen; simpl; [reflexivity|].
  now rewrite IH.
Qed.

Lemma sorted_split {A} (R : A -> A -> Prop) (l1 l2 : list A) (x : A) :
  StronglySorted R (l1 ++ x :: l2) ->
  StronglySorted R l1 /\ (forall q, In q l1 -> R q x) /\ (forall q, In q l2 -> R x q).
Proof.
  induction l1 as [|a l1 IH]; simpl; intros Hs.
  - inversion Hs as [|? ? _ Hall]; subst. rewrite Forall_forall in Hall.
    split; [constructor|]. split; [tauto|exact Hall].
  - inversion Hs as [|? ? Hs' Hall]; subst. rewrite Forall_forall in Hall.
    destruct (IH Hs') as (Hs1 & Hbefore & Hafter).
    split.
    + constructor; [exact Hs1|]. apply Forall_forall. intros q Hq.
      apply Hall. apply in_or_app. now left.
    + split; [|exact Hafter].
      intros q [<- | Hq]; [|now apply Hbefore].
      apply Hall. apply in_or_app. right. now left.
Qed.

Lemma NoDup_split_keys {A B} (f : A -> B) (l1 l2 : list A) (x : A) :
  NoDup (map f (l1 ++ x :: l2)) ->
  forall q, In q l1 \/ In q l2 -> f q <> f x.
Proof.
  rewrite map_app. simpl. intros Hnd q Hq E.
  apply NoDup_remove_2 in Hnd. apply Hnd.
  rewrite <- E. apply in_or_app.
  destruct Hq as [Hq | Hq]; [left | right]; now apply in_map.
Qed.

Lemma same_ticker_le (q r : DailyBase) :
  b_ticker q = b_ticker r -> row_le ticker_date q r -> (b_date q <= b_date r)%Z.
Proof.
  unfold row_le, ticker_date. intros ->. apply kle_ticker_date.
Qed.

(** In the frame sorted by ticker and date, with one row per ticker and
    date, the shifted columns of a row come from the row of the same ticker
    with the greatest earlier date, and are missing exactly when the ticker
    has no earlier date. *)
Lemma shift_by_ticker_sorted (rows : list DailyBase) (r : DailyBase)
    (pr : option DailyBase) :
  StronglySorted (row_le ticker_date) rows ->
  NoDup (map ticker_date rows) ->
  In (r, pr) (shift_by_ticker [] rows) ->
  match pr with
  | Some p =>
      In p rows /\ b_ticker p = b_ticker r /\ (b_date p < b_date r)%Z
      /\ forall q, In q rows -> b_ticker q = b_ticker r ->
                   (b_date q < b_date r)%Z -> (b_date q <= b_date p)%Z
  | None =>
      forall q, In q rows -> b_ticker q = b_ticker r -> (b_date r <= b_date q)%Z
  end.
Proof.
  intros Hs Hnd Hin.
  destruct (shift_by_ticker_In _ _ _ _ Hin) as (above & below & -> & ->).
  rewrite app_nil_r.
  destruct (sorted_split _ _ _ _ Hs) as (Hsa & Hbefore & Hafter).
  pose proof (NoDup_split_keys ticker_date _ _ _ Hnd) as Hkeys.
  pose proof (find_same_ticker_spec (b_ticker r) (rev above)) as Hf.
  destruct (find (fun p => keqb (b_ticker p) (b_ticker r)) (rev above)) as [p|].
  - destruct Hf as (l1 & l2 & Erev & Ht & Hl1).
    assert (Eab : above = rev l2 ++ p :: rev l1).
    { rewrite <- (rev_involutive above), Erev, rev_app_distr. simpl.
      now rewrite <- app_assoc. }
    assert (Hpa : In p above) by (rewrite Eab; apply in_or_app; right; now left).
    split; [apply in_or_app; now left|]. split; [exact Ht|].
    assert (Hle : (b_date p <= b_date r)%Z)
      by (apply same_ticker_le; [exact Ht|now apply Hbefore]).
    split.
    + assert (b_date p <> b_date r); [|lia].
      intros E. apply (Hkeys p (or_introl Hpa)). unfold ticker_date. congruence.
    + intros q Hq Htq Hlt. apply in_app_or in Hq.
      destruct Hq as [Hq | [<- | Hq]].
      * rewrite Eab in Hq, Hsa. apply in_app_or in Hq.
        destruct (sorted_split _ _ _ _ Hsa) as (_ & Hbp & _).
        destruct Hq as [Hq | [<- | Hq]].
        -- apply same_ticker_le; [congruence|now apply Hbp].
        -- lia.
        -- apply in_rev in Hq. now destruct (Hl1 q Hq).
      * lia.
      * pose proof (same_ticker_le r q (eq_sym Htq) (Hafter q Hq)). lia.
  - intros q Hq Htq. apply in_app_or in Hq.
    destruct Hq as [Hq | [<- | Hq]].
    + apply in_rev in Hq. now destruct (Hf q Hq).
    + lia.
    + exact (same_ticker_le r q (eq_sym Htq) (Hafter q Hq)).
Qed.

(** A row of the log-wide frame, given the base row and the row its
    shifted columns come from. *)
Lemma daily_positions_In (pos : list Position) (row : DailyRow) :
  In row (daily_positions pos) <->
  exists b pr, In (b, pr) (shift_by_ticker [] (daily_base pos)) /\ row = daily_row (b, pr).
Proof.
  unfold daily_positions. rewrite in_map_iff. split.
  - intros ([b pr] & <- & Hin). now exists b, pr.
  - intros (b & pr & Hin & ->). now exists (b, pr).
Qed.

Lemma shift_by_ticker_total (rows : list DailyBase) (b : DailyBase) :
  In b rows -> exists pr, In (b, pr) (shift_by_ticker [] rows).
Proof.
  intros Hin. rewrite <- (shift_by_ticker_fst [] rows) in Hin.
  apply in_map_iff in Hin. destruct Hin as ([b' pr] & <- & Hin). now exists pr.
Qed.

(** The date on which ticker [t] was last recorded before [d]. *)
Definition prev_recorded (pos : list Position) (t : string) (d d' : Date) : Prop :=
  recorded pos t d' /\ (d' < d)%Z /\
  forall x, recorded pos t x -> (x < d)%Z -> (x <= d')%Z.

Lemma base_row_In (pos : list Position) (d : Date) (t : string) :
  recorded pos t d -> In (base_row pos d t) (daily_base pos).
Proof. intros Hrec. apply daily_base_In. now exists d, t. Qed.

Lemma shifted_from (pos : list Position) (d : Date) (t : string)
    (pr : option DailyBase) :
  In (base_row pos d t, pr) (shift_by_ticker [] (daily_base pos)) ->
  (forall d', prev_recorded pos t d d' -> pr = Some (base_row pos d' t))
  /\ ((forall x, recorded pos t x -> (d <= x)%Z) -> pr = None).
Proof.
  intros Hin.
  pose proof (shift_by_ticker_sorted _ _ _ (daily_base_sorted pos)
                (daily_base_NoDup pos) Hin) as Hspec.
  destruct pr as [p|]; simpl in Hspec.
  - destruct Hspec as (Hp & Ht & Hlt & Hmax).
    apply daily_base_In in Hp. destruct Hp as (dp & tp & Hrec & ->).
    simpl in Ht, Hlt. subst tp. split.
    + intros d' (Hrec' & Hlt' & Hmax').
      pose proof (Hmax (base_row pos d' t) (base_row_In pos d' t Hrec') eq_refl Hlt') as H1.
      pose proof (Hmax' dp Hrec Hlt) as H2. simpl in H1.
      assert (dp = d') by lia. now subst.
    + intros Hmin. pose proof (Hmin dp Hrec). lia.
  - split; [|reflexivity].
    intros d' (Hrec' & Hlt' & _).
    pose proof (Hspec (base_row pos d' t) (base_row_In pos d' t Hrec') eq_refl) as H1.
    simpl in H1. lia.
Qed.

Lemma daily_positions_key (pos : list Position) (row : DailyRow) :
  In row (daily_positions pos) ->
  recorded pos (dp_ticker row) (dp_date row)
  /\ exists pr, In (base_row pos (dp_date row) (dp_ticker row), pr)
                   (shift_by_ticker [] (daily_base pos))
                /\ row = daily_row (base_row pos (dp_date row) (dp_ticker row), pr).
Proof.
  intros Hin. apply daily_positions_In in Hin. destruct Hin as (b & pr & Hin & ->).
  assert (Hb : In b (daily_base pos)).
  { rewrite <- (shift_by_ticker_fst [] (daily_base pos)).
    apply in_map_iff. now exists (b, pr). }
  apply daily_base_In in Hb. destruct Hb as (d & t & Hrec & ->).
  simpl. split; [exact Hrec|]. now exists pr.
Qed.

Lemma daily_positions_row (pos : list Position) (d : Date) (t : string) :
  recorded pos t d ->
  exists pr, In (base_row pos d t, pr) (shift_by_ticker [] (daily_base pos))
             /\ In (daily_row (base_row pos d t, pr)) (daily_positions pos).
Proof.
  intros Hrec.
  destruct (shift_by_ticker_total _ _ (base_row_In pos d t Hrec)) as (pr & Hin).
  exists pr. split; [exact Hin|]. apply daily_positions_In. now exists (base_row pos d t), pr.
Qed.



(** C4.  On the first date a ticker is recorded, its row has no previous
    price, and its long and short PnL are 0. *)
Theorem first_record_has_zero_pnl (pos : list Position) (t : string) (d0 : Date) :
  recorded pos t d0 -> (forall x, recorded pos t x -> (d0 <= x)%Z) ->
  (exists row, In row (daily_positions pos) /\ dp_date row = d0 /\ dp_ticker row = t)
  /\ forall row, In row (daily_positions pos) -> dp_date row = d0 -> dp_ticker row = t ->
       prev_price row = None /\ mask_first (prev_price row) = true
       /\ long_pnl row = Some 0 /\ short_pnl row = Some 0
       /\ total_pnl row = Some (0 + 0).
Proof.
  intros Hrec Hmin. split.
  - destruct (daily_positions_row pos d0 t Hrec) as (pr & _ & Hrow).
    eexists. split; [exact Hrow|]. split; reflexivity.
  - intros row Hin Hd Ht.
    destruct (daily_positions_key pos row Hin) as (_ & pr & Hpair & ->).
    simpl in Hd, Ht. subst. simpl in *.
    rewrite (proj2 (shifted_from pos _ _ pr Hpair) Hmin). simpl.
    repeat split.
Qed.

Lemma first_record_has_zero_pnl_witness :
  recorded gap_log "BBB" 1 /\ (forall x, recorded gap_log "BBB" x -> (1 <= x)%Z)
  /\ exists row, In row (daily_positions gap_log)
                 /\ dp_date row = 1%Z /\ dp_ticker row = "BBB"%string.
Proof.
  assert (H1 : recorded gap_log "BBB" 1).
  { exists (mkPosition 1 "BBB" "BBB" "short" 5 20 (1 # 2) 0). simpl. tauto. }
  assert (Hmin : forall x, recorded gap_log "BBB" x -> (1 <= x)%Z).
  { intros x (r & Hin & Ht & <-). simpl in Hin.
    destruct Hin as [<- | [<- | [<- | [<- | []]]]]; simpl in *; lia. }
  split; [exact H1|]. split; [exact Hmin|].
  exact (proj1 (first_record_has_zero_pnl gap_log "BBB" 1 H1 Hmin)).
Defined.

(** ** Capital base and equity curve *)

Lemma daily_positions_dates (pos : list Position) (d : Date) :
  In d (map dp_date (daily_positions pos)) <-> In d (map date pos).
Proof.
  rewrite !in_map_iff. split.
  - intros (row & <- & Hin).
    destruct (daily_positions_key pos row Hin) as ((r & Hr & _ & Hd) & _).
    now exists r.
  - intros (r & <- & Hin).
    assert (Hrec : recorded pos (ticker r) (date r)) by now exists r.
    destruct (daily_positions_row pos _ _ Hrec) as (pr & _ & Hrow).
    eexists. split; [|exact Hrow]. reflexivity.
Qed.

Lemma sum_by_date_index (col : DailyRow -> option Q) (rows : list DailyRow) :
  index (sum_by_date col rows) = unique_sorted (map dp_date rows).
Proof.
  apply (grouped_index dp_date (fun g => sum_skipna (map col g)) rows).
Qed.

Lemma first_date_all_earliest (pos : list Position) (d0 : Date) :
  first_date_all pos = Some d0 ->
  In d0 (map date pos) /\ forall d, In d (map date pos) -> (d0 <= d)%Z.
Proof.
  unfold first_date_all, daily_total_pnl_all. rewrite sum_by_date_index.
  intros Hhd.
  pose proof (unique_sorted_sorted (map dp_date (daily_positions pos))) as Hs.
  destruct (unique_sorted (map dp_date (daily_positions pos))) as [|x l] eqn:E;
    [discriminate|].
  simpl in Hhd. injection Hhd as ->.
  assert (Hmem : forall d, In d (d0 :: l) <-> In d (map date pos)).
  { intros d. rewrite <- E, In_unique_sorted. apply daily_positions_dates. }
  split.
  - apply Hmem. now left.
  - intros d Hd. apply (sorted_dates_head_min d0 l Hs). now apply Hmem.
Qed.

Lemma first_date_all_exists (pos : list Position) :
  pos <> [] -> exists d0, first_date_all pos = Some d0.
Proof.
  intros Hne. unfold first_date_all, daily_total_pnl_all. rewrite sum_by_date_index.
  destruct (unique_sorted (map dp_date (daily_positions pos))) as [|x l] eqn:E.
  - exfalso. destruct pos as [|r pos]; [now apply Hne|].
    assert (Hin : In (date r) (map dp_date (daily_positions (r :: pos))))
      by (apply daily_positions_dates; now left).
    apply In_unique_sorted in Hin. rewrite E in Hin. destruct Hin.
  - now exists x.
Qed.

Lemma cumsum_from_step {K} (acc : Q) (s : Series K Q) (i : nat)
    (k1 k2 : K) (c1 c2 : Q) :
  nth_error (cumsum_from acc s) i = Some (k1, c1) ->
  nth_error (cumsum_from acc s) (S i) = Some (k2, c2) ->
  exists v, nth_error s (S i) = Some (k2, v) /\ c2 = c1 + v.
Proof.
  revert acc i. induction s as [|[k v] rest IH]; intros acc i; simpl.
  - destruct i; discriminate.
  - destruct i as [|i]; simpl.
    + intros [= <- <-]. destruct rest as [|[k' v'] rest']; simpl; [discriminate|].
      intros [= <- <-]. now exists v'.
    + apply IH.
Qed.

Lemma cumsum_step {K} (s : Series K Q) (i : nat) (k1 k2 : K) (c1 c2 : Q) :
  nth_error (cumsum s) i = Some (k1, c1) ->
  nth_error (cumsum s) (S i) = Some (k2, c2) ->
  exists v, nth_error s (S i) = Some (k2, v) /\ c2 = c1 + v.
Proof.
  destruct s as [|[k v] rest]; simpl.
  - destruct i; discriminate.
  - destruct i as [|i]; simpl.
    + intros [= <- <-]. destruct rest as [|[k' v'] rest']; simpl; [discriminate|].
      intros [= <- <-]. now exists v'.
    + apply cumsum_from_step.
Qed.

Lemma cumsum_from_index {K} (acc : Q) (s : Series K Q) :
  index (cumsum_from acc s) = index s.
Proof.
  revert acc. induction s as [|[k v] rest IH]; intros acc; simpl; [reflexivity|].
  f_equal. apply IH.
Qed.

Lemma cumsum_index {K} (s : Series K Q) : index (cumsum s) = index s.
Proof.
  destruct s as [|[k v] rest]; simpl; [reflexivity|].
  f_equal. apply cumsum_from_index.
Qed.

Lemma map_values_index {K A B} (f : A -> B) (s : Series K A) :
  index (map_values f s) = index s.
Proof. unfold index, map_values. rewrite map_map. reflexivity. Qed.

Lemma map_values_nth {K A B} (f : A -> B) (s : Series K A) (i : nat) (k : K) (b : B) :
  nth_error (map_values f s) i = Some (k, b) ->
  exists a, nth_error s i = Some (k, a) /\ b = f a.
Proof.
  unfold map_values. rewrite nth_error_map.
  destruct (nth_error s i) as [[k' a]|]; simpl; [|discriminate].
  intros [= <- <-]. now exists a.
Qed.

Lemma loc_In {V} (date_range : Date * Date) (s : Series Date V) (d : Date) (v : V) :
  In (d, v) (loc date_range s) <->
  In (d, v) s /\ (fst date_range <= d <= snd date_range)%Z.
Proof.
  unfold loc, mask_window. rewrite filter_In. simpl.
  rewrite andb_true_iff, !Z.leb_le. tauto.
Qed.

(** *** 64-bit integers *)

(** [q] lies in the range of the 64-bit integers. *)
Definition fits_int64 (q : Q) : Prop :=
  -9223372036854775808 <= q /\ q < 9223372036854775808.

Lemma wrap_int64_fits (q : Q) : fits_int64 q -> wrap_int64 q == q.
Proof.
  unfold fits_int64, wrap_int64. intros (Hlo & Hhi).
  set (x := (q + 9223372036854775808) / 18446744073709551616).
  assert (Hx : 0 <= x /\ x < 1).
  { unfold x. split.
    - apply Qle_shift_div_l; lra.
    - apply Qlt_shift_div_r; lra. }
  assert (Hz : Qfloor x = 0%Z).
  { pose proof (Qfloor_le x) as H1. pose proof (Qlt_floor x) as H2.
    assert (H3 : inject_Z (Qfloor x) < inject_Z 1) by (change (inject_Z 1) with 1; lra).
    assert (H4 : inject_Z 0 < inject_Z (Qfloor x + 1))
      by (change (inject_Z 0) with 0; lra).
    rewrite <- Zlt_Qlt in H3, H4. lia. }
  rewrite Hz. change (inject_Z 0) with 0. ring.
Qed.

Lemma fits_int64_comp (a b : Q) : a == b -> fits_int64 a -> fits_int64 b.
Proof. unfold fits_int64. intros E (H1 & H2). rewrite <- E. now split. Qed.

Lemma Qsum_map_eq {A} (f g : A -> Q) (l : list A) :
  (forall x, In x l -> f x == g x) -> Qsum (map f l) == Qsum (map g l).
Proof.
  induction l as [|x l IH]; intros E; simpl; [reflexivity|].
  rewrite (E x (or_introl eq_refl)), IH; [reflexivity|].
  intros y Hy. apply E. now right.
Qed.

(** A sum of products of two columns is the exact one when, the columns
    being integer columns, the products and their sum fit in 64 bits. *)
Lemma col_sum_mul_fits {A} (int64 : bool) (f g : A -> Q) (l : list A) :
  (int64 = true ->
   (forall x, In x l -> fits_int64 (f x * g x))
   /\ fits_int64 (Qsum (map (fun x => f x * g x) l))) ->
  col_sum int64 (map (fun x => col_mul int64 (f x) (g x)) l)
  == Qsum (map (fun x => f x * g x) l).
Proof.
  destruct int64; simpl; intros H; [|reflexivity].
  destruct (H eq_refl) as (Hall & Hsum).
  assert (E : Qsum (map (fun x => wrap_int64 (f x * g x)) l)
              == Qsum (map (fun x => f x * g x) l)).
  { apply Qsum_map_eq. intros x Hx. apply wrap_int64_fits. now apply Hall. }
  rewrite wrap_int64_fits; [exact E|].
  apply fits_int64_comp with (2 := Hsum). now symmetry.
Qed.

(** The notional of the long and of the short leg on a date: the sum over
    the rows of the date of quantity times price. *)
Definition long_notional (pos : list Position) (d : Date) : Q :=
  Qsum (map (fun r => dp_long_qty r * dp_price_today r) (first_day_all pos d)).

Definition short_notional (pos : list Position) (d : Date) : Q :=
  Qsum (map (fun r => dp_short_qty r * dp_price_today r) (first_day_all pos d)).

(** The notionals of the date [d] are in the 64-bit range: the two
    quantities of every row and their products with the price, the sum of
    each leg and the sum of the two legs. *)
Definition notionals_fit_int64 (pos : list Position) (d : Date) : Prop :=
  (forall r, In r (first_day_all pos d) ->
             fits_int64 (dp_long_qty r) /\ fits_int64 (dp_short_qty r)
             /\ fits_int64 (dp_long_qty r * dp_price_today r)
             /\ fits_int64 (dp_short_qty r * dp_price_today r))
  /\ fits_int64 (long_notional pos d)
  /\ fits_int64 (short_notional pos d)
  /\ fits_int64 (long_notional pos d + short_notional pos d).

Lemma capital_base_all_fits (pos : list Position) (d : Date) :
  notionals_fit_int64 pos d ->
  scalar_add (long_qty_int64 pos && short_qty_int64 pos && price_int64 pos)
             (long_initial_cap_all pos d) (short_initial_cap_all pos d)
  == long_notional pos d + short_notional pos d.
Proof.
  intros (Hr & Hl & Hs & Hb).
  assert (El : long_initial_cap_all pos d == long_notional pos d).
  { apply col_sum_mul_fits. intros _. split; [|exact Hl].
    intros r Hin. exact (proj1 (proj2 (proj2 (Hr r Hin)))). }
  assert (Es : short_initial_cap_all pos d == short_notional pos d).
  { apply col_sum_mul_fits. intros _. split; [|exact Hs].
    intros r Hin. exact (proj2 (proj2 (proj2 (Hr r Hin)))). }
  unfold scalar_add.
  destruct (long_qty_int64 pos && short_qty_int64 pos && price_int64 pos).
  - rewrite wrap_int64_fits; [now rewrite El, Es|].
    apply fits_int64_comp with (2 := Hb). now rewrite El, Es.
  - now rewrite El, Es.
Qed.

(** One record of four thousand million contracts at a price of four
    thousand million: both columns of the file are integer columns. *)
Definition big_notional_log : list Position :=
  [ mkPosition 1 "AAA" "AAA" "long" 4000000000 4000000000 (1 # 2) 0 ].

(** C3, the statement as the specification has it, fails: on a log of whole
    numbers whose first-date notional exceeds the 64-bit range the product
    of line 114 wraps around, and the capital base is not the sum of
    quantity times price but a negative number. *)
Lemma capital_base_wraps_counterexample :
  big_notional_log <> []
  /\ first_date_all big_notional_log = Some 1%Z
  /\ long_notional big_notional_log 1 + short_notional big_notional_log 1
     == 16000000000000000000
  /\ exists cb, capital_base_all big_notional_log = Some cb
                /\ cb == -2446744073709551616
                /\ ~ cb == long_notional big_notional_log 1
                          + short_notional big_notional_log 1.
Proof.
  split; [discriminate|]. split; [reflexivity|]. split; [reflexivity|].
  eexists. split; [reflexivity|]. split; [reflexivity|].
  intros E. vm_compute in E. discriminate E.
Qed.

(** C3.  On a log that is not empty the capital base is taken from the
    rows of the earliest date of the whole log and, when the notionals of
    that date are in the 64-bit range, it is the sum of long quantity times
    price plus the sum of short quantity times price; the equity curve
    starts at the capital base plus the first total PnL and then grows by
    the total PnL of each date; and the curve of a window is the part of
    this one curve on the dates of the window, whatever the window. *)
Theorem equity_curve_of_full_history (pos : list Position) :
  pos <> [] ->
  exists d0 cb curve,
    first_date_all pos = Some d0
    /\ In d0 (map date pos) /\ (forall d, In d (map date pos) -> (d0 <= d)%Z)
    /\ capital_base_all pos = Some cb
    /\ (notionals_fit_int64 pos d0 ->
        cb == Qsum (map (fun r => dp_long_qty r * dp_price_today r)
                        (first_day_all pos d0))
              + Qsum (map (fun r => dp_short_qty r * dp_price_today r)
                          (first_day_all pos d0)))
    /\ (forall r, In r (first_day_all pos d0) <->
                  In r (daily_positions pos) /\ dp_date r = d0)
    /\ equity_all pos = Some curve
    /\ index curve = index (daily_total_pnl_all pos)
    /\ (forall d e, nth_error curve 0 = Some (d, e) ->
          exists p, nth_error (daily_total_pnl_all pos) 0 = Some (d, p) /\ e = cb + p)
    /\ (forall i d1 e1 d2 e2,
          nth_error curve i = Some (d1, e1) ->
          nth_error curve (S i) = Some (d2, e2) ->
          exists p, nth_error (daily_total_pnl_all pos) (S i) = Some (d2, p)
                    /\ e2 == e1 + p)
    /\ (forall date_range,
          equity_window pos date_range = Some (loc date_range curve)
          /\ forall d e, In (d, e) (loc date_range curve) <->
               In (d, e) curve /\ (fst date_range <= d <= snd date_range)%Z).
Proof.
  intros Hne. destruct (first_date_all_exists pos Hne) as (d0 & Hd0).
  destruct (first_date_all_earliest pos d0 Hd0) as (Hin0 & Hmin).
  set (cb := scalar_add (long_qty_int64 pos && short_qty_int64 pos && price_int64 pos)
                        (long_initial_cap_all pos d0) (short_initial_cap_all pos d0)).
  assert (Hcb : capital_base_all pos = Some cb)
    by (unfold capital_base_all; now rewrite Hd0).
  set (curve := map_values (fun c => cb + c) (cumsum (daily_total_pnl_all pos))).
  assert (Hcurve : equity_all pos = Some curve)
    by (unfold equity_all; now rewrite Hcb).
  exists d0, cb, curve.
  split; [exact Hd0|]. split; [exact Hin0|]. split; [exact Hmin|].
  split; [exact Hcb|].
  split; [exact (capital_base_all_fits pos d0)|]. split.
  { intros r. unfold first_day_all. rewrite filter_In, keqb_eq. tauto. }
  split; [exact Hcurve|]. split.
  { unfold curve. now rewrite map_values_index, cumsum_index. }
  split.
  { intros d e H0. apply map_values_nth in H0. destruct H0 as (c & Hc & ->).
    destruct (daily_total_pnl_all pos) as [|[k v] rest]; simpl in *; [discriminate|].
    injection Hc as <- <-. now exists v. }
  split.
  { intros i d1 e1 d2 e2 H1 H2.
    apply map_values_nth in H1, H2.
    destruct H1 as (c1 & Hc1 & ->), H2 as (c2 & Hc2 & ->).
    destruct (cumsum_step _ _ _ _ _ _ Hc1 Hc2) as (p & Hp & ->).
    exists p. split; [exact Hp|ring]. }
  intros date_range. split.
  - unfold equity_window. now rewrite Hcurve.
  - intros d e. apply loc_In.
Qed.

(** One ticker held long over two dates: the long leg is computed on
    integer columns, and its notional of 1000 fits. *)
Definition long_only_log : list Position :=
  [ mkPosition 1 "AAA" "AAA" "long" 10 100 (1 # 2) 0;
    mkPosition 2 "AAA" "AAA" "long" 10 103 (1 # 2) 0 ].

Lemma long_only_log_fits : notionals_fit_int64 long_only_log 1.
Proof.
  split; [|split; [|split]].
  - intros r [<- | []]. repeat split; vm_compute; congruence.
  - split; vm_compute; congruence.
  - split; vm_compute; congruence.
  - split; vm_compute; congruence.
Qed.

Lemma equity_curve_of_full_history_witness :
  long_only_log <> []
  /\ long_qty_int64 long_only_log && price_int64 long_only_log = true
  /\ exists d0 cb curve,
       first_date_all long_only_log = Some d0
       /\ capital_base_all long_only_log = Some cb /\ cb == 1000
       /\ equity_all long_only_log = Some curve.
Proof.
  assert (Hne : long_only_log <> []) by discriminate.
  split; [exact Hne|]. split; [reflexivity|].
  destruct (equity_curve_of_full_history long_only_log Hne)
    as (d0 & cb & curve & Hd0 & _ & _ & Hcb & Hsum & _ & Hcurve & _).
  exists d0, cb, curve. split; [exact Hd0|]. split; [exact Hcb|].
  split; [|exact Hcurve].
  injection Hd0 as <-. rewrite (Hsum long_only_log_fits). reflexivity.
Defined.

(** ** A Series against its own shift *)

(** [pv] is what [shift] puts at date [D] of a Series [s] that holds [v]
    there: the value of the date before [D] in the index, missing when [D]
    is the first date. *)
Definition shifted_value (s : Series Date Q) (D : Date) (v : Q) (pv : option Q) : Prop :=
  In (D, v) s /\
  match pv with
  | None => forall x, In x (index s) -> (D <= x)%Z
  | Some v' =>
      exists D', In (D', v') s /\ (D' < D)%Z
                 /\ forall x, In x (index s) -> (x < D)%Z -> (x <= D')%Z
  end.

Lemma In_index {K V} (k : K) (v : V) (s : Series K V) : In (k, v) s -> In k (index s).
Proof. intros Hin. apply in_map_iff. now exists (k, v). Qed.

Lemma zip_shift_from_In {C} (f : Q -> option Q -> C) (s : Series Date Q)
    (p : option Q) (D : Date) (c : C) :
  StronglySorted klt (index s) ->
  In (D, c) (zip_with f s (shift_from p s)) ->
  (exists v, In (D, v) s /\ c = f v p /\ forall x, In x (index s) -> (D <= x)%Z)
  \/ (exists v v', shifted_value s D v (Some v') /\ c = f v (Some v')).
Proof.
  revert p. induction s as [|[k v] rest IH]; intros p Hs; simpl; [tauto|].
  simpl in Hs. pose proof (sorted_dates_head_min k (index rest) Hs) as Hmin.
  inversion Hs as [|? ? Hs' Hall]; subst.
  intros [[= <- <-] | Hin].
  - left. exists v. split; [now left|]. split; [reflexivity|exact Hmin].
  - right. destruct (IH (Some v) Hs' Hin)
      as [(v1 & Hv1 & -> & Hfirst) | (v1 & v' & (Hv1 & D' & HD' & Hlt & Hmax) & ->)].
    + exists v1, v. split; [|reflexivity].
      split; [now right|]. exists k.
      rewrite Forall_forall in Hall.
      pose proof (Hall D (In_index _ _ _ Hv1)) as HkD. klt_to_Z.
      split; [now left|]. split; [exact HkD|].
      intros x Hx Hxlt. simpl in Hx. destruct Hx as [<- | Hx]; [lia|].
      pose proof (Hfirst x Hx). lia.
    + exists v1, v'. split; [|reflexivity].
      split; [now right|]. exists D'.
      split; [now right|]. split; [exact Hlt|].
      intros x Hx Hxlt. simpl in Hx. destruct Hx as [<- | Hx]; [|now apply Hmax].
      rewrite Forall_forall in Hall.
      pose proof (Hall D' (In_index _ _ _ HD')) as HkD. klt_to_Z. lia.
Qed.

Lemma zip_shift_In {C} (f : Q -> option Q -> C) (s : Series Date Q) (D : Date) (c : C) :
  StronglySorted klt (index s) ->
  In (D, c) (zip_with f s (shift s)) ->
  exists v pv, shifted_value s D v pv /\ c = f v pv.
Proof.
  intros Hs Hin.
  destruct (zip_shift_from_In f s None D c Hs Hin)
    as [(v & Hv & -> & Hfirst) | (v & v' & Hsv & ->)].
  - exists v, None. split; [split; assumption|reflexivity].
  - now exists v, (Some v').
Qed.

Lemma NoDup_index_value {K V} (s : Series K V) (k : K) (v v' : V) :
  NoDup (index s) -> In (k, v) s -> In (k, v') s -> v = v'.
Proof.
  induction s as [|[k0 v0] rest IH]; simpl; [tauto|].
  intros Hnd. inversion Hnd as [|? ? Hni Hnd']; subst.
  intros [E1 | H1] [E2 | H2].
  - congruence.
  - injection E1 as -> ->. exfalso. apply Hni. eapply In_index; eassumption.
  - injection E2 as -> ->. exfalso. apply Hni. eapply In_index; eassumption.
  - now apply IH.
Qed.

Lemma shifted_value_unique (s : Series Date Q) (D : Date) (v1 v2 : Q)
    (p1 p2 : option Q) :
  NoDup (index s) ->
  shifted_value s D v1 p1 -> shifted_value s D v2 p2 -> v1 = v2 /\ p1 = p2.
Proof.
  intros Hnd (H1 & Hp1) (H2 & Hp2).
  split; [exact (NoDup_index_value s D v1 v2 Hnd H1 H2)|].
  destruct p1 as [a|], p2 as [b|].
  - destruct Hp1 as (Da & HDa & Hlta & Hmaxa), Hp2 as (Db & HDb & Hltb & Hmaxb).
    pose proof (Hmaxa Db (In_index _ _ _ HDb) Hltb).
    pose proof (Hmaxb Da (In_index _ _ _ HDa) Hlta).
    assert (Da = Db) by lia. subst.
    f_equal. exact (NoDup_index_value s Db a b Hnd HDa HDb).
  - destruct Hp1 as (Da & HDa & Hlta & _).
    pose proof (Hp2 Da (In_index _ _ _ HDa)). lia.
  - destruct Hp2 as (Db & HDb & Hltb & _).
    pose proof (Hp1 Db (In_index _ _ _ HDb)). lia.
  - reflexivity.
Qed.

Lemma zip_shift_from_index {C} (f : Q -> option Q -> C) (s : Series Date Q)
    (p : option Q) :
  index (zip_with f s (shift_from p s)) = index s.
Proof.
  revert p. induction s as [|[k v] rest IH]; intros p; simpl; [reflexivity|].
  f_equal. apply IH.
Qed.

(** The value a Series computed from [s] and its shift has at a date:
    missing off the index of [s], computed from the shifted value on it. *)
Lemma zip_shift_get {C} (f : Q -> option Q -> C) (s : Series Date Q) (D : Date) :
  StronglySorted klt (index s) ->
  (~ In D (index s) /\ series_get D (zip_with f s (shift s)) = None)
  \/ (exists v pv, shifted_value s D v pv
                   /\ series_get D (zip_with f s (shift s)) = Some (f v pv)).
Proof.
  intros Hs.
  destruct (series_get D (zip_with f s (shift s))) as [c|] eqn:E.
  - right. apply series_get_In in E.
    destruct (zip_shift_In f s D c Hs E) as (v & pv & Hsv & ->).
    now exists v, pv.
  - left. split; [|reflexivity].
    apply series_get_None in E. unfold shift in E.
    now rewrite zip_shift_from_index in E.
Qed.

Lemma series_get_reindex {V} (idx : list Date) (fill : V) (s : Series Date V) (D : Date) :
  In D idx -> series_get D (reindex idx fill s) = Some (fillna fill (series_get D s)).
Proof.
  unfold reindex. induction idx as [|k idx IH]; simpl; [tauto|].
  intros Hin. destruct (keqb k D) eqn:E.
  - apply keqb_eq in E. now subst.
  - apply keqb_neq in E. destruct Hin as [-> | Hin]; [congruence|]. now apply IH.
Qed.

Lemma map_values_get {A B} (g : A -> B) (s : Series Date A) (D : Date) :
  series_get D (map_values g s) = option_map g (series_get D s).
Proof.
  induction s as [|[k a] rest IH]; simpl; [reflexivity|].
  destruct (keqb k D); [reflexivity|exact IH].
Qed.

(** The flags of a date of [net_greeks_df]. *)
Lemma net_greeks_df_flags (pos : list Position) (D : Date) (row : NetGreeksRow) :
  In (D, row) (net_greeks_df pos) ->
  In D (map date pos)
  /\ delta_hedge row = fillna false (series_get D (delta_hedge_flags pos))
  /\ vega_hedge row = fillna false (series_get D (vega_hedge_flags pos)).
Proof.
  unfold net_greeks_df. rewrite in_map_iff.
  intros ([d g] & [= <- <-] & Hin). simpl.
  assert (Hidx : In d (index (net_greeks pos))) by (eapply In_index; eassumption).
  split.
  - change (net_greeks pos)
      with (grouped date (fun g => mkNetGreeks (agg_sum delta_exposure g)
                                               (agg_sum vega_exposure g)) pos) in Hidx.
    rewrite grouped_index in Hidx. exact (proj1 (In_unique_sorted _ _) Hidx).
  - now rewrite !series_get_reindex by exact Hidx.
Qed.

Lemma net_greeks_df_dates (pos : list Position) (D : Date) :
  In D (map date pos) -> exists row, In (D, row) (net_greeks_df pos).
Proof.
  intros HD.
  assert (Hidx : In D (index (net_greeks pos))).
  { change (net_greeks pos)
      with (grouped date (fun g => mkNetGreeks (agg_sum delta_exposure g)
                                               (agg_sum vega_exposure g)) pos).
    rewrite grouped_index. now apply In_unique_sorted. }
  apply in_map_iff in Hidx. destruct Hidx as ([d g] & Hd & Hin). simpl in Hd. subst.
  unfold net_greeks_df. eexists. apply in_map_iff. exists (D, g). split; [reflexivity|exact Hin].
Qed.

(** ** Hedge flags *)

Definition hedge_rows (pos : list Position) : list Position :=
  filter (fun r => String.eqb (ticker r) HEDGE_TICKER) pos.

Lemma spy_hedge_sorted (pos : list Position) : StronglySorted klt (index (spy_hedge pos)).
Proof.
  change (spy_hedge pos) with (grouped date (agg_sum qty_signed) (hedge_rows pos)).
  rewrite grouped_index. apply unique_sorted_sorted.
Qed.

Lemma spy_hedge_index (pos : list Position) (d : Date) :
  In d (index (spy_hedge pos)) <-> In d (map date (hedge_rows pos)).
Proof.
  change (spy_hedge pos) with (grouped date (agg_sum qty_signed) (hedge_rows pos)).
  rewrite grouped_index. apply In_unique_sorted.
Qed.

Lemma delta_hedge_flags_get (pos : list Position) (D : Date) :
  series_get D (delta_hedge_flags pos)
  = option_map (fillna false)
      (series_get D (zip_with (fun x p => cell_ne (Some x) p)
                              (spy_hedge pos) (shift (spy_hedge pos)))).
Proof. unfold delta_hedge_flags. apply map_values_get. Qed.

(** What line 141 computes: a date of the hedge stock is flagged when it is
    the first one, or when the signed quantity differs from that of the
    date before. *)
Lemma delta_hedge_flag_spec (pos : list Position) (D : Date) (row : NetGreeksRow) :
  In (D, row) (net_greeks_df pos) ->
  (delta_hedge row = true <->
   exists v pv, shifted_value (spy_hedge pos) D v pv
                /\ match pv with None => True | Some v' => ~ v == v' end).
Proof.
  intros Hin. destruct (net_greeks_df_flags pos D row Hin) as (_ & -> & _).
  rewrite delta_hedge_flags_get.
  pose proof (spy_hedge_sorted pos) as Hs.
  destruct (zip_shift_get (fun x p => cell_ne (Some x) p) (spy_hedge pos) D Hs)
    as [(Hni & ->) | (v & pv & Hsv & ->)]; simpl.
  - split; [discriminate|]. intros (v & pv & (Hv & _) & _).
    destruct Hni. eapply In_index; eassumption.
  - split.
    + intros Hb. exists v, pv. split; [exact Hsv|].
      destruct pv as [v'|]; [|exact I]. simpl in Hb.
      intros E. apply Qeq_bool_iff in E. now rewrite E in Hb.
    + intros (v2 & pv2 & Hsv2 & Hc).
      destruct (shifted_value_unique _ _ _ _ _ _
                  (sorted_NoDup _ Hs) Hsv Hsv2) as (-> & ->).
      destruct pv2 as [v'|]; simpl; [|reflexivity].
      destruct (Qeq_bool v2 v') eqn:E; [|reflexivity].
      apply Qeq_bool_iff in E. now destruct Hc.
Qed.

(** C1 (the code departs from it).  On the first date on which the hedge
    stock is recorded, the delta-hedge flag of the date comes out true: the
    comparison with the missing shifted value holds, and filling missing
    flags with false afterwards changes nothing. *)
Theorem delta_hedge_flag_true_on_first_record
    (pos : list Position) (D : Date) (row : NetGreeksRow) :
  In (D, row) (net_greeks_df pos) ->
  In D (map date (hedge_rows pos)) ->
  (forall x, In x (map date (hedge_rows pos)) -> (D <= x)%Z) ->
  delta_hedge row = true.
Proof.
  intros Hin HD Hmin. apply (delta_hedge_flag_spec pos D row Hin).
  apply spy_hedge_index in HD. apply in_map_iff in HD.
  destruct HD as ([d v] & Hd & Hv). simpl in Hd. subst d.
  exists v, None. split; [|exact I]. split; [exact Hv|].
  intros x Hx. apply Hmin. now apply spy_hedge_index.
Qed.

Definition first_hedge_log : list Position :=
  [ mkPosition 1 "SPY_HEDGE_STOCK" "SPY" "short" 10 400 1 0;
    mkPosition 2 "SPY_HEDGE_STOCK" "SPY" "short" 10 402 1 0 ].

Lemma delta_hedge_flag_true_on_first_record_witness :
  exists row, In (1%Z, row) (net_greeks_df first_hedge_log)
              /\ In 1%Z (map date (hedge_rows first_hedge_log))
              /\ (forall x, In x (map date (hedge_rows first_hedge_log)) -> (1 <= x)%Z)
              /\ delta_hedge row = true.
Proof.
  assert (H1 : In 1%Z (map date first_hedge_log)) by (simpl; tauto).
  destruct (net_greeks_df_dates first_hedge_log 1 H1) as (row & Hin).
  assert (HD : In 1%Z (map date (hedge_rows first_hedge_log))) by (simpl; tauto).
  assert (Hmin : forall x, In x (map date (hedge_rows first_hedge_log)) -> (1 <= x)%Z).
  { simpl. intros x [<- | [<- | []]]; lia. }
  exists row. split; [exact Hin|]. split; [exact HD|]. split; [exact Hmin|].
  exact (delta_hedge_flag_true_on_first_record first_hedge_log 1 row Hin HD Hmin).
Defined.

Lemma total_spy_qty_sorted (pos : list Position) :
  StronglySorted klt (index (total_spy_qty pos)).
Proof.
  change (total_spy_qty pos) with (grouped date (agg_sum qty_signed) (spy_opts pos)).
  rewrite grouped_index. apply unique_sorted_sorted.
Qed.

Lemma const_series_get (idx : list Date) (D : Date) :
  fillna false (series_get D (map (fun d => (d, false)) idx)) = false.
Proof.
  induction idx as [|k idx IH]; simpl; [reflexivity|].
  destruct (keqb k D); [reflexivity|exact IH].
Qed.

Lemma vega_hedge_flags_get (pos : list Position) (D : Date) :
  fillna false (series_get D (vega_hedge_flags pos))
  = fillna false
      (option_map (fun c => fillna false (cell_gt c VEGA_TOLERANCE))
         (series_get D (zip_with (fun x p => cell_sub (Some x) p)
                                 (total_spy_qty pos) (shift (total_spy_qty pos))))).
Proof.
  unfold vega_hedge_flags. destruct (spy_opts pos) as [|r l] eqn:E.
  - rewrite const_series_get. unfold total_spy_qty. rewrite E. reflexivity.
  - unfold spy_qty_diff, diff. now rewrite map_values_get.
Qed.

Lemma Qgt_bool (x y : Q) : negb (Qle_bool x y) = true <-> y < x.
Proof.
  rewrite negb_true_iff. split.
  - intros Hb. apply Qnot_le_lt. intros Hle. apply Qle_bool_iff in Hle. congruence.
  - intros Hlt. destruct (Qle_bool x y) eqn:E; [|reflexivity].
    apply Qle_bool_iff in E. exfalso. exact (Qlt_not_le _ _ Hlt E).
Qed.

(** C6.  The vega-hedge flag of a date is true exactly when the date has
    SPY option records (the hedge stock left out), an earlier date has some
    too, and the total signed quantity exceeds that of the last such earlier
    date by more than 1e-8.  It is false on the first date with such records
    and on every date when the log has none. *)
Theorem vega_hedge_flag_spec (pos : list Position) (D : Date) (row : NetGreeksRow) :
  In (D, row) (net_greeks_df pos) ->
  (vega_hedge row = true <->
   exists v v', shifted_value (total_spy_qty pos) D v (Some v')
                /\ VEGA_TOLERANCE < v - v')
  /\ ((forall x, In x (index (total_spy_qty pos)) -> (D <= x)%Z) -> vega_hedge row = false)
  /\ (spy_opts pos = [] -> vega_hedge row = false)
  /\ (forall d v, In (d, v) (total_spy_qty pos) <->
        In d (map date (spy_opts pos))
        /\ v = agg_sum qty_signed (filter (fun r => keqb (date r) d) (spy_opts pos)))
  /\ (forall r, In r (spy_opts pos) <->
        In r pos /\ underlying r = "SPY"%string /\ ticker r <> "SPY_HEDGE_STOCK"%string).
Proof.
  intros Hin. destruct (net_greeks_df_flags pos D row Hin) as (_ & _ & ->).
  rewrite vega_hedge_flags_get.
  pose proof (total_spy_qty_sorted pos) as Hs.
  assert (Hiff :
    fillna false
      (option_map (fun c => fillna false (cell_gt c VEGA_TOLERANCE))
         (series_get D (zip_with (fun x p => cell_sub (Some x) p)
                                 (total_spy_qty pos) (shift (total_spy_qty pos)))))
    = true <->
    exists v v', shifted_value (total_spy_qty pos) D v (Some v')
                 /\ VEGA_TOLERANCE < v - v').
  { destruct (zip_shift_get (fun x p => cell_sub (Some x) p) (total_spy_qty pos) D Hs)
      as [(Hni & ->) | (v & pv & Hsv & ->)]; simpl.
    - split; [discriminate|]. intros (v & v' & (Hv & _) & _).
      destruct Hni. eapply In_index; eassumption.
    - split.
      + intros Hb. destruct pv as [v'|]; simpl in Hb; [|discriminate].
        exists v, v'. split; [exact Hsv|]. now apply Qgt_bool.
      + intros (v2 & v' & Hsv2 & Hc).
        destruct (shifted_value_unique _ _ _ _ _ _
                    (sorted_NoDup _ Hs) Hsv Hsv2) as (-> & ->).
        simpl. now apply Qgt_bool. }
  split; [exact Hiff|]. split; [|split; [|split]].
  - intros Hfirst. apply not_true_is_false. intros Hb. apply Hiff in Hb.
    destruct Hb as (v & v' & (_ & D' & HD' & Hlt & _) & _).
    pose proof (Hfirst D' (In_index _ _ _ HD')). lia.
  - intros Hnone. apply not_true_is_false. intros Hb. apply Hiff in Hb.
    destruct Hb as (v & v' & (Hv & _) & _).
    unfold total_spy_qty in Hv. rewrite Hnone in Hv. destruct Hv.
  - intros d v. apply (grouped_In date (agg_sum qty_signed) (spy_opts pos) d v).
  - intros r. unfold spy_opts, HEDGE_UNDERLYING, HEDGE_TICKER.
    rewrite filter_In, andb_true_iff, negb_true_iff, String.eqb_eq, String.eqb_neq.
    tauto.
Qed.

Definition vega_hedge_log : list Position :=
  [ mkPosition 1 "SPY_C450" "SPY" "long" 5 2 (1 # 2) 3;
    mkPosition 1 "SPY_HEDGE_STOCK" "SPY" "short" 3 400 1 0;
    mkPosition 2 "AAA_C10" "AAA" "short" 4 1 (1 # 2) 2;
    mkPosition 3 "SPY_C450" "SPY" "long" 7 2 (1 # 2) 3;
    mkPosition 3 "SPY_HEDGE_STOCK" "SPY" "short" 9 401 1 0 ].

Lemma vega_hedge_flag_spec_witness :
  exists row, In (3%Z, row) (net_greeks_df vega_hedge_log) /\ vega_hedge row = true.
Proof.
  assert (H3 : In 3%Z (map date vega_hedge_log)) by (simpl; tauto).
  destruct (net_greeks_df_dates vega_hedge_log 3 H3) as (row & Hin).
  exists row. split; [exact Hin|].
  apply (proj1 (vega_hedge_flag_spec vega_hedge_log 3 row Hin)).
  exists (7 * 1 + 0), (5 * 1 + 0). split.
  - split; [simpl; tauto|]. exists 1%Z. split; [simpl; tauto|]. split; [lia|].
    simpl. intros x [<- | [<- | []]]; lia.
  - reflexivity.
Defined.

(** ** Window statistics: maximum drawdown *)

Lemma Qzero_iff (q : Q) : Qzero q = true <-> q == 0.
Proof. unfold Qzero. apply Qeq_bool_iff. Qed.

Lemma Qzero_false (q : Q) : Qzero q = false <-> ~ q == 0.
Proof.
  rewrite <- Qzero_iff. destruct (Qzero q); split; congruence.
Qed.

Lemma Qltb_iff (x y : Q) : negb (Qle_bool y x) = true <-> x < y.
Proof. apply Qgt_bool. Qed.

Lemma Qltb_false (x y : Q) : negb (Qle_bool y x) = false <-> y <= x.
Proof.
  rewrite negb_false_iff. apply Qle_bool_iff.
Qed.

(** A drawdown entry: a number that is not positive. *)
Definition nonpos_num (x : fnum) : Prop := exists d, x = Num d /\ d <= 0.

Lemma drawdown_entry (q m : Q) :
  0 < m -> q <= m -> nonpos_num (fsub (fdiv (Num q) (Num m)) (Num 1)).
Proof.
  intros Hm Hq. unfold fdiv.
  assert (Hz : Qzero m = false) by (apply Qzero_false; intros E; rewrite E in Hm;
                                    exact (Qlt_irrefl _ Hm)).
  rewrite Hz. exists (q / m + - (1)). split; [reflexivity|].
  assert (Hx : q / m <= 1) by (apply Qle_shift_div_r; [exact Hm|lra]).
  revert Hx. generalize (q / m). intros x Hx. lra.
Qed.

Lemma dd_from_nonpos (qs : list Q) (m : Q) :
  0 < m ->
  Forall nonpos_num
    (map (fun rm => fsub (fdiv (fst rm) (snd rm)) (Num 1))
         (combine (map Num qs) (cummax_from (Num m) (map Num qs)))).
Proof.
  revert m. induction qs as [|q qs IH]; intros m Hm; simpl; [constructor|].
  unfold fmax_skipna. simpl.
  destruct (negb (Qle_bool q m)) eqn:E.
  - apply Qltb_iff in E. constructor.
    + apply drawdown_entry; lra.
    + apply IH. lra.
  - apply Qltb_false in E. constructor.
    + now apply drawdown_entry.
    + now apply IH.
Qed.

Lemma fmin_from_nonpos (l : list fnum) (a : Q) :
  Forall nonpos_num l -> a <= 0 ->
  exists d, fold_left fmin_skipna l (Num a) = Num d /\ d <= 0.
Proof.
  revert a. induction l as [|x l IH]; intros a Hall Ha; simpl.
  - now exists a.
  - inversion Hall as [|? ? (d & -> & Hd) Hall']; subst.
    unfold fmin_skipna. simpl.
    destruct (negb (Qle_bool a d)); now apply IH.
Qed.

Lemma fmin_nonpos (l : list fnum) :
  l <> [] -> Forall nonpos_num l -> exists d, fmin l = Num d /\ d <= 0.
Proof.
  destruct l as [|x l]; [congruence|]. intros _ Hall.
  inversion Hall as [|? ? (d & -> & Hd) Hall']; subst.
  unfold fmin. simpl. now apply fmin_from_nonpos.
Qed.

Lemma equity_rebased_nonzero (e0 : Q) (rest : list Q) :
  ~ e0 == 0 ->
  equity_rebased (e0 :: rest) = map Num (map (fun e => e / e0) (e0 :: rest)).
Proof.
  intros Hz. unfold equity_rebased. rewrite map_map.
  apply map_ext. intros e. unfold fdiv.
  now rewrite (proj2 (Qzero_false e0) Hz).
Qed.

Lemma dd_nonzero_start (e0 : Q) (rest : list Q) :
  ~ e0 == 0 -> dd (e0 :: rest) <> [] /\ Forall nonpos_num (dd (e0 :: rest)).
Proof.
  intros Hz. unfold dd, rolling_max, cummax.
  rewrite (equity_rebased_nonzero e0 rest Hz). simpl.
  assert (H1 : e0 / e0 == 1) by (field; exact Hz).
  split; [discriminate|]. constructor.
  - apply drawdown_entry; lra.
  - apply dd_from_nonpos. lra.
Qed.

(** C9 (as amended).  On a window that starts at a nonzero equity the
    maximum drawdown is a number, and at most 0; on an empty window it is
    NaN, shown as N/A. *)
Theorem max_dd_nonpositive (e0 : Q) (rest : list Q) :
  ~ e0 == 0 ->
  (exists d, max_dd (e0 :: rest) = Num d /\ d <= 0)
  /\ max_dd [] = NaN /\ metric_text (max_dd []) = NA.
Proof.
  intros Hz. split; [|split; reflexivity].
  destruct (dd_nonzero_start e0 rest Hz) as (Hne & Hall).
  unfold max_dd. destruct (dd (e0 :: rest)) as [|x l] eqn:E; [congruence|].
  apply fmin_nonpos; [discriminate|exact Hall].
Qed.

Lemma max_dd_nonpositive_witness :
  ~ 100 == 0 /\ exists d, max_dd [100; 110; 99] = Num d /\ d <= 0.
Proof.
  assert (Hz : ~ 100 == 0) by discriminate.
  split; [exact Hz|].
  exact (proj1 (max_dd_nonpositive 100 [110; 99] Hz)).
Defined.

(** A value that is at most 0, the infinities included. *)
Definition at_most_zero (x : fnum) : Prop :=
  match x with
  | Num d => d <= 0
  | Inf negative => negative = true
  | NaN => False
  end.

(** The option is long on day 1 and worthless on day 2: the equity of the
    window that holds day 2 alone is zero. *)
Definition worthless_log : list Position :=
  [ mkPosition 1 "AAA_C10" "AAA" "long" 1 100 (1 # 2) 0;
    mkPosition 2 "AAA_C10" "AAA" "long" 1 0 (1 # 2) 0 ].

(** C9 as stated fails: a window that is not empty, with a drawdown that is
    NaN, hence not at most 0. *)
Lemma max_dd_zero_equity_counterexample :
  exists w, equity_window worthless_log (2, 2)%Z = Some w
            /\ w <> []
            /\ max_dd (map snd w) = NaN
            /\ ~ at_most_zero (max_dd (map snd w)).
Proof.
  eexists. split; [reflexivity|]. split; [discriminate|].
  split; [reflexivity|]. intros H. exact H.
Qed.

(** A window that starts at zero equity has no drawdown figure either. *)
Definition not_a_number (x : fnum) : Prop :=
  match x with Num _ => False | _ => True end.

Lemma dd_from_not_numbers (l : list fnum) (m : fnum) :
  Forall not_a_number l -> not_a_number m ->
  Forall (eq NaN)
    (map (fun rm => fsub (fdiv (fst rm) (snd rm)) (Num 1))
         (combine l (cummax_from m l))).
Proof.
  revert m. induction l as [|x l IH]; intros m Hall Hm; simpl; [constructor|].
  inversion Hall as [|? ? Hx Hall']; subst.
  destruct x as [q|s|]; simpl in *; [destruct Hx| |].
  - unfold fmax_skipna.
    destruct m as [q|s'|]; simpl in *; [destruct Hm| |].
    + destruct (s' && negb s); simpl; (constructor; [reflexivity|now apply IH]).
    + constructor; [reflexivity|now apply IH].
  - constructor; [reflexivity|now apply IH].
Qed.

Lemma fmin_all_nan (l : list fnum) : Forall (eq NaN) l -> fmin l = NaN.
Proof.
  unfold fmin. induction 1 as [|x l <- _ IH]; simpl; [reflexivity|exact IH].
Qed.

Lemma max_dd_zero_start (e0 : Q) (rest : list Q) :
  e0 == 0 -> max_dd (e0 :: rest) = NaN.
Proof.
  intros Hz. unfold max_dd.
  assert (Hall : Forall (eq NaN) (dd (e0 :: rest))).
  { unfold dd, rolling_max, cummax. apply dd_from_not_numbers; [|exact I].
    unfold equity_rebased. apply Forall_forall. intros x Hx.
    apply in_map_iff in Hx. destruct Hx as (e & <- & _).
    unfold fdiv. rewrite (proj2 (Qzero_iff e0) Hz).
    now destruct (Qzero e). }
  destruct (dd (e0 :: rest)); [reflexivity|]. now apply fmin_all_nan.
Qed.

(** ** Window statistics: Sharpe ratio *)

Definition is_num (x : fnum) : Prop := exists q, x = Num q.

Lemma fadd_num (a b : fnum) (q : Q) :
  fadd a b = Num q -> is_num a /\ is_num b.
Proof.
  destruct a as [x|s|], b as [y|s'|]; simpl; try discriminate.
  - intros _. split; eexists; reflexivity.
  - destruct (Bool.eqb s s'); discriminate.
Qed.

Lemma fsum_cons (x : fnum) (l : list fnum) : fsum (x :: l) = fadd x (fsum l).
Proof. reflexivity. Qed.

Lemma fsum_num (l : list fnum) (q : Q) : fsum l = Num q -> Forall is_num l.
Proof.
  revert q. induction l as [|x l IH]; intros q; [constructor|].
  rewrite fsum_cons. intros E.
  destruct (fadd_num _ _ _ E) as (Hx & (q' & Hq')).
  constructor; [exact Hx|]. now apply (IH q').
Qed.

Lemma fsum_of_nums (l : list fnum) : Forall is_num l -> is_num (fsum l).
Proof.
  induction 1 as [|x l (q & ->) _ (q' & IH)].
  - now exists 0.
  - rewrite fsum_cons, IH. now exists (q + q').
Qed.

Lemma fadd_nan_r (a : fnum) : fadd a NaN = NaN.
Proof. now destruct a. Qed.

Lemma fsum_nan (l : list fnum) : In NaN l -> fsum l = NaN.
Proof.
  induction l as [|x l IH]; [simpl; tauto|].
  rewrite fsum_cons. intros [-> | Hin]; [reflexivity|].
  rewrite (IH Hin). apply fadd_nan_r.
Qed.

Lemma fsum_inf (l : list fnum) (s : bool) : fsum l = Inf s -> In (Inf s) l.
Proof.
  induction l as [|x l IH]; [discriminate|].
  rewrite fsum_cons.
  destruct x as [q|s'|]; simpl.
  - destruct (fsum l) as [q'|s'|]; try discriminate.
    intros [= ->]. right. now apply IH.
  - destruct (fsum l) as [q'|s''|]; try discriminate.
    + intros [= ->]. now left.
    + destruct (Bool.eqb s' s''); [|discriminate]. intros [= ->]. now left.
  - discriminate.
Qed.

Lemma Qneg_count (n : nat) : Qneg (inject_Z (Z.of_nat n)) = false.
Proof.
  unfold Qneg. rewrite negb_false_iff. apply Qle_bool_iff.
  unfold Qle. simpl. lia.
Qed.

Lemma Qzero_count (n : nat) : (n <> 0)%nat -> Qzero (inject_Z (Z.of_nat n)) = false.
Proof.
  intros Hn. apply Qzero_false. unfold Qeq. simpl. lia.
Qed.

Lemma Qzero_count_pred (n : nat) :
  (2 <= n)%nat -> Qzero (inject_Z (Z.of_nat n) + - (1)) = false.
Proof.
  intros Hn. apply Qzero_false. unfold Qeq. simpl. lia.
Qed.

Lemma dropna_no_nan (l : list fnum) : ~ In NaN (dropna l).
Proof.
  unfold dropna. rewrite filter_In. intros (_ & H). discriminate.
Qed.

(** With at least two entries the mean is a number only when every entry
    is, and an infinite or undefined mean leaves the variance undefined. *)
Lemma var_defined (l : list fnum) :
  var l <> NaN ->
  (2 <= List.length (dropna l))%nat
  /\ (exists m, mean l = Num m) /\ Forall is_num (dropna l).
Proof.
  unfold var. destruct (List.length (dropna l) <=? 1)%nat eqn:El; [congruence|].
  apply Nat.leb_gt in El. intros Hv. split; [lia|].
  assert (Hn : Qzero (inject_Z (Z.of_nat (List.length (dropna l)))) = false)
    by (apply Qzero_count; lia).
  set (v := dropna l) in *.
  assert (Hmean : mean l = fdiv (fsum v) (flen v)) by reflexivity.
  destruct (mean l) as [m|s|] eqn:Em.
  - split; [now exists m|].
    unfold flen in Hmean. destruct (fsum v) as [x|s|] eqn:Es; simpl in Hmean.
    + now apply (fsum_num v x).
    + discriminate.
    + discriminate.
  - exfalso. apply Hv.
    unfold flen in Hmean. destruct (fsum v) as [x|s'|] eqn:Es; simpl in Hmean.
    + rewrite Hn in Hmean. discriminate.
    + rewrite Qneg_count, xorb_false_r in Hmean. injection Hmean as <-.
      apply fsum_inf in Es.
      rewrite (fsum_nan (map (fun x => fmul (fsub x (Inf s)) (fsub x (Inf s))) v)).
      * reflexivity.
      * apply in_map_iff. exists (Inf s). split; [|exact Es].
        unfold fsub. simpl. now destruct s.
    + discriminate.
  - exfalso. apply Hv.
    rewrite (fsum_nan (map (fun x => fmul (fsub x NaN) (fsub x NaN)) v)).
    + reflexivity.
    + destruct v as [|x v'] eqn:Ev; [simpl in El; lia|].
      left. unfold fsub. simpl. now rewrite fadd_nan_r.
Qed.

Lemma var_finite (l : list fnum) : var l = NaN \/ exists v, var l = Num v.
Proof.
  destruct (var l) as [v|s|] eqn:Ev; [right; now exists v| |now left].
  exfalso.
  assert (Hd : var l <> NaN) by congruence.
  destruct (var_defined l Hd) as (Hlen & (m & Hm) & Hnums).
  unfold var in Ev. rewrite Hm in Ev.
  destruct (List.length (dropna l) <=? 1)%nat; [discriminate|].
  assert (Hs : is_num (fsum (map (fun x => fmul (fsub x (Num m)) (fsub x (Num m)))
                                 (dropna l)))).
  { apply fsum_of_nums. apply Forall_forall. intros y Hy.
    apply in_map_iff in Hy. destruct Hy as (x & <- & Hx).
    rewrite Forall_forall in Hnums. destruct (Hnums x Hx) as (q & ->).
    eexists. reflexivity. }
  destruct Hs as (q & Hq). rewrite Hq in Ev.
  unfold flen, fsub in Ev. simpl in Ev.
  rewrite (Qzero_count_pred _ Hlen) in Ev. discriminate.
Qed.

Section SharpeProperties.
Variable sqrtQ : Q -> Q.

Lemma std_finite (l : list fnum) :
  std sqrtQ l = NaN \/ exists sd, std sqrtQ l = Num sd.
Proof.
  unfold std. destruct (var_finite l) as [-> | (v & ->)]; simpl; [now left|].
  destruct (Qneg v); [now left|right; eauto].
Qed.

Lemma std_num_mean_num (l : list fnum) (sd : Q) :
  std sqrtQ l = Num sd -> exists m, mean l = Num m.
Proof.
  intros Hstd.
  assert (Hv : var l <> NaN).
  { intros E. unfold std in Hstd. rewrite E in Hstd. discriminate. }
  now destruct (var_defined l Hv) as (_ & Hm & _).
Qed.

Lemma fsqrt_252 : fsqrt sqrtQ (Num 252) = Num (sqrtQ 252).
Proof. reflexivity. Qed.

(** The value of the ratio on the branch that computes it. *)
Lemma sharpe_computed (l : list fnum) :
  fmul (fdiv (mean l) (std sqrtQ l)) (fsqrt sqrtQ (Num 252)) = NaN
  \/ (exists m sd, mean l = Num m /\ std sqrtQ l = Num sd
        /\ ((~ sd == 0
             /\ fmul (fdiv (mean l) (std sqrtQ l)) (fsqrt sqrtQ (Num 252))
                = Num (m / sd * sqrtQ 252))
            \/ sd == 0)).
Proof.
  rewrite fsqrt_252.
  destruct (std_finite l) as [-> | (sd & Hsd)].
  - left. now destruct (mean l).
  - destruct (std_num_mean_num l sd Hsd) as (m & Hm).
    right. exists m, sd. rewrite Hm, Hsd. split; [reflexivity|]. split; [reflexivity|].
    simpl. destruct (Qzero sd) eqn:Ez.
    + right. now apply Qzero_iff.
    + left. split; [now apply Qzero_false|reflexivity].
Qed.

(** C5.  With at least two returns and a standard deviation other than
    zero the Sharpe ratio is mean / std * sqrt(252): that number when the
    standard deviation is a number, NaN when it is NaN.  With fewer returns
    or a zero standard deviation it is NaN.  It is never an infinity, every
    number it gives is that ratio, and NaN is shown as N/A. *)
Theorem sharpe_3m_guarded (daily_ret : list fnum) :
  (forall s, sharpe_3m sqrtQ daily_ret <> Inf s)
  /\ ((List.length daily_ret < 2)%nat -> sharpe_3m sqrtQ daily_ret = NaN)
  /\ ((exists sd, std sqrtQ daily_ret = Num sd /\ sd == 0) ->
      sharpe_3m sqrtQ daily_ret = NaN)
  /\ (forall x, sharpe_3m sqrtQ daily_ret = Num x ->
        (2 <= List.length daily_ret)%nat
        /\ exists m sd, mean daily_ret = Num m /\ std sqrtQ daily_ret = Num sd
                        /\ ~ sd == 0 /\ x = m / sd * sqrtQ 252)
  /\ (sharpe_3m sqrtQ daily_ret = NaN -> metric_text (sharpe_3m sqrtQ daily_ret) = NA)
  /\ ((2 <= List.length daily_ret)%nat ->
      fneb (std sqrtQ daily_ret) (Num 0) = true ->
      sharpe_3m sqrtQ daily_ret
      = fmul (fdiv (mean daily_ret) (std sqrtQ daily_ret)) (fsqrt sqrtQ (Num 252)))
  /\ ((2 <= List.length daily_ret)%nat ->
      forall sd, std sqrtQ daily_ret = Num sd -> ~ sd == 0 ->
      exists m, mean daily_ret = Num m
                /\ sharpe_3m sqrtQ daily_ret = Num (m / sd * sqrtQ 252)).
Proof.
  assert (Hratio : (2 <= List.length daily_ret)%nat ->
                   fneb (std sqrtQ daily_ret) (Num 0) = true ->
                   sharpe_3m sqrtQ daily_ret
                   = fmul (fdiv (mean daily_ret) (std sqrtQ daily_ret))
                          (fsqrt sqrtQ (Num 252))).
  { intros Hl Hg. unfold sharpe_3m.
    apply Nat.ltb_lt in Hl. now rewrite Hl, Hg. }
  assert (Hnum : (2 <= List.length daily_ret)%nat ->
                 forall sd, std sqrtQ daily_ret = Num sd -> ~ sd == 0 ->
                 exists m, mean daily_ret = Num m
                           /\ sharpe_3m sqrtQ daily_ret = Num (m / sd * sqrtQ 252)).
  { intros Hl sd Hsd Hnz.
    assert (Ez : Qzero sd = false).
    { destruct (Qzero sd) eqn:E; [|reflexivity].
      apply Qzero_iff in E. now destruct Hnz. }
    assert (Eb : Qeq_bool sd 0 = false).
    { destruct (Qeq_bool sd 0) eqn:E; [|reflexivity].
      apply Qeq_bool_iff in E. now destruct Hnz. }
    destruct (std_num_mean_num daily_ret sd Hsd) as (m & Hm).
    exists m. split; [exact Hm|].
    rewrite Hratio; [|exact Hl|rewrite Hsd; simpl; now rewrite Eb].
    rewrite fsqrt_252, Hm, Hsd. simpl. now rewrite Ez. }
  cut ((forall s, sharpe_3m sqrtQ daily_ret <> Inf s)
       /\ ((List.length daily_ret < 2)%nat -> sharpe_3m sqrtQ daily_ret = NaN)
       /\ ((exists sd, std sqrtQ daily_ret = Num sd /\ sd == 0) ->
           sharpe_3m sqrtQ daily_ret = NaN)
       /\ (forall x, sharpe_3m sqrtQ daily_ret = Num x ->
             (2 <= List.length daily_ret)%nat
             /\ exists m sd, mean daily_ret = Num m /\ std sqrtQ daily_ret = Num sd
                             /\ ~ sd == 0 /\ x = m / sd * sqrtQ 252)
       /\ (sharpe_3m sqrtQ daily_ret = NaN ->
           metric_text (sharpe_3m sqrtQ daily_ret) = NA)).
  { intros (H1 & H2 & H3 & H4 & H5).
    exact (conj H1 (conj H2 (conj H3 (conj H4 (conj H5 (conj Hratio Hnum)))))). }
  clear Hratio Hnum. unfold sharpe_3m.
  destruct (1 <? List.length daily_ret)%nat eqn:El; cbn [andb].
  - apply Nat.ltb_lt in El.
    destruct (fneb (std sqrtQ daily_ret) (Num 0)) eqn:Eg.
    + assert (Hnz : forall sd, std sqrtQ daily_ret = Num sd -> ~ sd == 0).
      { intros sd Hsd Hz. rewrite Hsd in Eg. simpl in Eg.
        apply Qeq_bool_iff in Hz. now rewrite Hz in Eg. }
      destruct (sharpe_computed daily_ret)
        as [-> | (m & sd & Hm & Hsd & [(_ & ->) | Hz])];
        [| |now destruct (Hnz sd Hsd)].
      * split; [discriminate|]. split; [intros; lia|].
        split; [reflexivity|]. split; [discriminate|reflexivity].
      * split; [discriminate|]. split; [intros; lia|].
        split; [intros (sd' & Hsd' & Hz); now destruct (Hnz sd' Hsd')|].
        split; [|discriminate].
        intros x [= <-]. split; [lia|].
        exists m, sd. repeat split; try assumption. now apply Hnz.
    + split; [discriminate|]. split; [reflexivity|].
      split; [reflexivity|]. split; [discriminate|reflexivity].
  - split; [discriminate|]. split; [reflexivity|].
    split; [reflexivity|]. split; [discriminate|reflexivity].
Qed.
End SharpeProperties.

(** Two returns of 1% and 3%, with the square root taken as the identity
    so that the value can be read off: the mean is 2/100, the variance
    2/10000, and the ratio of the two times 252 is produced. *)
Example sharpe_of_two_returns :
  exists x, sharpe_3m (fun x => x) [Num (1 # 100); Num (3 # 100)] = Num x
            /\ x == (2 # 100) / (2 # 10000) * 252.
Proof.
  eexists. split; reflexivity.
Qed.

(** ** Scenarios of the specification *)

Definition rounded (s : Series Date Q) : Series Date Q := map_values Qred s.

(** One ticker held long over two days while the price goes from 100 to
    105: no PnL on day 1, 50 on day 2, a capital base of 1000 and an equity
    of 1050 on day 2. *)
Definition two_day_log : list Position :=
  [ mkPosition 1 "AAA" "AAA" "long" 10 100 (1 # 2) 0;
    mkPosition 2 "AAA" "AAA" "long" 10 105 (1 # 2) 0 ].

Example two_day_long_pnl :
  rounded (daily_long_pnl_all two_day_log) = [(1%Z, 0); (2%Z, 50)].
Proof. reflexivity. Qed.

Example two_day_capital_base :
  option_map Qred (capital_base_all two_day_log) = Some 1000.
Proof. reflexivity. Qed.

Example two_day_equity :
  option_map rounded (equity_all two_day_log) = Some [(1%Z, 1000); (2%Z, 1050)].
Proof. reflexivity. Qed.

(** The same ticker goes from long 10 to short 5 at an unchanged price: no
    PnL on the day of the switch, a quantity change of -15, and a net short
    position. *)
Definition switch_log : list Position :=
  [ mkPosition 1 "AAA" "AAA" "long" 10 100 (1 # 2) 0;
    mkPosition 2 "AAA" "AAA" "short" 5 100 (1 # 2) 0 ].

Example switch_total_pnl :
  rounded (daily_total_pnl_all switch_log) = [(1%Z, 0); (2%Z, 0)].
Proof. reflexivity. Qed.

Example switch_change_report :
  map (fun r => (Qred (quantity_change r), net_type_tdy r)) (merged switch_log 2 1)
  = [(- (15), "net_short"%string)].
Proof. reflexivity. Qed.

(** A window over days 2 and 3 of a three-day log keeps the capital base of
    day 1 and its rebased equity starts at 1. *)
Definition three_day_log : list Position :=
  [ mkPosition 1 "AAA" "AAA" "long" 10 100 (1 # 2) 0;
    mkPosition 2 "AAA" "AAA" "long" 10 105 (1 # 2) 0;
    mkPosition 3 "AAA" "AAA" "long" 10 103 (1 # 2) 0 ].

Example window_keeps_capital_base :
  option_map rounded (equity_window three_day_log (2, 3)%Z)
  = Some [(2%Z, 1050); (3%Z, 1030)].
Proof. reflexivity. Qed.

Example window_rebased_starts_at_one :
  hd NaN (equity_rebased [1050; 1030]) = Num (1050 / 1050)
  /\ 1050 / 1050 == 1.
Proof. split; reflexivity. Qed.

(** * Part III: further properties of the script *)

(** ** Sorting is canonical and stable *)

Section Canonical.
Context {K : Type} `{KeyOrder K}.

Lemma sorted_unique_ext (l1 l2 : list K) :
  StronglySorted klt l1 -> StronglySorted klt l2 ->
  (forall x, In x l1 <-> In x l2) -> l1 = l2.
Proof.
  intros H1. revert l2. induction H1 as [|x l1 Hs1 IH Hall1]; intros l2 H2 Hmem.
  - destruct l2 as [|y l2]; [reflexivity|].
    destruct (proj2 (Hmem y) (or_introl eq_refl)).
  - destruct H2 as [|y l2 Hs2 Hall2].
    + destruct (proj1 (Hmem x) (or_introl eq_refl)).
    + rewrite Forall_forall in Hall1, Hall2.
      assert (Exy : x = y).
      { destruct (proj1 (Hmem x) (or_introl eq_refl)) as [E | Hx]; [now symmetry|].
        destruct (proj2 (Hmem y) (or_introl eq_refl)) as [E | Hy]; [exact E|].
        destruct (klt_asym _ _ (Hall1 y Hy) (Hall2 x Hx)). }
      subst y. f_equal. apply IH; [exact Hs2|].
      intros z. split; intros Hz.
      * destruct (proj1 (Hmem z) (or_intror Hz)) as [E | Hz']; [|exact Hz'].
        subst z. destruct (klt_irrefl x (Hall1 x Hz)).
      * destruct (proj2 (Hmem z) (or_intror Hz)) as [E | Hz']; [|exact Hz'].
        subst z. destruct (klt_irrefl x (Hall2 x Hz)).
Qed.

Lemma unique_sorted_ext (l l' : list K) :
  (forall x, In x l <-> In x l') -> unique_sorted l = unique_sorted l'.
Proof.
  intros Hmem. apply sorted_unique_ext; try apply unique_sorted_sorted.
  intros x. now rewrite !In_unique_sorted.
Qed.
End Canonical.

Section Stability.
Context {R K : Type} `{KeyOrder K} (key : R -> K).

Lemma filter_insert_row (k : K) (x : R) (s : list R) :
  filter (fun r => keqb (key r) k) (insert_row key x s)
  = if keqb (key x) k then x :: filter (fun r => keqb (key r) k) s
    else filter (fun r => keqb (key r) k) s.
Proof.
  induction s as [|y s IH]; simpl; [reflexivity|].
  destruct (kcmp (key x) (key y)) eqn:E; simpl; try reflexivity.
  rewrite IH. destruct (keqb (key x) k) eqn:Ex; [|reflexivity].
  apply keqb_eq in Ex. subst k.
  assert (Ey : keqb (key y) (key x) = false).
  { apply keqb_neq. intros Eq. rewrite Eq, kcmp_refl in E. discriminate. }
  now rewrite Ey.
Qed.

(** Rows with the same key keep their order. *)
Lemma sort_values_stable (k : K) (l : list R) :
  filter (fun r => keqb (key r) k) (sort_values key l)
  = filter (fun r => keqb (key r) k) l.
Proof.
  induction l as [|x l IH]; simpl; [reflexivity|].
  rewrite filter_insert_row, IH. reflexivity.
Qed.

Lemma groupby_filter_sort (p : R -> bool) (l : list R) :
  groupby key (filter p (sort_values key l)) = groupby key (filter p l).
Proof.
  unfold groupby.
  assert (Ek : unique_sorted (map key (filter p (sort_values key l)))
               = unique_sorted (map key (filter p l))).
  { apply unique_sorted_ext. intros k. rewrite !in_map_iff.
    split; intros (r & Hr & Hin); exists r; (split; [exact Hr|]);
      rewrite filter_In in *; rewrite In_sort_values in *; exact Hin. }
  rewrite Ek. apply map_ext. intros k. f_equal.
  rewrite filter_comm, sort_values_stable. apply filter_comm.
Qed.

Lemma groupby_sort (l : list R) :
  groupby key (sort_values key l) = groupby key l.
Proof.
  assert (E : forall m : list R, filter (fun _ => true) m = m).
  { induction m as [|x m IH]; simpl; [reflexivity|]. now rewrite IH. }
  pose proof (groupby_filter_sort (fun _ => true) l) as Hg.
  rewrite !E in Hg. exact Hg.
Qed.
End Stability.

Lemma strongly_sorted_impl {A} (R1 R2 : A -> A -> Prop) (l : list A) :
  (forall a b, R1 a b -> R2 a b) -> StronglySorted R1 l -> StronglySorted R2 l.
Proof.
  intros Himp. induction 1 as [|x l Hs IH Hall]; constructor; [exact IH|].
  eapply Forall_impl; [|exact Hall]. intros b. apply Himp.
Qed.

(** The order of [sort_values(["date", "ticker"])]. *)
Definition by_date_then_ticker (a b : Position) : Prop :=
  (date a < date b)%Z \/ (date a = date b /\ String.leb (ticker a) (ticker b) = true).

Lemma row_le_date_ticker (a b : Position) :
  row_le date_ticker a b -> by_date_then_ticker a b.
Proof.
  unfold row_le, kle, date_ticker, kcmp, pair_KeyCmp, pair_cmp, by_date_then_ticker.
  simpl. unfold kcmp at 1, Z_KeyCmp.
  destruct (Z.compare_spec (date a) (date b)) as [E | Hlt | Hgt].
  - intros Hn. right. split; [exact E|].
    unfold String.leb. unfold kcmp, string_KeyCmp in Hn.
    destruct (String.compare (ticker a) (ticker b)); congruence.
  - intros _. now left.
  - intros Hn. now destruct Hn.
Qed.

(** X1.  [load_data] keeps every row, puts the rows in the order of date,
    then ticker, and leaves the rows of one date and ticker in the order of
    the file. *)
Theorem load_data_sorts_stably (rows : list Position) :
  Permutation rows (load_data rows)
  /\ StronglySorted by_date_then_ticker (load_data rows)
  /\ forall d t, records_on (load_data rows) d t = records_on rows d t.
Proof.
  split; [apply sort_values_perm|]. split.
  - apply strongly_sorted_impl with (R1 := row_le date_ticker).
    + apply row_le_date_ticker.
    + apply (sort_values_sorted date_ticker rows).
  - intros d t. rewrite <- !group_is_records_on.
    apply (sort_values_stable date_ticker (d, t) rows).
Qed.

Lemma price_load_data (rows : list Position) : price (load_data rows) = price rows.
Proof.
  unfold price, load_data. now rewrite (groupby_sort date_ticker rows).
Qed.

Lemma typed_qty_load_data (p : Position -> bool) (rows : list Position) :
  groupby date_ticker (filter p (load_data rows)) = groupby date_ticker (filter p rows).
Proof. apply (groupby_filter_sort date_ticker p rows). Qed.

Lemma forallb_perm {A} (p : A -> bool) (l l' : list A) :
  Permutation l l' -> forallb p l = forallb p l'.
Proof.
  induction 1 as [|x l l' _ IH|x y l|l l' l'' _ IH1 _ IH2]; simpl.
  - reflexivity.
  - now rewrite IH.
  - destruct (p x), (p y); reflexivity.
  - now rewrite IH1.
Qed.

Lemma int64_column_load_data (col : Position -> Q) (rows : list Position) :
  int64_column col (load_data rows) = int64_column col rows.
Proof.
  unfold int64_column, load_data. symmetry. apply forallb_perm, sort_values_perm.
Qed.

(** X2.  The sort of [load_data] changes nothing in the PnL engine: the PnL
    frame, the capital base and the equity curve computed on the loaded log
    are what they are on the rows in the order of the file. *)
Theorem pnl_engine_ignores_file_order (rows : list Position) :
  daily_positions (load_data rows) = daily_positions rows
  /\ capital_base_all (load_data rows) = capital_base_all rows
  /\ equity_all (load_data rows) = equity_all rows.
Proof.
  assert (E : daily_positions (load_data rows) = daily_positions rows).
  { unfold daily_positions, daily_base, long_qty, short_qty.
    now rewrite price_load_data, !typed_qty_load_data. }
  assert (Ec : capital_base_all (load_data rows) = capital_base_all rows).
  { unfold capital_base_all, first_date_all, daily_total_pnl_all,
      long_initial_cap_all, short_initial_cap_all, first_day_all,
      long_qty_int64, short_qty_int64, joined_int64, price_int64,
      long_qty, short_qty.
    now rewrite E, !int64_column_load_data, price_load_data, !typed_qty_load_data. }
  split; [exact E|]. split; [exact Ec|].
  unfold equity_all, daily_total_pnl_all. now rewrite Ec, E.
Qed.

(** ** The dates of the loaded log and the slider *)

Lemma In_unique (y : Date) (l : list Date) : In y (unique l) <-> In y l.
Proof.
  induction l as [|x l IH]; simpl; [tauto|].
  rewrite filter_In, IH, negb_true_iff, Z.eqb_neq.
  destruct (Z.eq_dec x y) as [-> | Hne]; [tauto|].
  split; [tauto|]. intros [E | Hin]; [tauto|]. right. split; [exact Hin|congruence].
Qed.

Lemma strongly_sorted_filter {A} (R : A -> A -> Prop) (p : A -> bool) (l : list A) :
  StronglySorted R l -> StronglySorted R (filter p l).
Proof.
  induction 1 as [|x l Hs IH Hall]; simpl; [constructor|].
  destruct (p x); [|exact IH]. constructor; [exact IH|].
  rewrite Forall_forall in *. intros y Hy. apply Hall.
  apply filter_In in Hy. tauto.
Qed.

Lemma strongly_sorted_map {A B} (f : A -> B) (R : B -> B -> Prop) (l : list A) :
  StronglySorted (fun a b => R (f a) (f b)) l -> StronglySorted R (map f l).
Proof.
  induction 1 as [|x l Hs IH Hall]; simpl; constructor; [exact IH|].
  rewrite Forall_forall in *. intros y Hy.
  apply in_map_iff in Hy. destruct Hy as (a & <- & Ha). now apply Hall.
Qed.

Lemma unique_of_sorted (l : list Date) :
  StronglySorted Z.le l -> StronglySorted klt (unique l).
Proof.
  induction 1 as [|x l Hs IH Hall]; simpl; constructor.
  - now apply strongly_sorted_filter.
  - rewrite Forall_forall in *. intros y Hy.
    apply filter_In in Hy. destruct Hy as (Hy & Hne).
    apply (proj1 (In_unique _ _)) in Hy.
    apply negb_true_iff in Hne. apply (proj1 (Z.eqb_neq _ _)) in Hne.
    apply klt_Z. pose proof (Hall y Hy). lia.
Qed.

Lemma load_data_dates_sorted (rows : list Position) :
  StronglySorted Z.le (map date (load_data rows)).
Proof.
  apply strongly_sorted_map.
  apply strongly_sorted_impl with (R1 := row_le date_ticker).
  - intros a b Hab. apply row_le_date_ticker in Hab.
    destruct Hab as [Hlt | (E & _)]; lia.
  - apply (sort_values_sorted date_ticker rows).
Qed.

Lemma load_data_dates (rows : list Position) (d : Date) :
  In d (map date (load_data rows)) <-> In d (map date rows).
Proof.
  rewrite !in_map_iff. split; intros (r & Hr & Hin); exists r; (split; [exact Hr|]).
  - exact (proj1 (In_sort_values date_ticker r rows) Hin).
  - exact (proj2 (In_sort_values date_ticker r rows) Hin).
Qed.

Lemma all_dates_loaded (rows : list Position) :
  all_dates (load_data rows) = pos_dates rows.
Proof.
  apply sorted_unique_ext.
  - apply unique_of_sorted, load_data_dates_sorted.
  - apply pos_dates_sorted.
  - intros d. unfold all_dates. now rewrite In_unique, load_data_dates, pos_dates_In.
Qed.

Lemma sorted_dates_last_max (l : list Date) (m : Date) :
  StronglySorted klt l -> hd_error (rev l) = Some m ->
  forall x, In x l -> (x <= m)%Z.
Proof.
  intros Hs Hm x Hx.
  destruct (rev l) as [|m' r] eqn:E; [discriminate|]. injection Hm as ->.
  assert (El : l = rev r ++ [m]).
  { rewrite <- (rev_involutive l), E. reflexivity. }
  rewrite El in Hs, Hx.
  destruct (sorted_split _ _ _ _ Hs) as (_ & Hbefore & _).
  apply in_app_or in Hx. destruct Hx as [Hx | [<- | []]]; [|lia].
  pose proof (Hbefore x Hx) as Hlt. klt_to_Z. lia.
Qed.

Lemma slider_ends (rows : list Position) (lo hi : Date) :
  min_date (load_data rows) = Some lo -> max_date (load_data rows) = Some hi ->
  In lo (map date rows) /\ In hi (map date rows)
  /\ forall d, In d (map date rows) -> (lo <= d <= hi)%Z.
Proof.
  unfold min_date, max_date. rewrite all_dates_loaded. intros Hlo Hhi.
  pose proof (pos_dates_sorted rows) as Hs.
  assert (Hinlo : In lo (pos_dates rows)).
  { destruct (pos_dates rows); [discriminate|]. injection Hlo as ->. now left. }
  assert (Hinhi : In hi (pos_dates rows)).
  { apply in_rev. destruct (rev (pos_dates rows)); [discriminate|].
    injection Hhi as ->. now left. }
  split; [now apply pos_dates_In|]. split; [now apply pos_dates_In|].
  intros d Hd. apply pos_dates_In in Hd. split.
  - destruct (pos_dates rows) as [|x l]; [discriminate|]. injection Hlo as ->.
    now apply (sorted_dates_head_min lo l Hs).
  - now apply (sorted_dates_last_max _ hi Hs Hhi).
Qed.

(** X3.  On a loaded log the date list of the slider is the list of the
    distinct dates in increasing order, so that its first and last entries,
    the ends of the slider, are the earliest and the latest date of the
    log. *)
Theorem slider_ends_are_first_and_last_date (rows : list Position) :
  rows <> [] ->
  all_dates (load_data rows) = pos_dates rows
  /\ exists lo hi,
       min_date (load_data rows) = Some lo /\ max_date (load_data rows) = Some hi
       /\ In lo (map date rows) /\ In hi (map date rows)
       /\ forall d, In d (map date rows) -> (lo <= d <= hi)%Z.
Proof.
  intros Hne. split; [apply all_dates_loaded|].
  assert (Hd : pos_dates rows <> []).
  { intros E. apply unique_sorted_nil in E. destruct rows; [now apply Hne|discriminate]. }
  assert (Hlo : exists lo, min_date (load_data rows) = Some lo).
  { unfold min_date. rewrite all_dates_loaded.
    destruct (pos_dates rows) as [|x l]; [now destruct Hd|]. now exists x. }
  assert (Hhi : exists hi, max_date (load_data rows) = Some hi).
  { unfold max_date. rewrite all_dates_loaded.
    destruct (rev (pos_dates rows)) as [|x l] eqn:E; [|now exists x].
    apply (f_equal (@rev Date)) in E. rewrite rev_involutive in E. now destruct Hd. }
  destruct Hlo as (lo & Hlo), Hhi as (hi & Hhi).
  exists lo, hi. split; [exact Hlo|]. split; [exact Hhi|].
  now apply slider_ends.
Qed.

Lemma slider_ends_are_first_and_last_date_witness :
  gap_log <> [] /\ min_date (load_data gap_log) = Some 1%Z
  /\ max_date (load_data gap_log) = Some 3%Z
  /\ all_dates (load_data gap_log) = pos_dates gap_log.
Proof.
  assert (Hne : gap_log <> []) by discriminate.
  split; [exact Hne|]. split; [reflexivity|]. split; [reflexivity|].
  exact (proj1 (slider_ends_are_first_and_last_date gap_log Hne)).
Defined.

Lemma equity_all_index (pos : list Position) (curve : Series Date Q) (d : Date) :
  equity_all pos = Some curve -> (In d (index curve) <-> In d (map date pos)).
Proof.
  unfold equity_all. destruct (capital_base_all pos) as [cb|]; [|discriminate].
  intros [= <-]. rewrite map_values_index, cumsum_index.
  unfold daily_total_pnl_all. rewrite sum_by_date_index, In_unique_sorted.
  apply daily_positions_dates.
Qed.

Lemma filter_all {A} (p : A -> bool) (l : list A) :
  (forall x, In x l -> p x = true) -> filter p l = l.
Proof.
  induction l as [|x l IH]; simpl; [reflexivity|]. intros Hp.
  rewrite (Hp x (or_introl eq_refl)). f_equal. apply IH. intros y Hy. apply Hp. now right.
Qed.

(** X4.  With the slider left at its two ends the window is the whole
    history: the equity curve of the window is the full curve, and so are
    the daily PnL Series. *)
Theorem full_range_window_is_whole_history
    (rows : list Position) (lo hi : Date) (curve : Series Date Q) :
  min_date (load_data rows) = Some lo -> max_date (load_data rows) = Some hi ->
  equity_all (load_data rows) = Some curve ->
  equity_window (load_data rows) (lo, hi) = Some curve
  /\ daily_total_pnl (load_data rows) (lo, hi) = daily_total_pnl_all (load_data rows)
  /\ daily_long_pnl (load_data rows) (lo, hi) = daily_long_pnl_all (load_data rows)
  /\ daily_short_pnl (load_data rows) (lo, hi) = daily_short_pnl_all (load_data rows).
Proof.
  intros Hlo Hhi Hc.
  destruct (slider_ends rows lo hi Hlo Hhi) as (_ & _ & Hb).
  assert (Hin : forall d, In d (map date (load_data rows)) ->
                          mask_window (lo, hi) d = true).
  { intros d Hd. apply (proj1 (load_data_dates rows d)) in Hd. apply Hb in Hd.
    unfold mask_window. simpl. apply andb_true_iff. rewrite !Z.leb_le. lia. }
  assert (Hsum : forall col, loc (lo, hi) (sum_by_date col (daily_positions (load_data rows)))
                             = sum_by_date col (daily_positions (load_data rows))).
  { intros col. apply filter_all. intros [d v] Hdv. simpl. apply Hin.
    apply In_index in Hdv. rewrite sum_by_date_index, In_unique_sorted in Hdv.
    exact (proj1 (daily_positions_dates _ d) Hdv). }
  split.
  - unfold equity_window. rewrite Hc. simpl. f_equal.
    apply filter_all. intros [d e] Hde. simpl. apply Hin.
    apply (equity_all_index _ curve d Hc). eapply In_index; eassumption.
  - repeat split; apply Hsum.
Qed.

Lemma full_range_window_is_whole_history_witness :
  exists curve, equity_all (load_data gap_log) = Some curve
                /\ equity_window (load_data gap_log) (1, 3)%Z = Some curve.
Proof.
  destruct (equity_all (load_data gap_log)) as [curve|] eqn:E; [|discriminate].
  exists curve. split; [reflexivity|].
  exact (proj1 (full_range_window_is_whole_history gap_log 1 3 curve
                  eq_refl eq_refl E)).
Defined.

(** ** The PnL frame and the portfolio Series *)

Lemma daily_row_legs (pos : list Position) (row : DailyRow) :
  In row (daily_positions pos) ->
  exists l s, long_pnl row = Some l /\ short_pnl row = Some s
              /\ total_pnl row = Some (l + s).
Proof.
  intros Hin. apply daily_positions_In in Hin.
  destruct Hin as (b & [p|] & _ & ->); simpl; eauto.
Qed.

Lemma sum_skipna_cons_some (x : Q) (l : list (option Q)) :
  sum_skipna (Some x :: l) = x + sum_skipna l.
Proof. reflexivity. Qed.

Lemma sum_skipna_legs (g : list DailyRow) :
  (forall r, In r g -> exists l s, long_pnl r = Some l /\ short_pnl r = Some s
                                   /\ total_pnl r = Some (l + s)) ->
  sum_skipna (map total_pnl g)
  == sum_skipna (map long_pnl g) + sum_skipna (map short_pnl g).
Proof.
  induction g as [|r g IH]; intros Hg.
  - reflexivity.
  - destruct (Hg r (or_introl eq_refl)) as (l & s & Hl & Hs & Ht).
    simpl map. rewrite Hl, Hs, Ht, !sum_skipna_cons_some.
    rewrite IH by (intros r' Hr'; apply Hg; now right). ring.
Qed.

Lemma sum_by_date_In (col : DailyRow -> option Q) (rows : list DailyRow)
    (d : Date) (v : Q) :
  In (d, v) (sum_by_date col rows) <->
  In d (map dp_date rows)
  /\ v = sum_skipna (map col (filter (fun r => keqb (dp_date r) d) rows)).
Proof.
  apply (grouped_In dp_date (fun g => sum_skipna (map col g)) rows d v).
Qed.

(** X5.  On every date the total PnL of the portfolio is the sum of its
    long leg and its short leg, and the three Series have the same dates. *)
Theorem portfolio_pnl_is_sum_of_legs (pos : list Position) (d : Date) (t : Q) :
  In (d, t) (daily_total_pnl_all pos) ->
  (exists l s, In (d, l) (daily_long_pnl_all pos)
               /\ In (d, s) (daily_short_pnl_all pos) /\ t == l + s)
  /\ index (daily_long_pnl_all pos) = index (daily_total_pnl_all pos)
  /\ index (daily_short_pnl_all pos) = index (daily_total_pnl_all pos).
Proof.
  unfold daily_total_pnl_all, daily_long_pnl_all, daily_short_pnl_all.
  intros Hin. split; [|now rewrite !sum_by_date_index].
  apply sum_by_date_In in Hin. destruct Hin as (Hd & ->).
  eexists. eexists.
  split; [apply sum_by_date_In; split; [exact Hd|reflexivity]|].
  split; [apply sum_by_date_In; split; [exact Hd|reflexivity]|].
  apply sum_skipna_legs. intros r Hr. apply filter_In in Hr.
  apply daily_row_legs with pos. tauto.
Qed.

Lemma index_In_value {K V} (k : K) (s : Series K V) :
  In k (index s) -> exists v, In (k, v) s.
Proof.
  intros Hin. apply in_map_iff in Hin. destruct Hin as ([k' v] & <- & Hin).
  now exists v.
Qed.

Lemma portfolio_pnl_is_sum_of_legs_witness :
  exists t, In (3%Z, t) (daily_total_pnl_all gap_log)
            /\ exists l s, In (3%Z, l) (daily_long_pnl_all gap_log)
                           /\ In (3%Z, s) (daily_short_pnl_all gap_log) /\ t == l + s.
Proof.
  assert (H3 : In 3%Z (index (daily_total_pnl_all gap_log)))
    by (right; right; left; reflexivity).
  destruct (index_In_value _ _ H3) as (t & Ht).
  exists t. split; [exact Ht|].
  exact (proj1 (portfolio_pnl_is_sum_of_legs gap_log 3 t Ht)).
Defined.

Lemma sum_skipna_zero (l : list (option Q)) :
  (forall c, In c l -> c = Some (0 + 0)) -> sum_skipna l == 0.
Proof.
  induction l as [|c l IH]; intros Hl; [reflexivity|].
  rewrite (Hl c (or_introl eq_refl)), sum_skipna_cons_some.
  rewrite IH by (intros c' Hc'; apply Hl; now right). ring.
Qed.

(** X6.  The equity curve starts at the capital base: on the earliest date
    of the log every ticker is at its first record, the total PnL of that
    date is 0 and the equity is the capital base. *)
Theorem equity_starts_at_capital_base (pos : list Position) :
  pos <> [] ->
  exists d0 cb p e pnl curve,
    first_date_all pos = Some d0 /\ capital_base_all pos = Some cb
    /\ daily_total_pnl_all pos = (d0, p) :: pnl /\ p == 0
    /\ equity_all pos = Some ((d0, e) :: curve) /\ e == cb.
Proof.
  intros Hne. destruct (first_date_all_exists pos Hne) as (d0 & Hd0).
  destruct (first_date_all_earliest pos d0 Hd0) as (_ & Hmin).
  assert (Hcb : capital_base_all pos
                = Some (scalar_add
                          (long_qty_int64 pos && short_qty_int64 pos && price_int64 pos)
                          (long_initial_cap_all pos d0) (short_initial_cap_all pos d0)))
    by (unfold capital_base_all; now rewrite Hd0).
  unfold first_date_all in Hd0.
  destruct (daily_total_pnl_all pos) as [|[d p] pnl] eqn:Ep; [discriminate|].
  simpl in Hd0. injection Hd0 as ->.
  assert (Hp : p == 0).
  { assert (Hin : In (d0, p) (daily_total_pnl_all pos)) by (rewrite Ep; now left).
    apply sum_by_date_In in Hin. destruct Hin as (_ & ->).
    apply sum_skipna_zero. intros c Hc. apply in_map_iff in Hc.
    destruct Hc as (row & <- & Hrow). apply filter_In in Hrow.
    destruct Hrow as (Hrow & Hd). apply keqb_eq in Hd.
    destruct (daily_positions_key pos row Hrow) as (_ & pr & Hpair & ->).
    simpl in Hd. rewrite Hd in Hpair.
    rewrite (proj2 (shifted_from pos _ _ pr Hpair)); [reflexivity|].
    intros x (r & Hr & _ & Hx). apply Hmin. apply in_map_iff. now exists r. }
  eexists d0, _, p, _, pnl, _.
  split; [unfold first_date_all; now rewrite Ep|]. split; [exact Hcb|].
  split; [reflexivity|]. split; [exact Hp|].
  split; [unfold equity_all; rewrite Hcb, Ep; reflexivity|].
  cbn [snd].
  generalize (scalar_add
                (long_qty_int64 pos && short_qty_int64 pos && price_int64 pos)
                (long_initial_cap_all pos d0) (short_initial_cap_all pos d0)).
  intros c. lra.
Qed.

Lemma equity_starts_at_capital_base_witness :
  gap_log <> []
  /\ exists cb e curve, capital_base_all gap_log = Some cb
                        /\ equity_all gap_log = Some ((1%Z, e) :: curve) /\ e == cb.
Proof.
  assert (Hne : gap_log <> []) by discriminate.
  split; [exact Hne|].
  destruct (equity_starts_at_capital_base gap_log Hne)
    as (d0 & cb & p & e & pnl & curve & Hd0 & Hcb & _ & _ & He & Hec).
  injection Hd0 as <-.
  now exists cb, e, curve.
Defined.

Lemma strongly_sorted_map_inv {A B} (f : A -> B) (R : B -> B -> Prop) (l : list A) :
  StronglySorted R (map f l) -> StronglySorted (fun a b => R (f a) (f b)) l.
Proof.
  induction l as [|x l IH]; simpl; intros Hs; [constructor|].
  inversion Hs as [|? ? Hs' Hall]; subst. constructor; [now apply IH|].
  rewrite Forall_forall in *. intros y Hy. apply Hall. now apply in_map.
Qed.

Lemma sorted_distinct_strict {R K} `{KeyOrder K} (key : R -> K) (l : list R) :
  StronglySorted (row_le key) l -> NoDup (map key l) ->
  StronglySorted (fun a b => klt (key a) (key b)) l.
Proof.
  induction 1 as [|x l Hs IH Hall]; simpl; intros Hnd; [constructor|].
  inversion Hnd as [|? ? Hni Hnd']; subst. constructor; [now apply IH|].
  rewrite Forall_forall in *. intros y Hy.
  destruct (proj1 (kle_cases _ _) (Hall y Hy)) as [Hlt | E]; [exact Hlt|].
  destruct Hni. rewrite E. now apply in_map.
Qed.

(** The order of [sort_values(["ticker", "date"])] on distinct keys. *)
Definition by_ticker_then_date (a b : DailyRow) : Prop :=
  String.ltb (dp_ticker a) (dp_ticker b) = true
  \/ (dp_ticker a = dp_ticker b /\ (dp_date a < dp_date b)%Z).

Lemma klt_ticker_date (t t' : string) (d d' : Date) :
  klt (t, d) (t', d') -> String.ltb t t' = true \/ (t = t' /\ (d < d')%Z).
Proof.
  unfold klt, kcmp, pair_KeyCmp, pair_cmp. simpl.
  unfold kcmp at 1, string_KeyCmp, String.ltb.
  destruct (String.compare t t') eqn:E; try discriminate.
  - apply String.compare_eq_iff in E. intros Hd. right. split; [exact E|].
    now apply klt_Z.
  - now left.
Qed.

Lemma daily_positions_keys (pos : list Position) :
  map (fun r => (dp_ticker r, dp_date r)) (daily_positions pos)
  = map ticker_date (daily_base pos).
Proof.
  unfold daily_positions. rewrite map_map.
  rewrite <- (shift_by_ticker_fst [] (daily_base pos)) at 2.
  rewrite map_map. reflexivity.
Qed.

(** X7.  The PnL frame has one row for every ticker and date recorded in
    the log, no other row and no two rows for the same ticker and date, in
    the order of ticker, then date. *)
Theorem pnl_frame_has_one_row_per_ticker_and_date (pos : list Position) :
  (forall d t, recorded pos t d <->
               exists row, In row (daily_positions pos)
                           /\ dp_date row = d /\ dp_ticker row = t)
  /\ NoDup (map (fun r => (dp_ticker r, dp_date r)) (daily_positions pos))
  /\ StronglySorted by_ticker_then_date (daily_positions pos).
Proof.
  split; [|split].
  - intros d t. split.
    + intros Hrec. destruct (daily_positions_row pos d t Hrec) as (pr & _ & Hrow).
      eexists. split; [exact Hrow|]. split; reflexivity.
    + intros (row & Hrow & <- & <-). now apply daily_positions_key.
  - rewrite daily_positions_keys. apply daily_base_NoDup.
  - pose proof (sorted_distinct_strict ticker_date (daily_base pos)
                  (daily_base_sorted pos) (daily_base_NoDup pos)) as Hs.
    rewrite <- (shift_by_ticker_fst [] (daily_base pos)) in Hs.
    apply strongly_sorted_map_inv in Hs.
    unfold daily_positions. apply strongly_sorted_map.
    eapply strongly_sorted_impl; [|exact Hs].
    intros [a pa] [b pb] Hab. simpl in Hab.
    apply klt_ticker_date in Hab. exact Hab.
Qed.




(** ** Window statistics: rebasing, returns and the Sharpe ratio *)

Lemma last_map_cons {A B} (f : A -> B) (x : A) (l : list A) (d : A) (d' : B) :
  last (map f (x :: l)) d' = f (last (x :: l) d).
Proof.
  revert x. induction l as [|y l IH]; intros x; [reflexivity|].
  change (last (map f (y :: l)) d' = f (last (y :: l) d)). apply IH.
Qed.

(** X9.  On a window that starts at a nonzero equity the rebased curve
    starts at 1, all its values are numbers, and the total return is
    (last equity / first equity - 1) * 100. *)
Theorem rebased_equity_starts_at_one (e0 : Q) (rest : list Q) :
  ~ e0 == 0 ->
  (exists r rs, equity_rebased (e0 :: rest) = Num r :: rs /\ r == 1
                /\ Forall is_num rs)
  /\ total_return_pct (e0 :: rest)
     = Num ((last (e0 :: rest) e0 / e0 + - (1)) * 100).
Proof.
  intros Hz. pose proof (equity_rebased_nonzero e0 rest Hz) as E. split.
  - rewrite E. simpl. eexists. eexists. split; [reflexivity|].
    split; [field; exact Hz|].
    apply Forall_forall. intros x Hx. apply in_map_iff in Hx.
    destruct Hx as (q & <- & _). now exists q.
  - unfold total_return_pct. rewrite E, map_map.
    rewrite (last_map_cons (fun e => Num (e / e0)) e0 rest e0 NaN). reflexivity.
Qed.

Lemma rebased_equity_starts_at_one_witness :
  ~ 1050 == 0
  /\ total_return_pct [1050; 1030] = Num ((last [1050; 1030] 1050 / 1050 + - (1)) * 100).
Proof.
  assert (Hz : ~ 1050 == 0) by discriminate.
  split; [exact Hz|].
  exact (proj2 (rebased_equity_starts_at_one 1050 [1030] Hz)).
Defined.

(** The returns of a list of values after a first value [p]. *)
Fixpoint returns_from (p : Q) (qs : list Q) : list Q :=
  match qs with
  | [] => []
  | q :: rest => (q / p + - (1)) :: returns_from q rest
  end.

Lemma ffill_nums (seen : fnum) (qs : list Q) :
  ffill_from seen (map Num qs) = map Num qs.
Proof.
  revert seen. induction qs as [|q qs IH]; intros seen; simpl; [reflexivity|].
  now rewrite IH.
Qed.

Lemma pct_change_nums (p : Q) (qs : list Q) :
  ~ p == 0 -> Forall (fun q => ~ q == 0) qs ->
  pct_change_from (Num p) (map Num qs) = map Num (returns_from p qs).
Proof.
  intros Hp Hall. revert p Hp. induction Hall as [|q qs Hq _ IH]; intros p Hp; simpl.
  - reflexivity.
  - rewrite (proj2 (Qzero_false p) Hp). f_equal. now apply IH.
Qed.

Lemma dropna_nums (qs : list Q) : dropna (map Num qs) = map Num qs.
Proof.
  unfold dropna. induction qs as [|q qs IH]; simpl; [reflexivity|]. now rewrite IH.
Qed.

Lemma fdiv_nan_r (a : fnum) : fdiv a NaN = NaN.
Proof. now destruct a. Qed.

Lemma daily_ret_nonzero (e0 : Q) (rest : list Q) :
  Forall (fun e => ~ e == 0) (e0 :: rest) ->
  daily_ret (e0 :: rest)
  = map Num (returns_from (e0 / e0) (map (fun e => e / e0) rest)).
Proof.
  intros Hall. inversion Hall as [|? ? Hz Hrest]; subst.
  unfold daily_ret. rewrite (equity_rebased_nonzero e0 rest Hz).
  unfold pct_change. rewrite ffill_nums. simpl.
  rewrite pct_change_nums.
  - apply dropna_nums.
  - assert (H1 : e0 / e0 == 1) by (field; exact Hz).
    intros E. rewrite H1 in E. discriminate.
  - apply Forall_forall. intros q Hq. apply in_map_iff in Hq.
    destruct Hq as (e & <- & He). rewrite Forall_forall in Hrest.
    intros E. apply (Hrest e He).
    assert (Hm : e == e / e0 * e0) by (field; exact Hz).
    rewrite E in Hm. rewrite Hm. apply Qmult_0_l.
Qed.

Lemma returns_from_nth (p : Q) (qs : list Q) (i : nat) (a b : Q) :
  nth_error (p :: qs) i = Some a -> nth_error (p :: qs) (S i) = Some b ->
  nth_error (returns_from p qs) i = Some (b / a + - (1)).
Proof.
  revert p i. induction qs as [|q qs IH]; intros p i Ha Hb.
  - destruct i; discriminate.
  - destruct i as [|i]; simpl in *.
    + now injection Ha as <-; injection Hb as <-.
    + now apply IH.
Qed.

(** X10.  When no equity value of the window is zero, there is one daily
    return for every date after the first, and it is the equity of the date
    over the equity of the date before, minus 1: rebasing cancels out. *)
Theorem daily_returns_ignore_rebasing (e0 : Q) (rest : list Q) :
  Forall (fun e => ~ e == 0) (e0 :: rest) ->
  List.length (daily_ret (e0 :: rest)) = List.length rest
  /\ forall i a b,
       nth_error (e0 :: rest) i = Some a ->
       nth_error (e0 :: rest) (S i) = Some b ->
       exists r, nth_error (daily_ret (e0 :: rest)) i = Some (Num r)
                 /\ r == b / a - 1.
Proof.
  intros Hall. rewrite (daily_ret_nonzero e0 rest Hall).
  assert (Hz : ~ e0 == 0) by now inversion Hall.
  split.
  - rewrite length_map.
    assert (Hlen : forall p qs, List.length (returns_from p qs) = List.length qs).
    { intros p qs. revert p. induction qs as [|q qs IH]; intros p; simpl; [reflexivity|].
      now rewrite IH. }
    now rewrite Hlen, length_map.
  - intros i a b Ha Hb.
    assert (Ha' : nth_error (e0 / e0 :: map (fun e => e / e0) rest) i = Some (a / e0)).
    { change (e0 / e0 :: map (fun e => e / e0) rest)
        with (map (fun e => e / e0) (e0 :: rest)).
      now rewrite nth_error_map, Ha. }
    assert (Hb' : nth_error (e0 / e0 :: map (fun e => e / e0) rest) (S i)
                  = Some (b / e0)).
    { change (e0 / e0 :: map (fun e => e / e0) rest)
        with (map (fun e => e / e0) (e0 :: rest)).
      now rewrite nth_error_map, Hb. }
    exists (b / e0 / (a / e0) + - (1)). split.
    + rewrite nth_error_map, (returns_from_nth _ _ _ _ _ Ha' Hb'). reflexivity.
    + assert (Hna : ~ a == 0).
      { rewrite Forall_forall in Hall. apply Hall. eapply nth_error_In; eassumption. }
      field. split; assumption.
Qed.

Lemma daily_returns_ignore_rebasing_witness :
  Forall (fun e => ~ e == 0) [100; 110; 99]
  /\ List.length (daily_ret [100; 110; 99]) = 2%nat.
Proof.
  assert (Hall : Forall (fun e => ~ e == 0) [100; 110; 99])
    by (repeat constructor; discriminate).
  split; [exact Hall|].
  exact (proj1 (daily_returns_ignore_rebasing 100 [110; 99] Hall)).
Defined.

Lemma ffill_length (seen : fnum) (l : list fnum) :
  List.length (ffill_from seen l) = List.length l.
Proof.
  revert seen. induction l as [|x l IH]; intros seen; simpl; [reflexivity|].
  destruct (fisnan x); simpl; now rewrite IH.
Qed.

Lemma pct_change_from_length (prev : fnum) (l : list fnum) :
  List.length (pct_change_from prev l) = List.length l.
Proof.
  revert prev. induction l as [|x l IH]; intros prev; simpl; [reflexivity|].
  now rewrite IH.
Qed.

Lemma dropna_length (l : list fnum) : (List.length (dropna l) <= List.length l)%nat.
Proof.
  induction l as [|x l IH]; simpl; [lia|].
  destruct (negb (fisnan x)); simpl; lia.
Qed.

Lemma daily_ret_length (w : list Q) :
  (List.length (daily_ret w) <= pred (List.length w))%nat.
Proof.
  unfold daily_ret, pct_change.
  assert (Hl : List.length (ffill_from NaN (equity_rebased w)) = List.length w).
  { rewrite ffill_length. unfold equity_rebased. destruct w; [reflexivity|].
    apply length_map. }
  destruct (ffill_from NaN (equity_rebased w)) as [|y ys]; simpl in *.
  - lia.
  - rewrite fdiv_nan_r. simpl.
    pose proof (dropna_length (pct_change_from y ys)) as Hd.
    rewrite pct_change_from_length in Hd. rewrite <- Hl. exact Hd.
Qed.

(** X11.  A window of one or two dates has at most one daily return, so
    its Sharpe ratio is NaN and the tile shows N/A. *)
Theorem short_window_has_no_sharpe (sqrtQ : Q -> Q) (w : list Q) :
  (List.length w <= 2)%nat ->
  sharpe_3m sqrtQ (daily_ret w) = NaN
  /\ metric_text (sharpe_3m sqrtQ (daily_ret w)) = NA.
Proof.
  intros Hw. pose proof (daily_ret_length w) as Hl.
  assert (E : sharpe_3m sqrtQ (daily_ret w) = NaN).
  { unfold sharpe_3m.
    destruct (1 <? List.length (daily_ret w))%nat eqn:El; [|reflexivity].
    apply Nat.ltb_lt in El. lia. }
  split; [exact E|now rewrite E].
Qed.

Lemma short_window_has_no_sharpe_witness :
  (List.length [100; 110] <= 2)%nat
  /\ sharpe_3m (fun x => x) (daily_ret [100; 110]) = NaN.
Proof.
  assert (Hw : (List.length [100; 110] <= 2)%nat) by (simpl; lia).
  split; [exact Hw|].
  exact (proj1 (short_window_has_no_sharpe (fun x => x) [100; 110] Hw)).
Defined.

(** ** Window statistics: a curve that never falls *)

Definition zero_num (x : fnum) : Prop := exists d, x = Num d /\ d == 0.

Lemma drawdown_entry_zero (q m : Q) :
  0 < m -> q == m -> zero_num (fsub (fdiv (Num q) (Num m)) (Num 1)).
Proof.
  intros Hm Hq. unfold fdiv.
  assert (Hnz : ~ m == 0) by (intros E; rewrite E in Hm; exact (Qlt_irrefl _ Hm)).
  rewrite (proj2 (Qzero_false m) Hnz).
  exists (q / m + - (1)). split; [reflexivity|]. rewrite Hq. field. exact Hnz.
Qed.

Lemma dd_from_zero (qs : list Q) (m : Q) :
  0 < m -> StronglySorted Qle qs -> (forall q, In q qs -> m <= q) ->
  Forall zero_num
    (map (fun rm => fsub (fdiv (fst rm) (snd rm)) (Num 1))
         (combine (map Num qs) (cummax_from (Num m) (map Num qs)))).
Proof.
  intros Hm Hs. revert m Hm.
  induction Hs as [|q qs Hs IH Hall]; intros m Hm Hge; simpl; [constructor|].
  rewrite Forall_forall in Hall.
  pose proof (Hge q (or_introl eq_refl)) as Hmq.
  unfold fmax_skipna. simpl.
  destruct (negb (Qle_bool q m)) eqn:E.
  - apply Qltb_iff in E. constructor.
    + apply drawdown_entry_zero; [lra|reflexivity].
    + apply IH; [lra|exact Hall].
  - apply Qltb_false in E. constructor.
    + apply drawdown_entry_zero; [exact Hm|lra].
    + apply IH; [exact Hm|]. intros q' Hq'. apply Hge. now right.
Qed.

Lemma fmin_from_zero (l : list fnum) (a : Q) :
  Forall zero_num l -> a == 0 ->
  exists d, fold_left fmin_skipna l (Num a) = Num d /\ d == 0.
Proof.
  revert a. induction l as [|x l IH]; intros a Hall Ha; simpl.
  - now exists a.
  - inversion Hall as [|? ? (d & -> & Hd) Hall']; subst.
    unfold fmin_skipna. simpl.
    destruct (negb (Qle_bool a d)); now apply IH.
Qed.

Lemma Qdiv_le_compat (a b c : Q) : 0 < c -> a <= b -> a / c <= b / c.
Proof.
  intros Hc Hab. unfold Qdiv. apply Qmult_le_compat_r; [exact Hab|].
  apply Qinv_le_0_compat. lra.
Qed.

(** X12.  A window whose equity is positive and never falls from one date
    to the next has a maximum drawdown of 0. *)
Theorem rising_equity_has_no_drawdown (e0 : Q) (rest : list Q) :
  0 < e0 -> StronglySorted Qle (e0 :: rest) ->
  exists d, max_dd (e0 :: rest) = Num d /\ d == 0.
Proof.
  intros Hpos Hs.
  assert (Hz : ~ e0 == 0) by (intros E; rewrite E in Hpos; exact (Qlt_irrefl _ Hpos)).
  inversion Hs as [|? ? Hs' Hall]; subst. rewrite Forall_forall in Hall.
  assert (H1 : e0 / e0 == 1) by (field; exact Hz).
  assert (Hdd : Forall zero_num (dd (e0 :: rest))).
  { unfold dd, rolling_max, cummax.
    rewrite (equity_rebased_nonzero e0 rest Hz). simpl. constructor.
    - apply drawdown_entry_zero; [lra|reflexivity].
    - apply dd_from_zero; [lra| |].
      + apply strongly_sorted_map.
        eapply strongly_sorted_impl; [|exact Hs'].
        intros a b Hab. now apply Qdiv_le_compat.
      + intros q Hq. apply in_map_iff in Hq. destruct Hq as (e & <- & He).
        apply Qdiv_le_compat; [exact Hpos|now apply Hall]. }
  unfold max_dd. destruct (dd (e0 :: rest)) as [|x l] eqn:E.
  - unfold dd, rolling_max, cummax in E.
    rewrite (equity_rebased_nonzero e0 rest Hz) in E. discriminate.
  - inversion Hdd as [|? ? (d & -> & Hd) Hall']; subst.
    unfold fmin. simpl. now apply fmin_from_zero.
Qed.

Lemma rising_equity_has_no_drawdown_witness :
  0 < 100 /\ StronglySorted Qle [100; 100; 105]
  /\ exists d, max_dd [100; 100; 105] = Num d /\ d == 0.
Proof.
  assert (Hpos : 0 < 100) by reflexivity.
  assert (Hs : StronglySorted Qle [100; 100; 105]).
  { repeat constructor; discriminate. }
  split; [exact Hpos|]. split; [exact Hs|].
  exact (rising_equity_has_no_drawdown 100 [100; 105] Hpos Hs).
Defined.

(** ** The window of the equity curve and the cumulative PnL *)

(** From one entry of an equity curve to the next: the equity grows by the
    PnL that [pnl] holds for the date of the second. *)
Definition grows_by (pnl : Series Date Q) (a b : Date * Q) : Prop :=
  exists p, In (fst b, p) pnl /\ snd b == snd a + p.

Lemma hdrel_cumsum_from (cb a : Q) (k : Date) (full rest : Series Date Q) :
  incl rest full ->
  HdRel (grows_by full) (k, cb + a) (map_values (fun c => cb + c) (cumsum_from a rest)).
Proof.
  intros Hincl. destruct rest as [|[k' v'] rest']; simpl; constructor.
  exists v'. simpl. split; [apply Hincl; now left|ring].
Qed.

Lemma sorted_cumsum_from (cb acc : Q) (full s : Series Date Q) :
  incl s full ->
  Sorted (grows_by full) (map_values (fun c => cb + c) (cumsum_from acc s)).
Proof.
  revert acc. induction s as [|[k v] rest IH]; intros acc Hincl; simpl; constructor.
  - apply IH. intros x Hx. apply Hincl. now right.
  - apply hdrel_cumsum_from. intros x Hx. apply Hincl. now right.
Qed.

Lemma sorted_equity (cb : Q) (pnl : Series Date Q) :
  Sorted (grows_by pnl) (map_values (fun c => cb + c) (cumsum pnl)).
Proof.
  destruct pnl as [|[k v] rest]; simpl; constructor.
  - apply sorted_cumsum_from. intros x Hx. now right.
  - apply hdrel_cumsum_from. intros x Hx. now right.
Qed.

Lemma sorted_loc {V} (R : Date * V -> Date * V -> Prop) (date_range : Date * Date)
    (l : Series Date V) :
  Sorted R l -> StronglySorted (fun a b => (fst a < fst b)%Z) l ->
  Sorted R (loc date_range l).
Proof.
  unfold loc. induction l as [|x l IH]; simpl; intros Hs Hd; [constructor|].
  inversion Hs as [|? ? Hs' Hhd]; subst.
  inversion Hd as [|? ? Hd' Hall]; subst.
  destruct (mask_window date_range (fst x)) eqn:Ex; [|now apply IH].
  constructor; [now apply IH|].
  destruct l as [|z l']; simpl; [constructor|].
  inversion Hhd as [|? ? Hxz]; subst.
  destruct (mask_window date_range (fst z)) eqn:Ez; [now constructor|].
  rewrite not_In_filter_nil; [constructor|].
  intros y Hy.
  inversion Hd' as [|? ? _ Hall']; subst. rewrite Forall_forall in Hall, Hall'.
  pose proof (Hall z (or_introl eq_refl)) as Hxz'.
  pose proof (Hall' y Hy) as Hzy.
  unfold mask_window in *.
  apply andb_true_iff in Ex. destruct Ex as (Ex1 & Ex2).
  apply Z.leb_le in Ex1, Ex2.
  apply andb_false_iff in Ez. apply andb_false_iff.
  unfold Date in *.
  destruct Ez as [Ez | Ez]; apply Z.leb_gt in Ez; [exfalso; lia|].
  right. apply Z.leb_gt. lia.
Qed.

Lemma sorted_nth_adjacent {A} (R : A -> A -> Prop) (l : list A) (i : nat) (a b : A) :
  Sorted R l -> nth_error l i = Some a -> nth_error l (S i) = Some b -> R a b.
Proof.
  intros Hs. revert i. induction Hs as [|x l Hs IH Hhd]; intros i Ha Hb.
  - destruct i; discriminate.
  - destruct i as [|i]; simpl in *.
    + injection Ha as <-. destruct l as [|y l']; [discriminate|].
      simpl in Hb. injection Hb as <-. now inversion Hhd.
    + now apply (IH i).
Qed.

Lemma equity_all_dates_sorted (pos : list Position) (curve : Series Date Q) :
  equity_all pos = Some curve ->
  StronglySorted (fun a b => (fst a < fst b)%Z) curve.
Proof.
  intros Hc.
  assert (Hidx : index curve = unique_sorted (map dp_date (daily_positions pos))).
  { unfold equity_all in Hc. destruct (capital_base_all pos); [|discriminate].
    injection Hc as <-. rewrite map_values_index, cumsum_index.
    apply sum_by_date_index. }
  pose proof (unique_sorted_sorted (map dp_date (daily_positions pos))) as Hs.
  rewrite <- Hidx in Hs. unfold index in Hs.
  apply strongly_sorted_map_inv in Hs.
  eapply strongly_sorted_impl; [|exact Hs].
  intros a b Hab. now apply klt_Z.
Qed.

(** X13.  Inside any window the equity still grows, from one date of the
    window to the next, by the total PnL the window shows for that next
    date. *)
Theorem window_equity_grows_by_daily_pnl
    (pos : list Position) (date_range : Date * Date) (w : Series Date Q)
    (i : nat) (d1 d2 : Date) (e1 e2 : Q) :
  equity_window pos date_range = Some w ->
  nth_error w i = Some (d1, e1) -> nth_error w (S i) = Some (d2, e2) ->
  exists p, In (d2, p) (daily_total_pnl pos date_range) /\ e2 == e1 + p.
Proof.
  unfold equity_window. destruct (equity_all pos) as [curve|] eqn:Hc; [|discriminate].
  intros [= <-] H1 H2.
  pose proof (equity_all_dates_sorted pos curve Hc) as Hd.
  assert (Hs : Sorted (grows_by (daily_total_pnl_all pos)) curve).
  { unfold equity_all in Hc. destruct (capital_base_all pos) as [cb|]; [|discriminate].
    injection Hc as <-. apply sorted_equity. }
  pose proof (sorted_loc _ date_range curve Hs Hd) as Hw.
  destruct (sorted_nth_adjacent _ _ _ _ _ Hw H1 H2) as (p & Hp & He).
  simpl in Hp, He. exists p. split; [|exact He].
  apply loc_In. split; [exact Hp|].
  apply nth_error_In in H2. apply loc_In in H2. tauto.
Qed.

Lemma window_equity_grows_by_daily_pnl_witness :
  exists w e1 e2,
    equity_window gap_log (2, 3)%Z = Some w
    /\ nth_error w 0 = Some (2%Z, e1) /\ nth_error w 1 = Some (3%Z, e2)
    /\ exists p, In (3%Z, p) (daily_total_pnl gap_log (2, 3)%Z) /\ e2 == e1 + p.
Proof.
  destruct (equity_window gap_log (2, 3)%Z) as [w|] eqn:E; [|discriminate].
  destruct w as [|[d1 e1] [|[d2 e2] w']]; try discriminate.
  assert (Hd : d1 = 2%Z /\ d2 = 3%Z).
  { vm_compute in E. injection E as -> _ -> _ _. split; reflexivity. }
  destruct Hd as (-> & ->).
  exists ((2%Z, e1) :: (3%Z, e2) :: w'), e1, e2.
  split; [reflexivity|]. split; [reflexivity|]. split; [reflexivity|].
  exact (window_equity_grows_by_daily_pnl gap_log (2, 3)%Z _ 0 2 3 e1 e2
           E eq_refl eq_refl).
Defined.

Lemma cumsum_from_legs {X} (k : X -> Date) (ft fl fs : X -> Q) (G : list X)
    (a_t a_l a_s : Q) (i : nat) (d : Date) (c : Q) :
  a_t == a_l + a_s -> (forall x, In x G -> ft x == fl x + fs x) ->
  nth_error (cumsum_from a_t (map (fun x => (k x, ft x)) G)) i = Some (d, c) ->
  exists cl cs,
    nth_error (cumsum_from a_l (map (fun x => (k x, fl x)) G)) i = Some (d, cl)
    /\ nth_error (cumsum_from a_s (map (fun x => (k x, fs x)) G)) i = Some (d, cs)
    /\ c == cl + cs.
Proof.
  revert a_t a_l a_s i. induction G as [|x G IH]; intros a_t a_l a_s i Ha HG; simpl.
  - destruct i; discriminate.
  - pose proof (HG x (or_introl eq_refl)) as Hx.
    destruct i as [|i]; simpl.
    + intros [= <- <-]. eexists. eexists.
      split; [reflexivity|]. split; [reflexivity|]. rewrite Ha, Hx. ring.
    + apply IH; [rewrite Ha, Hx; ring|]. intros y Hy. apply HG. now right.
Qed.

Lemma cumsum_legs {X} (k : X -> Date) (ft fl fs : X -> Q) (G : list X)
    (i : nat) (d : Date) (c : Q) :
  (forall x, In x G -> ft x == fl x + fs x) ->
  nth_error (cumsum (map (fun x => (k x, ft x)) G)) i = Some (d, c) ->
  exists cl cs,
    nth_error (cumsum (map (fun x => (k x, fl x)) G)) i = Some (d, cl)
    /\ nth_error (cumsum (map (fun x => (k x, fs x)) G)) i = Some (d, cs)
    /\ c == cl + cs.
Proof.
  intros HG. destruct G as [|x G]; simpl.
  - destruct i; discriminate.
  - pose proof (HG x (or_introl eq_refl)) as Hx.
    destruct i as [|i]; simpl.
    + intros [= <- <-]. eexists. eexists.
      split; [reflexivity|]. split; [reflexivity|]. exact Hx.
    + apply cumsum_from_legs; [exact Hx|]. intros y Hy. apply HG. now right.
Qed.

Lemma loc_sum_by_date (col : DailyRow -> option Q) (rows : list DailyRow)
    (date_range : Date * Date) :
  loc date_range (sum_by_date col rows)
  = map (fun kg => (fst kg, sum_skipna (map col (snd kg))))
        (filter (fun kg => mask_window date_range (fst kg)) (groupby dp_date rows)).
Proof.
  unfold loc, sum_by_date. rewrite filter_map_comm. reflexivity.
Qed.

(** X14.  Date by date, the cumulative total PnL of a window is the sum of
    the cumulative PnL of its long leg and of its short leg; and over a
    nonzero starting equity the percentage shown is that cumulative PnL
    over the starting equity, times 100. *)
Theorem cumulative_pnl_is_sum_of_legs
    (pos : list Position) (date_range : Date * Date) (i : nat) (d : Date) (c : Q) :
  nth_error (cum_total_pnl pos date_range) i = Some (d, c) ->
  (exists cl cs,
     nth_error (cum_long_pnl pos date_range) i = Some (d, cl)
     /\ nth_error (cum_short_pnl pos date_range) i = Some (d, cs)
     /\ c == cl + cs)
  /\ forall e0, equity0_window pos date_range = Some e0 -> ~ e0 == 0 ->
       cum_total_pnl_pct_leg pos date_range
       = Some (map_values (fun x => Num (x / e0 * 100)) (cum_total_pnl pos date_range)).
Proof.
  intros Hc. split.
  - unfold cum_total_pnl, cum_long_pnl, cum_short_pnl,
      daily_total_pnl, daily_long_pnl, daily_short_pnl,
      daily_total_pnl_all, daily_long_pnl_all, daily_short_pnl_all in *.
    rewrite !loc_sum_by_date. rewrite loc_sum_by_date in Hc.
    set (G := filter (fun kg => mask_window date_range (fst kg))
                     (groupby dp_date (daily_positions pos))) in *.
    assert (HG : forall x, In x G ->
                   sum_skipna (map total_pnl (snd x))
                   == sum_skipna (map long_pnl (snd x))
                      + sum_skipna (map short_pnl (snd x))).
    { intros [k g] Hkg. simpl. apply sum_skipna_legs.
      apply filter_In in Hkg. destruct Hkg as (Hkg & _).
      intros r Hr. apply daily_row_legs with pos.
      exact (proj1 (proj1 (groupby_group_rows dp_date k g _ r Hkg) Hr)). }
    exact (cumsum_legs fst (fun kg => sum_skipna (map total_pnl (snd kg)))
             (fun kg => sum_skipna (map long_pnl (snd kg)))
             (fun kg => sum_skipna (map short_pnl (snd kg))) G i d c HG Hc).
  - intros e0 He0 Hz. unfold cum_total_pnl_pct_leg. rewrite He0. simpl. f_equal.
    unfold pct_of, map_values. apply map_ext. intros [k v]. simpl.
    unfold fdiv. now rewrite (proj2 (Qzero_false e0) Hz).
Qed.

Lemma cumulative_pnl_is_sum_of_legs_witness :
  exists c, nth_error (cum_total_pnl gap_log (2, 3)%Z) 1 = Some (3%Z, c)
            /\ exists cl cs,
                 nth_error (cum_long_pnl gap_log (2, 3)%Z) 1 = Some (3%Z, cl)
                 /\ nth_error (cum_short_pnl gap_log (2, 3)%Z) 1 = Some (3%Z, cs)
                 /\ c == cl + cs.
Proof.
  destruct (nth_error (cum_total_pnl gap_log (2, 3)%Z) 1) as [[d c]|] eqn:E;
    [|discriminate].
  assert (Hd : d = 3%Z) by (vm_compute in E; now injection E as <- _).
  subst d. exists c. split; [reflexivity|].
  exact (proj1 (cumulative_pnl_is_sum_of_legs gap_log (2, 3)%Z 1 3 c E)).
Defined.

(** ** The page: empty window and inspected date *)

Definition NO_EQUITY_DATA : string :=
  "No equity data in selected date range (check positions_log).".

Lemma equity_all_exists (pos : list Position) :
  pos <> [] -> exists curve, equity_all pos = Some curve.
Proof.
  intros Hne. destruct (first_date_all_exists pos Hne) as (d0 & Hd0).
  unfold equity_all, capital_base_all. rewrite Hd0. eauto.
Qed.

(** X15.  On a log that is not empty, the page is the error message alone,
    with no metric, table or chart after it, exactly when no date of the
    log lies in the selected range. *)
Theorem empty_window_shows_only_the_error
    (sqrtQ : Q -> Q) (tie_changes : MergedRow -> Z) (tie_positions : DisplayRow -> Z)
    (pos : list Position) (date_range : Date * Date) (clicked : option Date) :
  pos <> [] ->
  (page sqrtQ tie_changes tie_positions pos date_range clicked
   = Some [st_error NO_EQUITY_DATA]
   <-> forall d, In d (map date pos) -> mask_window date_range d = false).
Proof.
  intros Hne. destruct (equity_all_exists pos Hne) as (curve & Hc).
  unfold page, equity_window. rewrite Hc. simpl.
  destruct (loc date_range curve) as [|[d0 e0] rest] eqn:El.
  - split; [|reflexivity]. intros _ d Hd.
    apply (equity_all_index pos curve d Hc) in Hd.
    destruct (index_In_value _ _ Hd) as (e & He).
    destruct (mask_window date_range d) eqn:Em; [|reflexivity].
    assert (Hin : In (d, e) (loc date_range curve)).
    { unfold loc. apply filter_In. now split. }
    rewrite El in Hin. destruct Hin.
  - split; [discriminate|]. intros Hout. exfalso.
    assert (Hin : In (d0, e0) (loc date_range curve)) by (rewrite El; now left).
    unfold loc in Hin. apply filter_In in Hin. destruct Hin as (Hin & Hm).
    simpl in Hm. rewrite Hout in Hm; [discriminate|].
    apply (equity_all_index pos curve d0 Hc). eapply In_index; eassumption.
Qed.

Lemma empty_window_shows_only_the_error_witness :
  gap_log <> []
  /\ page (fun x => x) (fun _ => 0%Z) (fun _ => 0%Z) gap_log (7, 9)%Z None
     = Some [st_error NO_EQUITY_DATA].
Proof.
  assert (Hne : gap_log <> []) by discriminate.
  split; [exact Hne|].
  apply (proj2 (empty_window_shows_only_the_error
                  (fun x => x) (fun _ => 0%Z) (fun _ => 0%Z) gap_log (7, 9)%Z None Hne)).
  simpl. intros d [<- | [<- | [<- | [<- | []]]]]; reflexivity.
Defined.

Lemma nearest_date_spec (c best : Date) (l : list Date) :
  In (nearest_date c best l) (best :: l)
  /\ forall d, In d (best :: l) ->
       (Z.abs (nearest_date c best l - c) <= Z.abs (d - c))%Z.
Proof.
  revert best. induction l as [|x l IH]; intros best; simpl.
  - split; [now left|]. intros d [<- | []]. lia.
  - destruct (Z.abs (x - c) <? Z.abs (best - c))%Z eqn:E.
    + apply Z.ltb_lt in E. destruct (IH x) as (Hin & Hmin). split.
      * destruct Hin as [Hin | Hin]; [right; now left|right; now right].
      * intros d [<- | [<- | Hd]].
        -- pose proof (Hmin x (or_introl eq_refl)). lia.
        -- apply Hmin. now left.
        -- apply Hmin. now right.
    + apply Z.ltb_ge in E. destruct (IH best) as (Hin & Hmin). split.
      * destruct Hin as [Hin | Hin]; [now left|right; now right].
      * intros d [<- | [<- | Hd]].
        -- apply Hmin. now left.
        -- pose proof (Hmin best (or_introl eq_refl)). lia.
        -- apply Hmin. now right.
Qed.

Lemma last_nonempty_In (l : list Date) (d : Date) : l <> [] -> In (last l d) l.
Proof.
  induction l as [|x l IH]; [congruence|]. intros _.
  destruct l as [|y l']; [now left|].
  right. apply IH. discriminate.
Qed.

Lemma last_In (d0 : Date) (rest : list Date) : In (last rest d0) (d0 :: rest).
Proof.
  destruct rest as [|x rest]; [now left|].
  right. apply last_nonempty_In. discriminate.
Qed.

(** X16.  The inspected date is always a date of the window: the last one
    when nothing is clicked, otherwise a date of the window closest to the
    clicked date, so that clicking a date of the window selects it. *)
Theorem inspect_date_is_nearest_window_date
    (d0 : Date) (rest : list Date) (clicked : option Date) :
  In (inspect_date d0 rest clicked) (d0 :: rest)
  /\ (clicked = None -> inspect_date d0 rest clicked = last (d0 :: rest) d0)
  /\ (forall c, clicked = Some c ->
        (forall d, In d (d0 :: rest) ->
           (Z.abs (inspect_date d0 rest clicked - c) <= Z.abs (d - c))%Z)
        /\ (In c (d0 :: rest) -> inspect_date d0 rest clicked = c)).
Proof.
  split; [|split].
  - destruct clicked as [c|]; simpl.
    + apply nearest_date_spec.
    + apply last_In.
  - intros ->. simpl. now destruct rest.
  - intros c ->. simpl.
    destruct (nearest_date_spec c d0 rest) as (_ & Hmin).
    split; [exact Hmin|].
    intros Hc. pose proof (Hmin c Hc). lia.
Qed.

(** ** The change report, row by row *)

(** The records of a ticker on a date. *)
Definition held_on (pos : list Position) (d : Date) (t : string) : list Position :=
  filter (fun r => keqb (ticker r) t) (on_date pos d).

Lemma held_on_nonempty (pos : list Position) (d : Date) (t : string) :
  (exists r, In r pos /\ date r = d /\ ticker r = t) ->
  In t (map ticker (on_date pos d)).
Proof.
  intros (r & Hin & Hd & Ht). apply in_map_iff. exists r.
  split; [exact Ht|]. now apply on_date_In.
Qed.

Lemma prev_agg_get (pos : list Position) (P : Date) (t : string) :
  In t (map ticker (on_date pos P)) ->
  series_get t (prev_agg (on_date pos P))
  = Some (mkPrevAgg (agg_sum qty_signed (held_on pos P t))
            (agg_last price_today (held_on pos P t))
            (agg_sum delta_signed (held_on pos P t))
            (agg_sum vega_signed (held_on pos P t))
            (agg_sum mv_signed (held_on pos P t))).
Proof.
  intros Hin.
  apply (grouped_get_Some ticker
           (fun g => mkPrevAgg (agg_sum qty_signed g) (agg_last price_today g)
                       (agg_sum delta_signed g) (agg_sum vega_signed g)
                       (agg_sum mv_signed g)) (on_date pos P) t Hin).
Qed.

(** X17.  For a ticker held on the inspection date and on the date before,
    the row of the change report takes its quantities, deltas and vegas as
    the sums of the signed values of the ticker's records on each date and
    its prices as those of the last record; the changes are today minus
    before, and value_change is the quantity held before times the change
    in price. *)
Theorem held_ticker_change_row (pos : list Position) (D P : Date) (t : string) :
  (exists r, In r pos /\ date r = D /\ ticker r = t) ->
  (exists r, In r pos /\ date r = P /\ ticker r = t) ->
  exists row p_tdy p_prv,
    In row (merged pos D P) /\ Ticker row = t
    /\ qty_tdy row = agg_sum qty_signed (held_on pos D t)
    /\ qty_prv row = agg_sum qty_signed (held_on pos P t)
    /\ agg_last price_today (held_on pos D t) = Some p_tdy
    /\ agg_last price_today (held_on pos P t) = Some p_prv
    /\ price_change row = Some (p_tdy - p_prv)
    /\ quantity_change row = qty_tdy row - qty_prv row
    /\ delta_change row
       = agg_sum delta_signed (held_on pos D t) - agg_sum delta_signed (held_on pos P t)
    /\ vega_change row
       = agg_sum vega_signed (held_on pos D t) - agg_sum vega_signed (held_on pos P t)
    /\ value_change row = Some (qty_prv row * (p_tdy - p_prv)).
Proof.
  intros HD HP.
  apply held_on_nonempty in HD. apply held_on_nonempty in HP.
  assert (HgD : In (t, held_on pos D t) (groupby ticker (on_date pos D)))
    by (apply In_groupby; now split).
  assert (HgP : In (t, held_on pos P t) (groupby ticker (on_date pos P)))
    by (apply In_groupby; now split).
  destruct (agg_last_nonempty price_today _ (groupby_group_nonempty _ _ _ _ HgD))
    as (p_tdy & Htdy).
  destruct (agg_last_nonempty price_today _ (groupby_group_nonempty _ _ _ _ HgP))
    as (p_prv & Hprv).
  exists (merged_row t
            (mkTodayAgg (agg_last underlying (held_on pos D t))
               (agg_sum qty_signed (held_on pos D t))
               (agg_last price_today (held_on pos D t))
               (agg_sum delta_signed (held_on pos D t))
               (agg_sum vega_signed (held_on pos D t))
               (agg_sum mv_signed (held_on pos D t)))
            (series_get t (prev_agg (on_date pos P)))).
  exists p_tdy, p_prv. split.
  - apply merged_rows. exists (held_on pos D t). split; [exact HgD|reflexivity].
  - rewrite (prev_agg_get pos P t HP). unfold merged_row. simpl.
    rewrite Htdy, Hprv. simpl. repeat split.
Qed.

Lemma held_ticker_change_row_witness :
  (exists r, In r gap_log /\ date r = 2%Z /\ ticker r = "BBB"%string)
  /\ (exists r, In r gap_log /\ date r = 1%Z /\ ticker r = "BBB"%string)
  /\ exists row, In row (merged gap_log 2 1) /\ Ticker row = "BBB"%string
                 /\ quantity_change row = qty_tdy row - qty_prv row.
Proof.
  assert (H2 : exists r, In r gap_log /\ date r = 2%Z /\ ticker r = "BBB"%string).
  { exists (mkPosition 2 "BBB" "BBB" "short" 5 22 (1 # 2) 0). simpl. tauto. }
  assert (H1 : exists r, In r gap_log /\ date r = 1%Z /\ ticker r = "BBB"%string).
  { exists (mkPosition 1 "BBB" "BBB" "short" 5 20 (1 # 2) 0). simpl. tauto. }
  split; [exact H2|]. split; [exact H1|].
  destruct (held_ticker_change_row gap_log 2 1 "BBB" H2 H1)
    as (row & _ & _ & Hin & Ht & _ & _ & _ & _ & _ & Hq & _).
  now exists row.
Defined.

Lemma Qlt_bool_iff (x y : Q) : negb (Qle_bool y x) = true <-> x < y.
Proof. apply Qgt_bool. Qed.

(** X18.  The change report has one row for each ticker held on the
    inspection date, in ticker order, whatever was held the day before; and
    the net type of a row is net_long, net_short or flat as the signed
    quantity of the ticker today is positive, negative or zero. *)
Theorem change_report_has_one_row_per_ticker (pos : list Position) (D P : Date) :
  map Ticker (merged pos D P) = unique_sorted (map ticker (on_date pos D))
  /\ NoDup (map Ticker (merged pos D P))
  /\ forall row, In row (merged pos D P) ->
       qty_tdy row = agg_sum qty_signed (held_on pos D (Ticker row))
       /\ (net_type_tdy row = "net_long"%string <-> 0 < qty_tdy row)
       /\ (net_type_tdy row = "net_short"%string <-> qty_tdy row < 0)
       /\ (net_type_tdy row = "flat"%string <-> qty_tdy row == 0).
Proof.
  assert (E : map Ticker (merged pos D P) = unique_sorted (map ticker (on_date pos D))).
  { unfold merged, today_agg. rewrite !map_map. simpl.
    apply (groupby_index ticker (on_date pos D)). }
  split; [exact E|]. split; [rewrite E; apply unique_sorted_NoDup|].
  intros row Hrow. apply merged_rows in Hrow. destruct Hrow as (g & Hg & Erow).
  apply In_groupby in Hg. destruct Hg as (_ & Eg).
  assert (Hq : qty_tdy row = agg_sum qty_signed g) by (rewrite Erow; reflexivity).
  assert (Hn : net_type_tdy row = classify_net_type (qty_tdy row))
    by (rewrite Erow; reflexivity).
  split; [rewrite Hq, Eg; reflexivity|].
  rewrite Hn. generalize (qty_tdy row). intros q. unfold classify_net_type.
  destruct (negb (Qle_bool q 0)) eqn:E1.
  - apply Qlt_bool_iff in E1.
    repeat split; intros; try discriminate; try assumption; try reflexivity; exfalso; lra.
  - apply Qltb_false in E1. destruct (negb (Qle_bool 0 q)) eqn:E2.
    + apply Qlt_bool_iff in E2.
      repeat split; intros; try discriminate; try assumption; try reflexivity;
        exfalso; lra.
    + apply Qltb_false in E2.
      repeat split; intros; try discriminate; try reflexivity; try lra; exfalso; lra.
Qed.

Section SortAnyOrder.
Context {R K : Type} (cmp : KeyCmp K) (key : R -> K).
Hypothesis cmp_trans :
  forall a b c : K, cmp a b <> Gt -> cmp b c <> Gt -> cmp a c <> Gt.
Hypothesis cmp_total : forall a b : K, cmp a b = Gt -> cmp b a <> Gt.

Lemma insert_row_sorted_any (r : R) (l : list R) :
  StronglySorted (fun a b => cmp (key a) (key b) <> Gt) l ->
  StronglySorted (fun a b => cmp (key a) (key b) <> Gt) (@insert_row R K cmp key r l).
Proof.
  induction 1 as [|x xs Hs IH Hall]; simpl.
  - constructor; constructor.
  - unfold kcmp. destruct (cmp (key r) (key x)) eqn:E.
    + constructor; [now constructor|].
      assert (Hrx : cmp (key r) (key x) <> Gt) by congruence.
      constructor; [exact Hrx|].
      rewrite Forall_forall in *. intros y Hy.
      apply cmp_trans with (key x); [exact Hrx|now apply Hall].
    + constructor; [now constructor|].
      assert (Hrx : cmp (key r) (key x) <> Gt) by congruence.
      constructor; [exact Hrx|].
      rewrite Forall_forall in *. intros y Hy.
      apply cmp_trans with (key x); [exact Hrx|now apply Hall].
    + constructor; [exact IH|].
      rewrite Forall_forall in *. intros y Hy.
      apply (Permutation_in y (Permutation_sym (@insert_row_perm R K cmp key r xs))) in Hy.
      destruct Hy as [<- | Hy]; [now apply cmp_total|now apply Hall].
Qed.

Lemma sort_values_sorted_any (l : list R) :
  StronglySorted (fun a b => cmp (key a) (key b) <> Gt) (@sort_values R K cmp key l).
Proof.
  induction l; simpl; [constructor|]. now apply insert_row_sorted_any.
Qed.
End SortAnyOrder.

(** [a] comes before [b] in the descending order of [value_change]. *)
Definition value_change_ge (a b : MergedRow) : Prop :=
  match value_change a, value_change b with
  | Some x, Some y => y <= x
  | _, None => True
  | None, Some _ => False
  end.

Lemma value_change_desc_trans (a b c : option Q) :
  value_change_desc a b <> Gt -> value_change_desc b c <> Gt ->
  value_change_desc a c <> Gt.
Proof.
  destruct a as [x|], b as [y|], c as [z|]; simpl; try congruence.
  rewrite <- !Qle_alt. intros H1 H2. lra.
Qed.

Lemma value_change_desc_total (a b : option Q) :
  value_change_desc a b = Gt -> value_change_desc b a <> Gt.
Proof.
  destruct a as [x|], b as [y|]; simpl; try congruence.
  rewrite <- Qgt_alt, <- Qle_alt. intros H1. lra.
Qed.

(** X19.  The table of the change report shows the rows of the report, all
    of them and no other, from the greatest value_change down to the least,
    rows without a value_change last, whatever order the sort leaves rows
    of equal value_change in. *)
Theorem change_table_is_sorted_by_value_change
    (tie : MergedRow -> Z) (pos : list Position) (D P : Date) :
  Permutation (merged pos D P) (merged_sorted tie pos D P)
  /\ StronglySorted value_change_ge (merged_sorted tie pos D P).
Proof.
  split.
  - apply sort_values_quicksort_perm.
  - pose proof (sort_values_sorted_any value_change_desc value_change
                  value_change_desc_trans value_change_desc_total
                  (sort_values tie (merged pos D P))) as Hs.
    unfold merged_sorted, sort_values_quicksort.
    eapply strongly_sorted_impl; [|exact Hs].
    intros a b. unfold value_change_ge.
    destruct (value_change a) as [x|], (value_change b) as [y|]; simpl; try congruence.
    + now rewrite <- Qle_alt.
    + tauto.
    + tauto.
Qed.

(** ** The positions table *)

(** The row of the table for one record of the log. *)
Definition display_row (pos : list Position) (r : Position) : DisplayRow :=
  mkDisplayRow (ticker r) (underlying r) (type r) (quantity r) (price_today r)
               (delta_signed r) (vega_signed r) (mv pos r).

Lemma string_leb_kle (a b : string) : kle a b -> String.leb a b = true.
Proof.
  unfold kle, kcmp, string_KeyCmp, String.leb.
  destruct (String.compare a b); congruence.
Qed.

Lemma float_column_product (pos : list Position) (r : Position) :
  In r pos ->
  is_whole (price_today r) = false \/ is_whole (quantity r) = false ->
  int64_column price_today pos && int64_column quantity pos = false.
Proof.
  intros Hin Hw. apply andb_false_iff.
  destruct Hw as [Hw | Hw]; [left | right];
    unfold int64_column;
    (destruct (forallb _ pos) eqn:E; [|reflexivity]);
    rewrite forallb_forall in E; specialize (E r Hin);
    unfold in_int64 in E; rewrite Hw in E; discriminate E.
Qed.

(** X20.  The positions table has one row for every record of the
    inspected date, in the order of the underlying, whatever order the sort
    leaves the rows of one underlying in.  A row shows the quantity and the
    price as they are in the log, and the delta and vega with the sign of
    the position: negated for a short, unchanged for any other type.  Its
    mv is the unsigned product of price and quantity when that product is
    in the 64-bit range or one of the two columns holds a number that is
    not whole; on two integer columns it is that product wrapped around at
    64 bits. *)
Theorem positions_table_rows (tie : DisplayRow -> Z) (pos : list Position) (D : Date) :
  Permutation (map (display_row pos) (on_date pos D)) (pos_today tie pos D)
  /\ StronglySorted
       (fun a b => String.leb (d_underlying a) (d_underlying b) = true)
       (pos_today tie pos D)
  /\ forall row, In row (pos_today tie pos D) ->
       exists r, In r pos /\ date r = D /\ row = display_row pos r
                 /\ d_quantity row = quantity r
                 /\ d_price_today row = price_today r
                 /\ (fits_int64 (price_today r * quantity r) ->
                     d_mv row == price_today r * quantity r)
                 /\ ((exists r', In r' pos
                                 /\ (is_whole (price_today r') = false
                                     \/ is_whole (quantity r') = false)) ->
                     d_mv row = price_today r * quantity r)
                 /\ (int64_column price_today pos && int64_column quantity pos = true ->
                     d_mv row = wrap_int64 (price_today r * quantity r))
                 /\ (type r = "short"%string ->
                     d_delta row == - delta r /\ d_vega row == - vega r)
                 /\ (type r <> "short"%string ->
                     d_delta row == delta r /\ d_vega row == vega r).
Proof.
  split; [apply sort_values_quicksort_perm|]. split.
  - unfold pos_today, sort_values_quicksort.
    eapply strongly_sorted_impl; [|apply (sort_values_sorted d_underlying)].
    intros a b. apply string_leb_kle.
  - intros row Hrow. unfold pos_today in Hrow.
    apply (proj1 (In_sort_values_quicksort _ tie d_underlying row _)) in Hrow.
    apply in_map_iff in Hrow. destruct Hrow as (r & <- & Hr).
    apply on_date_In in Hr. destruct Hr as (Hr & Hd).
    exists r. split; [exact Hr|]. split; [exact Hd|]. split; [reflexivity|].
    split; [reflexivity|]. split; [reflexivity|]. cbn [d_mv d_delta d_vega].
    unfold mv, col_mul. split.
    { intros Hfit.
      destruct (int64_column price_today pos && int64_column quantity pos);
        [now apply wrap_int64_fits|reflexivity]. }
    split.
    { intros (r' & Hr' & Hw).
      rewrite (float_column_product pos r' Hr' Hw). reflexivity. }
    split; [intros ->; reflexivity|].
    unfold delta_signed, vega_signed, sign. split.
    + intros ->. simpl. split; ring.
    + intros Hns. apply String.eqb_neq in Hns. rewrite Hns. split; ring.
Qed.

(** The record of four thousand million contracts at a price of four
    thousand million shows a negative mv. *)
Example big_notional_mv :
  map (fun row => Qred (d_mv row)) (pos_today (fun _ => 0%Z) big_notional_log 1)
  = [ -2446744073709551616 ].
Proof. reflexivity. Qed.

(** ** Net exposures and the delta-hedge flag *)

Lemma on_date_group (pos : list Position) (D : Date) :
  filter (fun r => keqb (date r) D) pos = on_date pos D.
Proof. apply filter_ext. intros r. apply keqb_Z. Qed.

(** X21.  The exposure table has one row for every date of the log, in
    increasing date order, whatever dates the two hedge Series have; the net
    delta and net vega of a date are the sums, over the records of the date,
    of delta and vega times the signed quantity. *)
Theorem exposure_table_has_one_row_per_date (pos : list Position) :
  index (net_greeks_df pos) = pos_dates pos
  /\ forall D row, In (D, row) (net_greeks_df pos) ->
       ng_net_delta row = agg_sum delta_exposure (on_date pos D)
       /\ ng_net_vega row = agg_sum vega_exposure (on_date pos D).
Proof.
  split.
  - unfold net_greeks_df, index. rewrite map_map. simpl.
    apply (grouped_index date
             (fun g => mkNetGreeks (agg_sum delta_exposure g) (agg_sum vega_exposure g))
             pos).
  - intros D row Hin. unfold net_greeks_df in Hin. apply in_map_iff in Hin.
    destruct Hin as ([d g] & [= <- <-] & Hg). simpl.
    apply (grouped_In date
             (fun g => mkNetGreeks (agg_sum delta_exposure g) (agg_sum vega_exposure g))
             pos d g) in Hg.
    destruct Hg as (_ & ->). simpl. rewrite on_date_group. split; reflexivity.
Qed.

Lemma spy_hedge_In (pos : list Position) (D : Date) (v : Q) :
  In (D, v) (spy_hedge pos) <->
  In D (map date (hedge_rows pos))
  /\ v = agg_sum qty_signed (on_date (hedge_rows pos) D).
Proof.
  rewrite <- on_date_group.
  apply (grouped_In date (agg_sum qty_signed) (hedge_rows pos) D v).
Qed.

(** X22.  On a date without a record of the hedge stock the delta-hedge
    flag is false.  On a date that has one, and that is not the first such
    date, the flag is true exactly when the signed quantity of the hedge
    stock differs from that of the last earlier date that has one. *)
Theorem delta_hedge_flag_after_first_record
    (pos : list Position) (D : Date) (row : NetGreeksRow) :
  In (D, row) (net_greeks_df pos) ->
  (~ In D (map date (hedge_rows pos)) -> delta_hedge row = false)
  /\ forall D',
       In D (map date (hedge_rows pos)) -> In D' (map date (hedge_rows pos)) ->
       (D' < D)%Z ->
       (forall x, In x (map date (hedge_rows pos)) -> (x < D)%Z -> (x <= D')%Z) ->
       (delta_hedge row = true <->
        ~ agg_sum qty_signed (on_date (hedge_rows pos) D)
          == agg_sum qty_signed (on_date (hedge_rows pos) D')).
Proof.
  intros Hin. pose proof (delta_hedge_flag_spec pos D row Hin) as Hspec.
  split.
  - intros Hno. apply not_true_is_false. intros Hb. apply Hspec in Hb.
    destruct Hb as (v & pv & (Hv & _) & _).
    apply Hno. apply spy_hedge_In in Hv. tauto.
  - intros D' HD HD' Hlt Hmax.
    set (v := agg_sum qty_signed (on_date (hedge_rows pos) D)).
    set (v' := agg_sum qty_signed (on_date (hedge_rows pos) D')).
    assert (Hsv : shifted_value (spy_hedge pos) D v (Some v')).
    { split; [apply spy_hedge_In; now split|].
      exists D'. split; [apply spy_hedge_In; now split|]. split; [exact Hlt|].
      intros x Hx. apply Hmax. now apply spy_hedge_index. }
    rewrite Hspec. split.
    + intros (v2 & pv2 & Hsv2 & Hc).
      destruct (shifted_value_unique _ _ _ _ _ _
                  (sorted_NoDup _ (spy_hedge_sorted pos)) Hsv Hsv2) as (<- & <-).
      exact Hc.
    + intros Hne. now exists v, (Some v').
Qed.

Lemma delta_hedge_flag_after_first_record_witness :
  exists row, In (2%Z, row) (net_greeks_df first_hedge_log)
              /\ delta_hedge row = false.
Proof.
  assert (H2 : In 2%Z (map date first_hedge_log)) by (simpl; tauto).
  destruct (net_greeks_df_dates first_hedge_log 2 H2) as (row & Hin).
  exists row. split; [exact Hin|].
  destruct (delta_hedge_flag_after_first_record first_hedge_log 2 row Hin)
    as (_ & Hiff).
  apply not_true_is_false. intros Hb.
  apply (Hiff 1%Z) in Hb.
  - apply Hb. reflexivity.
  - simpl. tauto.
  - simpl. tauto.
  - lia.
  - simpl. intros x [<- | [<- | []]]; lia.
Defined.
